(** * mappingFromFieldMap: from a flat field map to nested index mappings

    Shallow embedding of
    [x-pack/plugins/rule_registry/server/event_log/log/utils/mapping_from_field_map.ts]
    together with the part of [set] (from [@elastic/safer-lodash-set]) that
    the function calls.

    JavaScript objects are mutable and shared, so the embedding works on an
    explicit heap: an object is a heap cell, a reference is a location, and
    every function threads the heap.  A thrown exception is the [Throw]
    outcome of the [result] type. *)

From Stdlib Require Import ZArith String Ascii List Bool Lia.
From stdpp Require Import base option list strings pretty gmap.

Local Open Scope Z_scope.
Local Set Warnings "-register-all".

(** ** Values, objects and the heap *)

Abbreviation loc := nat.

(** JavaScript values.  Numbers are restricted to integers; strings are
    sequences of 8-bit characters. *)
Inductive value : Type :=
| VUndef
| VNull
| VBool (b : bool)
| VNum (n : Z)
| VStr (s : string)
| VRef (l : loc).

(** An array is an object that also carries its [length]. *)
Inductive kind : Type :=
| KObject
| KArray (len : Z).

(** Own enumerable properties, in creation order. *)
Record object : Type := mkObj { okind : kind; oprops : list (string * value) }.

Abbreviation heap := (list object).

Inductive result (A : Type) : Type :=
| Ok (a : A)
| Throw.
Arguments Ok {A} a.
Arguments Throw {A}.

Global Instance value_eq_dec : EqDecision value.
Proof. solve_decision. Defined.
Global Instance kind_eq_dec : EqDecision kind.
Proof. solve_decision. Defined.
Global Instance object_eq_dec : EqDecision object.
Proof. solve_decision. Defined.

Definition empty_object : object := mkObj KObject [].
Definition empty_array : object := mkObj (KArray 0) [].

(** [alloc h o] is [new]: the fresh location is the size of the heap. *)
Definition alloc (h : heap) (o : object) : heap * loc := (h ++ [o], length h).

(** ** Property lists *)

Fixpoint assoc (k : string) (ps : list (string * value)) : option value :=
  match ps with
  | [] => None
  | (k', v) :: ps' => if decide (k' = k) then Some v else assoc k ps'
  end.

(** [o[k] = v] on a property list: an existing key keeps its position. *)
Fixpoint put (k : string) (v : value) (ps : list (string * value))
  : list (string * value) :=
  match ps with
  | [] => [(k, v)]
  | (k', v') :: ps' =>
      if decide (k' = k) then (k, v) :: ps' else (k', v') :: put k v ps'
  end.

(** *** Canonical numeric strings *)

Definition digit_val (c : ascii) : option Z :=
  let n := Z.of_nat (nat_of_ascii c) in
  if (48 <=? n) && (n <=? 57) then Some (n - 48) else None.

Fixpoint digits_val (acc : Z) (s : string) : option Z :=
  match s with
  | EmptyString => Some acc
  | String c s' =>
      match digit_val c with
      | Some d => digits_val (acc * 10 + d) s'
      | None => None
      end
  end.

(** lodash [reIsUint]: a single zero, or a nonzero digit followed by digits;
    with the number the string denotes. *)
Definition parse_uint (s : string) : option Z :=
  match s with
  | EmptyString => None
  | String c s' =>
      if decide (c = "0"%char)
      then (if decide (s' = EmptyString) then Some 0 else None)
      else digits_val 0 s
  end.

(** lodash [isIndex(value)] on a string, with the default
    [length = MAX_SAFE_INTEGER]. *)
Definition isIndex (s : string) : bool :=
  match parse_uint s with
  | Some n => n <? 9007199254740991
  | None => false
  end.

(** An array index in the sense of the language: below [2^32 - 1]. *)
Definition array_index (s : string) : option Z :=
  match parse_uint s with
  | Some n => if n <? 4294967295 then Some n else None
  | None => None
  end.

(** *** Own properties of an object *)

(** The own property [k] of [o]; [None] when [hasOwnProperty] is false.  An
    array owns [length]. *)
Definition get_own (o : object) (k : string) : option value :=
  match okind o with
  | KArray n => if decide (k = "length") then Some (VNum n) else assoc k (oprops o)
  | KObject => assoc k (oprops o)
  end.

(** The properties of an array that are not elements: those whose key is
    not an array index. *)
Definition named_props (ps : list (string * value)) : list (string * value) :=
  filter (λ p, array_index p.1 = None) ps.

(** [o[k] = value] for an object [value] at [v].  [set] assigns three kinds
    of objects: the value it was given, which the builder makes as a plain
    object; a new plain object [{}]; and a new array [[]].  [new_array]
    tells that [value] is such a [[]].

    The property holds [VRef v] afterwards, except when it is the [length]
    of an array: there the value is converted to a number.  The array [[]]
    converts to the empty string and so to 0: the length becomes 0 and the
    array loses its elements.  A plain object does not convert to a length,
    and the assignment raises an error. *)
Definition assign_own (o : object) (k : string) (v : loc) (new_array : bool)
  : result object :=
  match okind o with
  | KObject => Ok (mkObj KObject (put k (VRef v) (oprops o)))
  | KArray n =>
      if decide (k = "length") then
        if new_array then Ok (mkObj (KArray 0) (named_props (oprops o)))
        else Throw
      else
        match array_index k with
        | Some i => Ok (mkObj (KArray (Z.max n (i + 1))) (put k (VRef v) (oprops o)))
        | None => Ok (mkObj (KArray n) (put k (VRef v) (oprops o)))
        end
  end.

(** *** Enumeration order

    [Object.keys], object spread and rest enumerate array-index keys first,
    in ascending numeric order, then the other keys in creation order. *)

Fixpoint insert_sorted (i : Z) (p : string * value)
  (l : list (Z * (string * value))) : list (Z * (string * value)) :=
  match l with
  | [] => [(i, p)]
  | (j, q) :: l' =>
      if i <? j then (i, p) :: (j, q) :: l' else (j, q) :: insert_sorted i p l'
  end.

Fixpoint index_props (ps : list (string * value)) : list (Z * (string * value)) :=
  match ps with
  | [] => []
  | (k, v) :: ps' =>
      match array_index k with
      | Some i => insert_sorted i (k, v) (index_props ps')
      | None => index_props ps'
      end
  end.

Definition ordered_props (ps : list (string * value)) : list (string * value) :=
  (snd <$> index_props ps) ++ named_props ps.

(** ** Strings: [split] and [join] *)

(** [s.split('.')]: never empty, the empty string gives one empty segment. *)
Fixpoint split_dot (s : string) : list string :=
  match s with
  | EmptyString => [EmptyString]
  | String c s' =>
      if decide (c = "."%char) then EmptyString :: split_dot s'
      else
        match split_dot s' with
        | [] => [String c EmptyString]
        | x :: xs => String c x :: xs
        end
  end.

(** [l.join(sep)] *)
Fixpoint join (sep : string) (l : list string) : string :=
  match l with
  | [] => EmptyString
  | x :: l' =>
      match l' with
      | [] => x
      | _ :: _ => x +:+ sep +:+ join sep l'
      end
  end.

(** ** Property paths of lodash

    [castPath(value, object)] is [[value]] when [isKey(value, object)] and
    [stringToPath(value)] otherwise.  [stringToPath] collects the matches of
    the regular expression [rePropName], which has three alternatives: a run
    of characters other than dot and brackets; a bracketed number or quoted
    string; and an empty match in front of a dot or an empty bracket pair
    that is followed by another one or by the end of the string. *)

Definition is_special (c : ascii) : bool :=
  bool_decide (c = "."%char) || bool_decide (c = "["%char) || bool_decide (c = "]"%char).

Definition is_digit (c : ascii) : bool :=
  match digit_val c with Some _ => true | None => false end.

Definition double_quote : ascii := ascii_of_nat 34.

Definition is_quote (c : ascii) : bool :=
  bool_decide (c = double_quote) || bool_decide (c = "'"%char).

Definition backslash : ascii := ascii_of_nat 92.

(** The characters the regular-expression dot does not match. *)
Definition is_line_terminator (c : ascii) : bool :=
  bool_decide (c = ascii_of_nat 10) || bool_decide (c = ascii_of_nat 13).

(** Word characters: letters, digits and underscore. *)
Definition is_word (c : ascii) : bool :=
  let n := nat_of_ascii c in
  ((48 <=? n) && (n <=? 57) || (65 <=? n) && (n <=? 90)
   || (97 <=? n) && (n <=? 122) || (n =? 95))%nat.

Fixpoint take_digits (s : string) : string * string :=
  match s with
  | EmptyString => (EmptyString, EmptyString)
  | String c s' =>
      if is_digit c then let '(d, r) := take_digits s' in (String c d, r)
      else (EmptyString, s)
  end.

Definition starts_with (c : ascii) (s : string) : bool :=
  match s with
  | String d _ => bool_decide (d = c)
  | EmptyString => false
  end.

(** After an opening bracket: an optional minus sign, digits, an optional
    fraction, and the closing bracket.  Returns the number as written and
    how many characters it took, closing bracket included. *)
Definition bracket_number (s : string) : option (string * nat) :=
  let '(sign, s1) :=
    match s with
    | String c t => if decide (c = "-"%char) then (String c EmptyString, t) else (EmptyString, s)
    | EmptyString => (EmptyString, s)
    end in
  let '(d1, s2) := take_digits s1 in
  if decide (d1 = EmptyString) then None
  else
    match s2 with
    | String c s3 =>
        if decide (c = "]"%char)
        then Some (sign +:+ d1, String.length sign + String.length d1 + 1)%nat
        else if decide (c = "."%char)
        then
          let '(d2, s4) := take_digits s3 in
          if decide (d2 = EmptyString) then None
          else if starts_with "]" s4
          then Some (sign +:+ d1 +:+ "." +:+ d2,
                     String.length sign + String.length d1 + 1
                     + String.length d2 + 1)%nat
          else None
        else None
    | EmptyString => None
    end.

(** After an opening quote [q]: the body up to the first unescaped [q],
    which has to be followed by the closing bracket.  A backslash takes the
    next character with it.  Returns the raw body and how many characters
    were taken, closing quote and bracket included. *)
Fixpoint quoted_body (q : ascii) (s : string) : option (string * nat) :=
  match s with
  | EmptyString => None
  | String c s' =>
      if decide (c = q) then
        (if starts_with "]" s' then Some (EmptyString, 2%nat) else None)
      else if decide (c = backslash) then
        match s' with
        | String d s'' =>
            if is_line_terminator d then None
            else
              match quoted_body q s'' with
              | Some (b, n) => Some (String c (String d b), S (S n))
              | None => None
              end
        | EmptyString => None
        end
      else
        match quoted_body q s' with
        | Some (b, n) => Some (String c b, S n)
        | None => None
        end
  end.

(** Replacing [reEscapeChar]: a doubled backslash becomes one, a single
    backslash disappears. *)
Fixpoint unescape (s : string) : string :=
  match s with
  | EmptyString => EmptyString
  | String c s' =>
      if decide (c = backslash) then
        match s' with
        | String d s'' =>
            if decide (d = backslash) then String backslash (unescape s'')
            else unescape s'
        | EmptyString => EmptyString
        end
      else String c (unescape s')
  end.

(** The second alternative of [rePropName], after the opening bracket. *)
Definition bracket_match (s : string) : option (string * nat) :=
  match bracket_number s with
  | Some r => Some r
  | None =>
      match s with
      | String q t =>
          if is_quote q then
            match quoted_body q t with
            | Some (b, n) => Some (unescape b, S n)
            | None => None
            end
          else None
      | EmptyString => None
      end
  end.

(** What may follow the dot or the empty bracket pair of the third
    alternative: a dot, an empty bracket pair, or the end. *)
Definition separator_follows (s : string) : bool :=
  match s with
  | EmptyString => true
  | String c s' =>
      bool_decide (c = "."%char) || (bool_decide (c = "["%char) && starts_with "]" s')
  end.

(** All matches of [rePropName] in [s], from left to right.  [skip] counts
    the characters that still belong to the previous match. *)
Fixpoint prop_names (skip : nat) (s : string) : list string :=
  match s with
  | EmptyString => []
  | String c s' =>
      match skip with
      | S k => prop_names k s'
      | O =>
          if decide (c = "."%char) then
            (if separator_follows s' then EmptyString :: prop_names O s'
             else prop_names O s')
          else if decide (c = "["%char) then
            match bracket_match s' with
            | Some (tok, n) => tok :: prop_names n s'
            | None =>
                match s' with
                | String d s'' =>
                    if bool_decide (d = "]"%char) && separator_follows s''
                    then EmptyString :: prop_names O s'
                    else prop_names O s'
                | EmptyString => prop_names O s'
                end
            end
          else if decide (c = "]"%char) then prop_names O s'
          else
            (* a run of ordinary characters: it extends the run that starts
               at the next character, when there is one *)
            match s' with
            | String d _ =>
                if is_special d then String c EmptyString :: prop_names O s'
                else
                  match prop_names O s' with
                  | x :: xs => String c x :: xs
                  | [] => [String c EmptyString]
                  end
            | EmptyString => [String c EmptyString]
            end
      end
  end.

Definition stringToPath (s : string) : list string :=
  (if starts_with "." s then [EmptyString] else []) ++ prop_names O s.

(** [reIsPlainProp]: word characters only. *)
Fixpoint is_plain (s : string) : bool :=
  match s with
  | EmptyString => true
  | String c s' => is_word c && is_plain s'
  end.

(** After an opening bracket: characters other than brackets, then the
    closing bracket. *)
Fixpoint simple_bracket (s : string) : bool :=
  match s with
  | EmptyString => false
  | String c s' =>
      if decide (c = "]"%char) then true
      else if decide (c = "["%char) then false
      else simple_bracket s'
  end.

Definition quoted_bracket (s : string) : bool :=
  match s with
  | String q t => is_quote q && bool_decide (is_Some (quoted_body q t))
  | EmptyString => false
  end.

(** [reIsDeepProp] matches somewhere in the string: a dot, or a bracket
    pair around ordinary characters or around a quoted string. *)
Fixpoint is_deep (s : string) : bool :=
  match s with
  | EmptyString => false
  | String c s' =>
      bool_decide (c = "."%char)
      || (bool_decide (c = "["%char) && (simple_bracket s' || quoted_bracket s'))
      || is_deep s'
  end.

(** [isKey(value, object)] on a string.  The last disjunct is
    [value in Object(object)]; it is only reached by a string that contains
    a dot or a bracket, and no inherited property has such a name, so it is
    a test for an own property. *)
Definition isKey (s : string) (o : object) : bool :=
  is_plain s || negb (is_deep s) || bool_decide (is_Some (get_own o s)).

Definition castPath (s : string) (o : object) : list string :=
  if isKey s o then [s] else stringToPath s.

(** ** [set] of [@elastic/safer-lodash-set] *)

(** [assignValue(object, key, value)] for an object [value]: nothing is
    written when the own property already holds this very object.
    [new_array] is passed on to the assignment. *)
Definition assignValue (h : heap) (nested : loc) (key : string) (v : loc)
  (new_array : bool) : result heap :=
  match h !! nested with
  | None => Throw
  | Some o =>
      if decide (get_own o key = Some (VRef v)) then Ok h
      else
        match assign_own o key v new_array with
        | Ok o' => Ok (<[nested := o']> h)
        | Throw => Throw
        end
  end.

(** [objValue] of [baseSet] when [isObject(objValue)] holds: the own
    property [key] of [o], if it is an object. *)
Definition object_at (o : object) (key : string) : option loc :=
  match get_own o key with
  | Some (VRef l) => Some l
  | _ => None
  end.

(** [nested[key]] when it is an object, as the loop reads it back after
    the assignment. *)
Definition object_under (h : heap) (nested : loc) (key : string) : option loc :=
  match h !! nested with
  | Some o => object_at o key
  | None => None
  end.

(** A round of the loop in which [nested] is a number.  This happens after
    the round that assigned [[]] to the [length] of an array: [nested] is
    that length then, the number 0, and the key of the round is an index.
    A number has no own properties, so a round that is not the last one
    makes its new array or object; the assignment to a property of a number
    is ignored, as the library does not run in strict mode; and no number
    has an index as a property, so [nested] becomes undefined and the loop
    ends. *)
Definition number_round (h : heap) (path : list string) : heap :=
  match path with
  | _ :: next :: _ =>
      (alloc h (if isIndex next then empty_array else empty_object)).1
  | _ => h
  end.

(** The loop of [baseSet].  [nested] is the object reached so far and
    [path] what is left of the path.  Before the last key, an own property
    that holds an object is entered; anything else is replaced by a new
    array (when the next key is an index) or a new object, and the loop goes
    on with what [nested[key]] holds then: the new object, or a number when
    the key was the [length] of an array.  The last key receives the value,
    which is a plain object.  The guard on the key [prototype] concerns
    functions, which this heap has none of.  A reference that leaves the
    heap cannot occur in a running program; the model stops with [Throw]
    there. *)
Fixpoint baseSet_loop (h : heap) (nested : loc) (path : list string) (v : loc)
  : result heap :=
  match path with
  | [] => Ok h
  | key :: rest =>
      match rest with
      | [] => assignValue h nested key v false
      | next :: _ =>
          match h !! nested with
          | None => Throw
          | Some o =>
              match object_at o key with
              | Some l => baseSet_loop h l rest v
              | None =>
                  let '(h1, l) :=
                    alloc h (if isIndex next then empty_array else empty_object) in
                  match assignValue h1 nested key l (isIndex next) with
                  | Ok h2 =>
                      match object_under h2 nested key with
                      | Some l' => baseSet_loop h2 l' rest v
                      | None => Ok (number_round h2 rest)
                      end
                  | Throw => Throw
                  end
              end
          end
      end
  end.

(** [set(object, path, value)] for an object [object], a string [path] and
    a plain object [value]. *)
Definition set (h : heap) (object : loc) (path : string) (v : loc) : result heap :=
  match h !! object with
  | None => Throw
  | Some o => baseSet_loop h object (castPath path o) v
  end.

(** ** [mappingFromFieldMap] *)

(** The own enumerable properties that an object spread copies from a
    value: those of an object, the characters of a string, nothing
    otherwise. *)
Fixpoint string_chars (i : nat) (s : string) : list (string * value) :=
  match s with
  | EmptyString => []
  | String c s' =>
      (pretty (N.of_nat i), VStr (String c EmptyString)) :: string_chars (S i) s'
  end.

Definition spread_props (h : heap) (v : value) : list (string * value) :=
  match v with
  | VRef l =>
      match h !! l with
      | Some o => ordered_props (oprops o)
      | None => []
      end
  | VStr s => string_chars 0 s
  | _ => []
  end.

(** The temporary object [{ name: key, ...field }].  It never escapes the
    function, so it is kept as a property list and not allocated. *)
Definition field_object (h : heap) (key : string) (field : value)
  : list (string * value) :=
  foldl (λ ps p, put p.1 p.2 ps) [("name", VStr key)] (spread_props h field).

(** [Object.keys(fieldMap).map(...)] *)
Definition fields_of (h : heap) (o : object) : list (list (string * value)) :=
  (λ p, field_object h p.1 (default VUndef (assoc p.1 (oprops o))))
    <$> ordered_props (oprops o).

(** The rest of [const { name, required, array, ...rest } = field]. *)
Definition stripped (k : string) : bool :=
  bool_decide (k = "name") || bool_decide (k = "required") || bool_decide (k = "array").

Definition rest_props (field : list (string * value)) : list (string * value) :=
  filter (λ p, stripped p.1 = false) (ordered_props field).

(** [field.name.split('.').join('.properties.')]; a [name] that is not a
    string has no [split] method and the call raises [TypeError]. *)
Definition mapping_path (field : list (string * value)) : result string :=
  match assoc "name" field with
  | Some (VStr s) => Ok (join ".properties." (split_dot s))
  | _ => Throw
  end.

(** One round of [fields.forEach]. *)
Definition place_field (h : heap) (properties : loc) (field : list (string * value))
  : result heap :=
  let '(h1, rest) := alloc h (mkObj KObject (rest_props field)) in
  match mapping_path field with
  | Ok path => set h1 properties path rest
  | Throw => Throw
  end.

Fixpoint forEach_fields (h : heap) (properties : loc)
  (fields : list (list (string * value))) : result heap :=
  match fields with
  | [] => Ok h
  | f :: fs =>
      match place_field h properties f with
      | Ok h' => forEach_fields h' properties fs
      | Throw => Throw
      end
  end.

(** The heap after [const mappings = { dynamic, properties: {} }]:
    [mappings] is the first new object and [mappings.properties] the
    second. *)
Definition start_heap (h : heap) (dynamic : value) : heap :=
  h ++ [mkObj KObject [("dynamic", dynamic); ("properties", VRef (S (length h)))];
        empty_object].

(** [mappingFromFieldMap(fieldMap, dynamic)].  The result is the final heap
    and the location of [mappings].  All field objects are made before the
    loop runs, so they show the declarations as they were on entry. *)
Definition mappingFromFieldMap (h : heap) (fieldMap : loc) (dynamic : value)
  : result (heap * loc) :=
  let mappings := length h in
  let properties := S (length h) in
  let h1 := start_heap h dynamic in
  match h !! fieldMap with
  | None => Throw
  | Some o =>
      match forEach_fields h1 properties (fields_of h o) with
      | Ok h2 => Ok (h2, mappings)
      | Throw => Throw
      end
  end.

(** ** Reading the result *)

(** [o.k1.k2. ... .kn], through own properties. *)
Fixpoint lookup_path (h : heap) (v : value) (path : list string) : option value :=
  match path with
  | [] => Some v
  | k :: path' =>
      match v with
      | VRef l =>
          match h !! l with
          | Some o =>
              match get_own o k with
              | Some v' => lookup_path h v' path'
              | None => None
              end
          | None => None
          end
      | _ => None
      end
  end.

(** The value a reference stands for, as a tree.  Sharing is unfolded, so a
    cyclic value has no tree; [fuel] bounds the depth. *)
Inductive json : Type :=
| JUndef
| JNull
| JBool (b : bool)
| JNum (n : Z)
| JStr (s : string)
| JObj (ps : list (string * json))
| JArr (len : Z) (ps : list (string * json)).

Fixpoint reify (fuel : nat) (h : heap) (v : value) : option json :=
  match v with
  | VUndef => Some JUndef
  | VNull => Some JNull
  | VBool b => Some (JBool b)
  | VNum n => Some (JNum n)
  | VStr s => Some (JStr s)
  | VRef l =>
      match fuel with
      | O => None
      | S n =>
          match h !! l with
          | None => None
          | Some o =>
              match mapM (λ p, pair p.1 <$> reify n h p.2) (oprops o) with
              | Some ps =>
                  Some (match okind o with
                        | KObject => JObj ps
                        | KArray len => JArr len ps
                        end)
              | None => None
              end
          end
      end
  end.

(** The path at which a field named [name] is expected:
    [s1.properties.s2. ... .properties.sn]. *)
Fixpoint interleave (segs : list string) : list string :=
  match segs with
  | [] => []
  | s :: segs' =>
      match segs' with
      | [] => [s]
      | _ :: _ => s :: "properties" :: interleave segs'
      end
  end.

Definition field_path (name : string) : list string := interleave (split_dot name).

(** ** Vocabulary of the statements *)

Definition is_ref (v : value) : bool :=
  match v with
  | VRef _ => true
  | _ => false
  end.

(** No reference leaves the heap, as in every heap of a running program. *)
Definition heap_closed (h : heap) : Prop :=
  ∀ l o k l', h !! l = Some o → (k, VRef l') ∈ oprops o → (l' < length h)%nat.

(** An object has each key once. *)
Definition wf_object (o : object) : Prop := NoDup (oprops o).*1.

(** Structural equality of two values, each in its own heap: the values
    are related by a relation that relates equal primitives only and that
    relates two references only when the objects have the same kind and
    the same keys with related values. *)
Definition struct_step (h1 h2 : heap) (R : value → value → Prop)
  (a b : value) : Prop :=
  match a, b with
  | VRef l1, VRef l2 =>
      ∃ o1 o2, h1 !! l1 = Some o1 ∧ h2 !! l2 = Some o2 ∧ okind o1 = okind o2 ∧
        ∀ k, match assoc k (oprops o1), assoc k (oprops o2) with
             | Some x, Some y => R x y
             | None, None => True
             | _, _ => False
             end
  | VRef _, _ => False
  | _, VRef _ => False
  | _, _ => a = b
  end.

Definition struct_equal (h1 : heap) (v1 : value) (h2 : heap) (v2 : value) : Prop :=
  ∃ R : value → value → Prop,
    R v1 v2 ∧ ∀ a b, R a b → struct_step h1 h2 R a b.

(** The name of a field object, when it is a string. *)
Definition field_name (field : list (string * value)) : option string :=
  match assoc "name" field with
  | Some (VStr s) => Some s
  | _ => None
  end.

(** A name as the data model wants it: no segment is empty. *)
Definition well_formed (name : string) : Prop :=
  Forall (λ s, s ≠ EmptyString) (split_dot name).

Fixpoint bracket_free (s : string) : bool :=
  match s with
  | EmptyString => true
  | String c s' =>
      negb (bool_decide (c = "["%char) || bool_decide (c = "]"%char))
      && bracket_free s'
  end.

Fixpoint dot_free (s : string) : bool :=
  match s with
  | EmptyString => true
  | String c s' => negb (bool_decide (c = "."%char)) && dot_free s'
  end.

(** A name without brackets and without a segment called [length]. *)
Definition plain_name (name : string) : Prop :=
  bracket_free name = true ∧ "length" ∉ split_dot name.

(** Neither path is a prefix of the other; in particular they differ. *)
Definition independent (p q : list string) : Prop :=
  ¬ p `prefix_of` q ∧ ¬ q `prefix_of` p.

Fixpoint pairwise_independent (L : list (list string)) : Prop :=
  match L with
  | [] => True
  | p :: L' => Forall (independent p) L' ∧ pairwise_independent L'
  end.

(** The field objects carry the names [names], in this order. *)
Definition fields_named (fields : list (list (string * value))) (names : list string)
  : Prop :=
  Forall2 (λ f n, field_name f = Some n) fields names.

(** A table the builder handles without surprises: plain names, none of
    which continues another one. *)
Definition simple_names (names : list string) : Prop :=
  Forall plain_name names ∧ pairwise_independent (split_dot <$> names).

(** No attribute of a declaration of the table is an object. *)
Definition flat_declarations (h : heap) (table : object) : Prop :=
  ∀ key d o k v, (key, VRef d) ∈ oprops table → h !! d = Some o →
    (k, v) ∈ oprops o → is_ref v = false.

(** The executable form of [heap_closed]. *)
Definition heap_closedb (h : heap) : bool :=
  forallb
    (λ o, forallb
            (λ p, match p.2 with
                  | VRef l => bool_decide (l < length h)%nat
                  | _ => true
                  end)
            (oprops o))
    h.

(** No object other than [m] itself holds a reference to [m]. *)
Definition unreferenced (m : loc) (h : heap) : Prop :=
  ∀ l o k, l ≠ m → h !! l = Some o → (k, VRef m) ∉ oprops o.

(** Every object other than [m] refers to objects of the heap only, and not
    to [m]. *)
Definition closed_around (m : loc) (h : heap) : Prop :=
  ∀ l o k l', l ≠ m → h !! l = Some o → (k, VRef l') ∈ oprops o →
    (l' < length h)%nat ∧ l' ≠ m.

(** From [h] to [h'], a plain object at [l] stays a plain object and keeps
    its keys. *)
Definition keeps_keys (h h' : heap) (l : loc) : Prop :=
  ∀ o, h !! l = Some o → okind o = KObject →
    ∃ o', h' !! l = Some o' ∧ okind o' = KObject ∧
          ∀ k, is_Some (get_own o k) → is_Some (get_own o' k).

(** The first key of the path of a field with the name [name], as [set]
    reads the path in the object [tree]. *)
Definition first_key (tree : object) (name : string) : option string :=
  head (castPath (join ".properties." (split_dot name)) tree).

(** From [base] on, objects refer to objects of the heap from [base] on
    only. *)
Definition region_closed (base : loc) (h : heap) : Prop :=
  ∀ l o k l', (base ≤ l)%nat → h !! l = Some o → (k, VRef l') ∈ oprops o →
    (base ≤ l' < length h)%nat.

(** The executable form of [flat_declarations]. *)
Definition flat_declarationsb (h : heap) (table : object) : bool :=
  forallb
    (λ p, match p.2 with
          | VRef d =>
              match h !! d with
              | Some o => forallb (λ q, negb (is_ref q.2)) (oprops o)
              | None => true
              end
          | _ => true
          end)
    (oprops table).

(** ** The tree under [mappings.properties]

    A layout says which location stands at which path below the root.  The
    invariant of the loop ties a layout to the heap: the layout is defined
    on the root and on the prefixes of [paths], distinct paths have
    distinct locations, and an inner node holds, under each key, exactly
    the location the layout gives to the longer path.  The paths in
    [leaves] end in a leaf, about which the invariant says nothing.
    [arrays] tells whether a node may be an array. *)

Definition layout := list string → option loc.

Definition layout_update (G : layout) (p : list string) (l : loc) : layout :=
  λ q, if decide (q = p) then Some l else G q.

Record tree_inv (arrays : Prop) (root : loc) (h : heap) (G : layout)
    (leaves paths : list (list string)) : Prop := mkTreeInv {
  ti_root : G [] = Some root;
  ti_dom : ∀ q, is_Some (G q) ↔ q = [] ∨ ∃ p, p ∈ paths ∧ q `prefix_of` p;
  ti_inj : ∀ q1 q2 l, G q1 = Some l → G q2 = Some l → q1 = q2;
  ti_bound : ∀ q l, G q = Some l → (l < length h)%nat;
  ti_node : ∀ q l, G q = Some l → q ∉ leaves →
    ∃ o, h !! l = Some o ∧ (okind o = KObject ∨ arrays) ∧
         ∀ k, k ≠ "length" ∨ okind o = KObject →
              get_own o k = VRef <$> G (q ++ [k])
}.

(** The leaf of a field object with the name [fn.2] stands at the path of
    that name and has the attributes that were left after stripping. *)
Definition placed (h : heap) (G : layout) (fn : list (string * value) * string)
  : Prop :=
  ∃ r, G (field_path fn.2) = Some r ∧ h !! r = Some (mkObj KObject (rest_props fn.1)).

(** What the invariant of the loop asks of a name: no brackets, no segment
    called [length], and index segments only when arrays are allowed. *)
Definition name_ok (arrays : Prop) (n : string) : Prop :=
  bracket_free n = true ∧ ("length" ∉ split_dot n) ∧
  (∀ s, s ∈ split_dot n → isIndex s = true → arrays).

(** The paths of the leaves of the fields placed so far. *)
Definition leaf_paths (done : list (list (string * value) * string))
  : list (list string) :=
  field_path <$> done.*2.


(** The names of the fields of a table, in the order of the loop, when all
    of them are strings. *)
Definition table_names (h : heap) (table : object) : option (list string) :=
  mapM field_name (fields_of h table).

(** No segment of the name is an index. *)
Definition no_index (name : string) : Prop :=
  Forall (λ s, isIndex s = false) (split_dot name).

Global Instance plain_name_dec n : Decision (plain_name n).
Proof. unfold plain_name. apply _. Defined.

Global Instance independent_dec p q : Decision (independent p q).
Proof. unfold independent. apply _. Defined.

Global Instance pairwise_independent_dec L : Decision (pairwise_independent L).
Proof. induction L as [|p L IH]; simpl; apply _. Defined.

Global Instance simple_names_dec names : Decision (simple_names names).
Proof. unfold simple_names. apply _. Defined.

Global Instance no_index_dec n : Decision (no_index n).
Proof. unfold no_index. apply _. Defined.

(** The relation that shows two trees with the layouts [Ga] and [Gb]
    equal: what existed in [h] before the call is related to itself, a node
    to the node at the same path, and the root to the root. *)
Definition same_place (h : heap) (Ga Gb : layout) (ma mb : loc) (a b : value)
  : Prop :=
  (a = b ∧ ∀ l, a = VRef l → (l < length h)%nat) ∨
  (∃ q la lb, a = VRef la ∧ b = VRef lb ∧ Ga q = Some la ∧ Gb q = Some lb) ∨
  (a = VRef ma ∧ b = VRef mb).

(** ** The same run at other locations

    [shifted base d A B]: from [base] on, the heap [B] holds at [l + d] what
    [A] holds at [l], with every reference moved by [d]. *)

Definition shift_val (d : nat) (v : value) : value :=
  match v with
  | VRef l => VRef (l + d)
  | _ => v
  end.

Definition shift_obj (d : nat) (o : object) : object :=
  mkObj (okind o) (prod_map id (shift_val d) <$> oprops o).

Definition shifted (base d : nat) (A B : heap) : Prop :=
  length B = (length A + d)%nat ∧
  ∀ l, (base ≤ l)%nat → B !! (l + d)%nat = shift_obj d <$> A !! l.

(** Two runs end the same way: both throw, or both return, in heaps that
    are shifted copies of each other. *)
Definition same_outcome (base d : nat) (ra rb : result heap) : Prop :=
  match ra, rb with
  | Ok A, Ok B => shifted base d A B
  | Throw, Throw => True
  | _, _ => False
  end.

(** ** Example tables *)

Definition obj (ps : list (string * value)) : object := mkObj KObject ps.

(** [{ "user.name": { type: "text", required: true } }] at location 1. *)
Definition heap_user_name : heap :=
  [ obj [("type", VStr "text"); ("required", VBool true)];
    obj [("user.name", VRef 0%nat)] ].

(** Two declarations, and at locations 2 and 3 the tables
    [{ "a.b": kw, "a": ob }] and [{ "a": ob, "a.b": kw }]. *)
Definition heap_nested_names : heap :=
  [ obj [("type", VStr "keyword")];
    obj [("type", VStr "object")];
    obj [("a.b", VRef 0%nat); ("a", VRef 1%nat)];
    obj [("a", VRef 1%nat); ("a.b", VRef 0%nat)] ].

(** [{ "a.b.c": kw, "a.b": ob }] at location 2. *)
Definition heap_longer_first : heap :=
  [ obj [("type", VStr "keyword")];
    obj [("type", VStr "object")];
    obj [("a.b.c", VRef 0%nat); ("a.b", VRef 1%nat)] ].

(** [{ "a.0": kw, "a.length": kw }] at location 1. *)
Definition heap_index_length : heap :=
  [ obj [("type", VStr "keyword")];
    obj [("a.0", VRef 0%nat); ("a.length", VRef 0%nat)] ].

(** [{ "a.0": kw, "a.length[0]": kw }] at location 1. *)
Definition heap_length_index : heap :=
  [ obj [("type", VStr "keyword")];
    obj [("a.0", VRef 0%nat); ("a.length[0]", VRef 0%nat)] ].

(** [{ "a[0]": kw, "a[length]": kw }] at location 1. *)
Definition heap_bracket_length : heap :=
  [ obj [("type", VStr "keyword")];
    obj [("a[0]", VRef 0%nat); ("a[length]", VRef 0%nat)] ].

(** [{ "x.0": kw, "x.length": lg }] at location 2. *)
Definition heap_index_length' : heap :=
  [ obj [("type", VStr "keyword")];
    obj [("type", VStr "long")];
    obj [("x.0", VRef 0%nat); ("x.length", VRef 1%nat)] ].

(** [{ a: { type: "object", properties: {} }, "a.b": { type: "keyword" } }]
    at location 3; the inner object is at location 0. *)
Definition heap_shared_properties : heap :=
  [ obj [];
    obj [("type", VStr "object"); ("properties", VRef 0%nat)];
    obj [("type", VStr "keyword")];
    obj [("a", VRef 1%nat); ("a.b", VRef 2%nat)] ].

(** With [kw = { type: "keyword" }] at location 0, the table
    [{ a: { type: "object", properties: kw }, "a.name": { type: "text" }, c: kw }]
    at location 3. *)
Definition heap_shared_declaration : heap :=
  [ obj [("type", VStr "keyword")];
    obj [("type", VStr "object"); ("properties", VRef 0%nat)];
    obj [("type", VStr "text")];
    obj [("a", VRef 1%nat); ("a.name", VRef 2%nat); ("c", VRef 0%nat)] ].

(** [{ "a.b": kw, "a.c": tx }] at location 2. *)
Definition heap_shared_segment : heap :=
  [ obj [("type", VStr "keyword"); ("required", VBool true)];
    obj [("type", VStr "text"); ("array", VBool false)];
    obj [("a.b", VRef 0%nat); ("a.c", VRef 1%nat)] ].


(** [{ a: ob, "a[name]": kw }] at location 2. *)
Definition heap_bracket_name : heap :=
  [ obj [("type", VStr "object")];
    obj [("type", VStr "keyword")];
    obj [("a", VRef 0%nat); ("a[name]", VRef 1%nat)] ].

(** A declaration with a [name] attribute of its own, under the key [a]. *)
Definition heap_named_declaration : heap :=
  [ obj [("name", VStr "zz.y"); ("type", VStr "keyword")];
    obj [("a", VRef 0%nat)] ].

(** The empty table [{}] at location 0. *)
Definition heap_empty_table : heap := [ obj [] ].

(** [{ x: { type: "text", name: 5 } }] at location 1: the declaration has a
    [name] of its own that is not a string. *)
Definition heap_number_name : heap :=
  [ obj [("type", VStr "text"); ("name", VNum 5)];
    obj [("x", VRef 0%nat)] ].

(** [{ "a.b": { type: "text", fields: { keyword: kw } }, "a.c": kw }] at
    location 3: an attribute of the first declaration is an object. *)
Definition heap_nested_attribute : heap :=
  [ obj [("type", VStr "keyword")];
    obj [("keyword", VRef 0%nat)];
    obj [("type", VStr "text"); ("fields", VRef 1%nat)];
    obj [("a.b", VRef 2%nat); ("a.c", VRef 0%nat)] ].

(** [{ a: kw, b: kw }] at location 1: one declaration under two keys. *)
Definition heap_one_declaration : heap :=
  [ obj [("type", VStr "keyword")];
    obj [("a", VRef 0%nat); ("b", VRef 0%nat)] ].

(** The builder called twice in a row; the second call runs in the heap the
    first one left. *)
Definition twice (h : heap) (fieldMap : loc) (dynamic : value)
  : result (heap * loc * loc) :=
  match mappingFromFieldMap h fieldMap dynamic with
  | Ok (h1, m1) =>
      match mappingFromFieldMap h1 fieldMap dynamic with
      | Ok (h2, m2) => Ok (h2, m1, m2)
      | Throw => Throw
      end
  | Throw => Throw
  end.

(** * Theorems *)

(** ** The builder on the example tables *)

Ltac open_struct_equal H :=
  let R := fresh "R" in
  let HR := fresh "HR" in
  let Hstep := fresh "Hstep" in
  destruct H as (R & HR & Hstep).

(** One step of a structural comparison at two concrete references: the
    values under [key] are related again. *)
Ltac struct_descend Hstep HR key Hk :=
  let o1 := fresh "o" in
  let o2 := fresh "o" in
  let H1 := fresh "Hl" in
  let H2 := fresh "Hr" in
  apply Hstep in HR; destruct HR as (o1 & o2 & H1 & H2 & _ & Hk);
  vm_compute in H1; vm_compute in H2;
  injection H1 as <-; injection H2 as <-;
  specialize (Hk key); vm_compute in Hk.

(** C7: the table [{ "user.name": { type: "text", required: true } }] with
    the mode ["strict"] gives
    [{ dynamic: "strict", properties: { user: { properties: { name: { type: "text" } } } } }]. *)
Theorem user_name_mapping :
  ∃ h',
    mappingFromFieldMap heap_user_name 1%nat (VStr "strict") = Ok (h', 2%nat) ∧
    reify 5 h' (VRef 2%nat) =
      Some (JObj [("dynamic", JStr "strict");
                  ("properties",
                   JObj [("user",
                          JObj [("properties",
                                 JObj [("name", JObj [("type", JStr "text")])])])])]).
Proof. eexists. split; vm_compute; reflexivity. Qed.

(** C1, as stated, fails: in the table [{ "a.b": kw, "a": ob }] both names
    are well formed, yet after the call nothing is found at
    [properties.a.properties.b]: placing [a] replaced the node that held
    [b]. *)
Lemma nested_name_overwritten :
  well_formed "a.b" ∧ well_formed "a" ∧
  ∃ h' m,
    mappingFromFieldMap heap_nested_names 2%nat (VStr "strict") = Ok (h', m) ∧
    lookup_path h' (VRef m) ("properties" :: field_path "a.b") = None.
Proof.
  split; [repeat constructor; discriminate|].
  split; [repeat constructor; discriminate|].
  eexists _, _. split; vm_compute; reflexivity.
Qed.

(** C2, as stated, fails: in the table [{ "a": ob, "a.b": kw }] the leaf
    found at [properties.a] has a [properties] attribute, which the
    declaration [ob] does not have. *)
Lemma leaf_gains_attribute :
  ∃ h' m r o decl,
    mappingFromFieldMap heap_nested_names 3%nat (VStr "strict") = Ok (h', m) ∧
    heap_nested_names !! 1%nat = Some decl ∧
    lookup_path h' (VRef m) ("properties" :: field_path "a") = Some (VRef r) ∧
    h' !! r = Some o ∧
    assoc "properties" (oprops decl) = None ∧
    is_Some (assoc "properties" (oprops o)).
Proof.
  eexists _, _, _, _, _.
  split; [vm_compute; reflexivity|].
  split; [reflexivity|].
  split; [vm_compute; reflexivity|].
  split; [vm_compute; reflexivity|].
  split; [reflexivity|].
  vm_compute. eauto.
Qed.


(** C6, as stated, fails: [a.b.c] and [a.b] share their first segment, and
    below the node [properties.a] only the leaf of [a.b] is found: placing
    [a.b] replaced the node that held [c], one field has overwritten the
    other. *)
Lemma shared_segment_overwritten :
  head (split_dot "a.b.c") = head (split_dot "a.b") ∧
  well_formed "a.b.c" ∧ well_formed "a.b" ∧
  ∃ h' m node r,
    mappingFromFieldMap heap_longer_first 2%nat (VStr "strict") = Ok (h', m) ∧
    lookup_path h' (VRef m) ["properties"; "a"] = Some node ∧
    lookup_path h' node (tail (field_path "a.b")) = Some (VRef r) ∧
    h' !! r = Some (obj [("type", VStr "object")]) ∧
    lookup_path h' node (tail (field_path "a.b.c")) = None.
Proof.
  split; [reflexivity|].
  split; [repeat constructor; discriminate|].
  split; [repeat constructor; discriminate|].
  eexists _, _, _, _.
  split; [vm_compute; reflexivity|].
  split; [vm_compute; reflexivity|].
  split; [vm_compute; reflexivity|].
  split; vm_compute; reflexivity.
Qed.

(** Two names with the same first segment can also make the builder throw:
    for [a.0] and [a.length] the node under [a.properties] is created as an
    array, for the index [0], and an array does not take the leaf, a plain
    object, as its [length]. *)
Lemma shared_segment_throws :
  head (split_dot "a.0") = head (split_dot "a.length") ∧
  well_formed "a.0" ∧ well_formed "a.length" ∧
  mappingFromFieldMap heap_index_length 1%nat (VBool true) = Throw.
Proof.
  split; [reflexivity|].
  split; [repeat constructor; discriminate|].
  split; [repeat constructor; discriminate|].
  vm_compute; reflexivity.
Qed.

(** C8, as stated, fails: the table [{ "x.0": kw, "x.length": lg }] has
    unique keys and names with non-empty segments, and the builder throws. *)
Lemma well_formed_table_throws :
  ∃ t,
    heap_index_length' !! 2%nat = Some t ∧
    NoDup (oprops t).*1 ∧
    Forall well_formed (oprops t).*1 ∧
    mappingFromFieldMap heap_index_length' 2%nat (VStr "strict") = Throw.
Proof.
  eexists. split; [reflexivity|].
  split; [apply (bool_decide_unpack _); vm_compute; exact I|].
  split; [repeat constructor; discriminate|].
  vm_compute; reflexivity.
Qed.

(** C9, as stated, fails: in the table
    [{ a: { type: "object", properties: {} }, "a.b": { type: "keyword" } }]
    the declaration under [a] is not structurally the same after the call:
    its [properties] object received [b]. *)
Lemma declaration_changed :
  ∃ h' m,
    mappingFromFieldMap heap_shared_properties 3%nat (VBool false) = Ok (h', m) ∧
    lookup_path heap_shared_properties (VRef 3%nat) ["a"] = Some (VRef 1%nat) ∧
    lookup_path h' (VRef 3%nat) ["a"] = Some (VRef 1%nat) ∧
    ¬ struct_equal heap_shared_properties (VRef 1%nat) h' (VRef 1%nat).
Proof.
  eexists _, _.
  split; [vm_compute; reflexivity|].
  split; [reflexivity|]. split; [vm_compute; reflexivity|].
  intros H. open_struct_equal H.
  struct_descend Hstep HR "properties" Hp.
  struct_descend Hstep Hp "b" Hb.
  exact Hb.
Qed.

(** C5, as stated, fails: on the table
    [{ a: { type: "object", properties: kw }, "a.name": { type: "text" }, c: kw }]
    the first call returns and the second call, with the same arguments,
    throws: the first call stored an object under [kw.name], and [kw] is
    also the declaration of [c]. *)
Lemma second_call_throws :
  (∃ h1 m1,
     mappingFromFieldMap heap_shared_declaration 3%nat (VStr "strict") = Ok (h1, m1)) ∧
  twice heap_shared_declaration 3%nat (VStr "strict") = Throw.
Proof. split; [eexists _, _|]; vm_compute; reflexivity. Qed.

(** The table [{ "a.0": kw, "a.length[0]": kw }]: the first field makes an
    array under [a.properties].  The path of the second field has the keys
    [a], [properties], [length] and [0], so [set] assigns a new array to
    the [length] of that array, which empties it, and then writes to the
    number 0, which does nothing.  The builder returns, and [a.properties]
    is an array without elements. *)
Lemma length_assignment_empties_array :
  ∃ h' m,
    mappingFromFieldMap heap_length_index 1%nat (VBool true) = Ok (h', m) ∧
    reify 6 h' (VRef m) =
      Some (JObj [("dynamic", JBool true);
                  ("properties",
                   JObj [("a", JObj [("properties", JArr 0 [])])])]).
Proof. eexists _, _. split; vm_compute; reflexivity. Qed.

(** C10, as stated, fails: in the table [{ a: ob, "a[name]": kw }] the path
    of the second field has the keys [a] and [name], so [set] enters the
    leaf of [a] and stores the second leaf under its key [name]: in the
    result the leaf of [a] has a [name]. *)
Lemma leaf_gains_name :
  ∃ h' m r leaf,
    mappingFromFieldMap heap_bracket_name 2%nat (VStr "strict") = Ok (h', m) ∧
    lookup_path h' (VRef m) ("properties" :: field_path "a") = Some (VRef r) ∧
    h' !! r = Some leaf ∧
    get_own leaf "type" = Some (VStr "object") ∧
    is_Some (get_own leaf "name").
Proof.
  eexists _, _, _, _.
  split; [vm_compute; reflexivity|].
  split; [vm_compute; reflexivity|].
  split; [vm_compute; reflexivity|].
  split; [reflexivity|]. vm_compute. eauto.
Qed.

(** ** Reading and writing a property list *)

Lemma assoc_put_eq k v ps : assoc k (put k v ps) = Some v.
Proof.
  induction ps as [|[k' v'] ps IH]; simpl.
  - by rewrite decide_True.
  - destruct (decide (k' = k)) as [->|Hne]; simpl.
    + by rewrite decide_True.
    + by rewrite decide_False.
Qed.

Lemma assoc_put_ne k k' v ps : k ≠ k' → assoc k' (put k v ps) = assoc k' ps.
Proof.
  intros Hne. induction ps as [|[k1 v1] ps IH]; simpl.
  - by rewrite decide_False.
  - destruct (decide (k1 = k)) as [->|Hne1]; simpl.
    + by rewrite !decide_False.
    + destruct (decide (k1 = k')); [done|]. exact IH.
Qed.

Lemma elem_of_put k v ps p : p ∈ put k v ps → p = (k, v) ∨ p ∈ ps.
Proof.
  induction ps as [|[k1 v1] ps IH]; simpl.
  - intros ->%list_elem_of_singleton. by left.
  - destruct (decide (k1 = k)) as [->|Hne].
    + intros [->|?]%elem_of_cons; [by left|]. right. by apply elem_of_cons; right.
    + intros [->|H]%elem_of_cons.
      * right. by apply elem_of_cons; left.
      * destruct (IH H) as [->|?]; [by left|]. right. by apply elem_of_cons; right.
Qed.

Lemma assoc_Some_elem k v ps : assoc k ps = Some v → (k, v) ∈ ps.
Proof.
  induction ps as [|[k1 v1] ps IH]; simpl; [done|].
  destruct (decide (k1 = k)) as [->|Hne].
  - intros [= ->]. by apply elem_of_cons; left.
  - intros H. apply elem_of_cons; right. by apply IH.
Qed.

Lemma assoc_None_keys k ps : assoc k ps = None ↔ k ∉ ps.*1.
Proof.
  induction ps as [|[k1 v1] ps IH]; simpl.
  - split; [intros _; apply not_elem_of_nil|done].
  - destruct (decide (k1 = k)) as [->|Hne].
    + split; [done|]. intros H. exfalso. apply H. by apply elem_of_cons; left.
    + rewrite IH, not_elem_of_cons. split; [by split|by intros [_ ?]].
Qed.

Lemma assoc_NoDup k v ps : NoDup ps.*1 → (k, v) ∈ ps → assoc k ps = Some v.
Proof.
  induction ps as [|[k1 v1] ps IH]; simpl.
  - intros _ H. by apply elem_of_nil in H.
  - intros [Hnot Hnd]%NoDup_cons [[= -> ->]|Hin]%elem_of_cons.
    + by rewrite decide_True.
    + destruct (decide (k1 = k)) as [->|Hne]; [|by apply IH].
      exfalso. apply Hnot. apply list_elem_of_fmap. by exists (k, v).
Qed.

(** ** Own properties *)

Lemma get_own_ref_elem o k l : get_own o k = Some (VRef l) → (k, VRef l) ∈ oprops o.
Proof.
  unfold get_own. destruct (okind o).
  - apply assoc_Some_elem.
  - destruct (decide (k = "length")); [done|]. apply assoc_Some_elem.
Qed.

Lemma get_own_not_length o k : k ≠ "length" → get_own o k = assoc k (oprops o).
Proof.
  intros Hk. unfold get_own. destruct (okind o); [done|]. by rewrite decide_False.
Qed.

Lemma assign_own_props o k v b o' :
  assign_own o k v b = Ok o' → k ≠ "length" ∨ okind o = KObject →
  oprops o' = put k (VRef v) (oprops o).
Proof.
  unfold assign_own. intros Ha Hk. destruct (okind o).
  - by injection Ha as <-.
  - destruct Hk as [Hk|?]; [|done]. rewrite decide_False in Ha by done.
    destruct (array_index k); by injection Ha as <-.
Qed.

(** An assignment adds no property other than the one that is assigned. *)
Lemma assign_own_elem o k v b o' p :
  assign_own o k v b = Ok o' → p ∈ oprops o' → p = (k, VRef v) ∨ p ∈ oprops o.
Proof.
  unfold assign_own. intros Ha Hin. destruct (okind o).
  - injection Ha as <-. by apply elem_of_put.
  - destruct (decide (k = "length")).
    + destruct b; [|done]. injection Ha as <-. right.
      by apply list_elem_of_filter in Hin as [_ ?].
    + destruct (array_index k); injection Ha as <-; by apply elem_of_put.
Qed.

Lemma assign_own_not_length o k v b :
  k ≠ "length" → ∃ o', assign_own o k v b = Ok o'.
Proof.
  intros Hk. unfold assign_own. destruct (okind o); [eauto|].
  rewrite decide_False by done. destruct (array_index k); eauto.
Qed.

Lemma assign_own_object o k v b :
  okind o = KObject →
  assign_own o k v b = Ok (mkObj KObject (put k (VRef v) (oprops o))).
Proof. intros Hk. unfold assign_own. by rewrite Hk. Qed.

Lemma assign_own_kind o k v b o' :
  assign_own o k v b = Ok o' → okind o = KObject → okind o' = KObject.
Proof. intros H Hk. rewrite assign_own_object in H by done. by injection H as <-. Qed.

(** After an assignment the property holds the assigned object, unless it
    is the [length] of an array. *)
Lemma get_own_assigned o k v b o' :
  assign_own o k v b = Ok o' → k ≠ "length" ∨ okind o = KObject →
  get_own o' k = Some (VRef v).
Proof.
  intros Ha Hk. pose proof (assign_own_props _ _ _ _ _ Ha Hk) as Hprops.
  destruct Hk as [Hk|Hk].
  - by rewrite get_own_not_length, Hprops, assoc_put_eq.
  - unfold get_own. rewrite (assign_own_kind _ _ _ _ _ Ha Hk), Hprops.
    apply assoc_put_eq.
Qed.

(** The [length] of an array is a number, also after an assignment. *)
Lemma get_own_assigned_ref o k v b o' l :
  assign_own o k v b = Ok o' → get_own o' k = Some (VRef l) → l = v.
Proof.
  intros Ha Hget.
  destruct (decide (k = "length")) as [->|Hk].
  - destruct (okind o) eqn:Hkind.
    + rewrite (get_own_assigned _ _ _ _ _ Ha) in Hget by (by right). congruence.
    + unfold assign_own in Ha. rewrite Hkind in Ha. rewrite decide_True in Ha by done.
      destruct b; [|done]. injection Ha as <-. done.
  - rewrite (get_own_assigned _ _ _ _ _ Ha) in Hget by (by left). congruence.
Qed.

(** ** The heap *)

Lemma lookup_alloc_old (h : heap) o l : (l < length h)%nat → (h ++ [o]) !! l = h !! l.
Proof. intros. by apply lookup_app_l. Qed.

Lemma lookup_alloc_new (h : heap) o : (h ++ [o]) !! length h = Some o.
Proof. rewrite lookup_app_r by lia. by rewrite Nat.sub_diag. Qed.

Lemma assignValue_inv h nested key v b h' :
  assignValue h nested key v b = Ok h' →
  h' = h ∨ ∃ o o', h !! nested = Some o ∧ assign_own o key v b = Ok o' ∧
                   h' = <[nested := o']> h.
Proof.
  unfold assignValue. destruct (h !! nested) as [o|] eqn:Ho; [|done].
  destruct (decide _); [intros [= <-]; by left|].
  destruct (assign_own o key v b) as [o'|] eqn:Ha; [|done].
  intros [= <-]. right. eauto.
Qed.

Lemma assignValue_length h nested key v b h' :
  assignValue h nested key v b = Ok h' → length h' = length h.
Proof.
  intros [->|(o & o' & _ & _ & ->)]%assignValue_inv; [done|]. by rewrite length_insert.
Qed.

Lemma assignValue_other h nested key v b h' l :
  assignValue h nested key v b = Ok h' → l ≠ nested → h' !! l = h !! l.
Proof.
  intros [->|(o & o' & _ & _ & ->)]%assignValue_inv Hne; [done|].
  by rewrite list_lookup_insert_ne.
Qed.

Lemma object_at_Some o k l : object_at o k = Some l ↔ get_own o k = Some (VRef l).
Proof.
  unfold object_at. destruct (get_own o k) as [[]|]; split; congruence.
Qed.

Lemma object_at_None o k : get_own o k = None → object_at o k = None.
Proof. unfold object_at. by intros ->. Qed.

(** The object the loop goes on with after an assignment is the assigned
    one. *)
Lemma object_under_assigned h nested key v b h' l :
  assignValue h nested key v b = Ok h' → object_under h' nested key = Some l →
  l = v.
Proof.
  unfold assignValue, object_under.
  destruct (h !! nested) as [o|] eqn:Ho; [|done].
  destruct (decide _) as [Hget|_].
  - intros [= <-]. rewrite Ho. unfold object_at. rewrite Hget. congruence.
  - destruct (assign_own o key v b) as [o'|] eqn:Ha; [|done].
    intros [= <-]. rewrite list_lookup_insert_eq by (by eapply lookup_lt_Some).
    intros Hobj%object_at_Some. by eapply get_own_assigned_ref.
Qed.

(** It is the assigned one whenever the key is not the [length] of an
    array. *)
Lemma object_under_new h nested key v b h' o :
  assignValue h nested key v b = Ok h' → h !! nested = Some o →
  key ≠ "length" ∨ okind o = KObject →
  object_under h' nested key = Some v.
Proof.
  unfold assignValue, object_under. intros Ha Ho Hk. rewrite Ho in Ha.
  destruct (decide _) as [Hget|_].
  - injection Ha as <-. rewrite Ho. by apply object_at_Some.
  - destruct (assign_own o key v b) as [o'|] eqn:Hown; [|done].
    injection Ha as <-. rewrite list_lookup_insert_eq by (by eapply lookup_lt_Some).
    apply object_at_Some. by eapply get_own_assigned.
Qed.

(** A round on a number leaves the heap as it is or adds an empty array or
    object. *)
Lemma number_round_cases h path :
  number_round h path = h ∨
  ∃ o, oprops o = [] ∧ number_round h path = h ++ [o].
Proof.
  destruct path as [|k [|next rest]]; unfold number_round, alloc; simpl;
    [by left..|].
  right. destruct (isIndex next); [by exists empty_array|by exists empty_object].
Qed.

(** A step of the loop before the last key. *)
Lemma baseSet_loop_inner h nested key next rest v :
  baseSet_loop h nested (key :: next :: rest) v =
  match h !! nested with
  | None => Throw
  | Some o =>
      match object_at o key with
      | Some l => baseSet_loop h l (next :: rest) v
      | None =>
          match assignValue
                  (h ++ [if isIndex next then empty_array else empty_object])
                  nested key (length h) (isIndex next) with
          | Ok h2 =>
              match object_under h2 nested key with
              | Some l' => baseSet_loop h2 l' (next :: rest) v
              | None => Ok (number_round h2 (next :: rest))
              end
          | Throw => Throw
          end
      end
  end.
Proof. reflexivity. Qed.


(** ** The root object is out of reach of [set] *)

Section root.
Variable m : loc.

Lemma unreferenced_alloc h o :
  (∀ k, (k, VRef m) ∉ oprops o) → unreferenced m h → unreferenced m (h ++ [o]).
Proof.
  intros Ho Hun l o' k Hl Hlook.
  destruct (decide (l < length h)%nat) as [Hlt|Hge].
  - rewrite lookup_app_l in Hlook by done. by eapply Hun.
  - rewrite lookup_app_r in Hlook by lia.
    destruct (l - length h)%nat; [|done]. injection Hlook as <-. apply Ho.
Qed.

Lemma assignValue_unreferenced h nested key v b h' :
  assignValue h nested key v b = Ok h' → v ≠ m →
  unreferenced m h → unreferenced m h'.
Proof.
  intros [->|(o & o' & Ho & Ha & ->)]%assignValue_inv Hv Hun; [done|].
  intros l o1 k Hl Hlook.
  destruct (decide (l = nested)) as [->|Hne].
  - rewrite list_lookup_insert_eq in Hlook by (by eapply lookup_lt_Some).
    injection Hlook as <-.
    intros [[= _ ->]|Hin]%(assign_own_elem _ _ _ _ _ _ Ha); [done|]. by eapply Hun.
  - rewrite list_lookup_insert_ne in Hlook by done. by eapply Hun.
Qed.

Lemma number_round_unreferenced h path :
  unreferenced m h → unreferenced m (number_round h path).
Proof.
  intros Hun. destruct (number_round_cases h path) as [->|(o & Ho & ->)]; [done|].
  apply unreferenced_alloc; [|done]. intros k. rewrite Ho. apply not_elem_of_nil.
Qed.

Lemma number_round_old h path l :
  (l < length h)%nat → number_round h path !! l = h !! l.
Proof.
  intros Hl. destruct (number_round_cases h path) as [->|(o & Ho & ->)]; [done|].
  by apply lookup_app_l.
Qed.

Lemma number_round_length h path : (length h ≤ length (number_round h path))%nat.
Proof.
  destruct (number_round_cases h path) as [->|(o & Ho & ->)]; [done|].
  rewrite length_app. lia.
Qed.

Lemma baseSet_loop_root path : ∀ h nested v h',
  baseSet_loop h nested path v = Ok h' →
  nested ≠ m → (m < length h)%nat → unreferenced m h →
  h' !! m = h !! m ∧ (length h ≤ length h')%nat ∧ (v ≠ m → unreferenced m h').
Proof.
  induction path as [|key rest IH]; intros h nested v h' Hrun Hn Hm Hun.
  - injection Hrun as <-. auto.
  - simpl in Hrun. destruct rest as [|next rest].
    + split; [by eapply assignValue_other|].
      split; [by rewrite (assignValue_length _ _ _ _ _ _ Hrun)|].
      intros Hv. by eapply assignValue_unreferenced.
    + destruct (h !! nested) as [o|] eqn:Ho; [|done].
      destruct (object_at o key) as [l|] eqn:Hobj.
      * apply object_at_Some, get_own_ref_elem in Hobj.
        apply (IH h l v h' Hrun); [|done..].
        intros ->. exact (Hun nested o key Hn Ho Hobj).
      * set (new := if isIndex next then empty_array else empty_object) in Hrun.
        destruct (assignValue (h ++ [new]) nested key (length h) (isIndex next))
          as [h2|] eqn:Ha; [|done].
        assert (unreferenced m (h ++ [new])) as Hun1.
        { apply unreferenced_alloc; [|done]. intros k.
          unfold new. destruct (isIndex next); apply not_elem_of_nil. }
        pose proof (assignValue_length _ _ _ _ _ _ Ha) as Hlen.
        rewrite length_app in Hlen. simpl in Hlen.
        assert (unreferenced m h2) as Hun2.
        { eapply assignValue_unreferenced; eauto. lia. }
        assert (h2 !! m = h !! m) as Hm2.
        { rewrite (assignValue_other _ _ _ _ _ _ _ Ha) by done.
          by apply lookup_app_l. }
        destruct (object_under h2 nested key) as [l'|] eqn:Hunder.
        -- apply (object_under_assigned _ _ _ _ _ _ _ Ha) in Hunder as ->.
           destruct (IH h2 (length h) v h' Hrun) as (H1 & H2 & H3);
             [lia|lia|done|].
           split; [|split; [lia|done]]. by rewrite H1.
        -- assert (h' = number_round h2 (next :: rest)) as ->
             by (by injection Hrun as <-).
           pose proof (number_round_length h2 (next :: rest)).
           split; [by rewrite number_round_old by lia|].
           split; [lia|]. intros _. by apply number_round_unreferenced.
Qed.
End root.

(** ** Enumeration and field objects *)

Lemma elem_of_insert_sorted i p l x :
  x ∈ insert_sorted i p l ↔ x = (i, p) ∨ x ∈ l.
Proof.
  induction l as [|[j q] l IH]; simpl.
  - rewrite list_elem_of_singleton. split; [by left|].
    intros [->|H]; [done|]. by apply elem_of_nil in H.
  - destruct (i <? j); rewrite !elem_of_cons; [done|].
    rewrite IH. tauto.
Qed.

Lemma elem_of_index_props ps i p :
  (i, p) ∈ index_props ps ↔ p ∈ ps ∧ array_index p.1 = Some i.
Proof.
  induction ps as [|[k v] ps IH]; simpl.
  - split; [intros H; by apply elem_of_nil in H|].
    intros [H _]. by apply elem_of_nil in H.
  - destruct (array_index k) as [j|] eqn:Hk.
    + rewrite elem_of_insert_sorted, IH, elem_of_cons. split.
      * intros [[= -> ->]|[? ?]]; [by split; [left|]|by split; [right|]].
      * intros [[->|?] Hi]; [left; simpl in Hi; congruence|by right].
    + rewrite IH, elem_of_cons. split; [intros [? ?]; by split; [right|]|].
      intros [[->|?] Hi]; [simpl in Hi; congruence|done].
Qed.

Lemma elem_of_ordered_props ps p : p ∈ ordered_props ps ↔ p ∈ ps.
Proof.
  unfold ordered_props, named_props.
  rewrite elem_of_app, list_elem_of_fmap, list_elem_of_filter. split.
  - intros [([i q] & -> & Hin)|[_ ?]]; [|done].
    by apply elem_of_index_props in Hin as [? _].
  - intros Hin. destruct (array_index p.1) as [i|] eqn:Hi; [left|by right].
    exists (i, p). split; [done|]. by apply elem_of_index_props.
Qed.

Lemma elem_of_rest_props field p : p ∈ rest_props field → p ∈ field.
Proof.
  unfold rest_props. intros [_ H]%list_elem_of_filter.
  by apply elem_of_ordered_props.
Qed.

Lemma rest_props_not_stripped field p : p ∈ rest_props field → stripped p.1 = false.
Proof. unfold rest_props. by intros [H _]%list_elem_of_filter. Qed.

Lemma elem_of_foldl_put (l init : list (string * value)) p :
  p ∈ foldl (λ ps q, put q.1 q.2 ps) init l → p ∈ init ∨ p ∈ l.
Proof.
  revert init. induction l as [|[k v] l IH]; simpl; intros init H; [by left|].
  destruct (IH _ H) as [[->|?]%elem_of_put|?].
  - right. by apply elem_of_cons; left.
  - by left.
  - right. by apply elem_of_cons; right.
Qed.

Lemma string_chars_values i s k v : (k, v) ∈ string_chars i s → is_ref v = false.
Proof.
  revert i. induction s as [|c s IH]; simpl; intros i H.
  - by apply elem_of_nil in H.
  - apply elem_of_cons in H as [[= _ ->]|H]; [done|]. by eapply IH.
Qed.

(** A reference in a field object comes from the declaration. *)
Lemma field_object_ref h key field k l :
  (k, VRef l) ∈ field_object h key field →
  ∃ d o, field = VRef d ∧ h !! d = Some o ∧ (k, VRef l) ∈ oprops o.
Proof.
  unfold field_object. intros [H|H]%elem_of_foldl_put.
  - by apply list_elem_of_singleton in H.
  - destruct field as [| | | |s|d]; simpl in H;
      try (by apply elem_of_nil in H).
    + by apply string_chars_values in H.
    + destruct (h !! d) as [o|] eqn:Hd; [|by apply elem_of_nil in H].
      exists d, o. by rewrite elem_of_ordered_props in H.
Qed.

Lemma elem_of_fields_of h o field :
  field ∈ fields_of h o →
  ∃ key v, (key, v) ∈ oprops o ∧ field = field_object h key v.
Proof.
  unfold fields_of. intros ([k v0] & -> & Hin)%list_elem_of_fmap.
  rewrite elem_of_ordered_props in Hin. simpl.
  destruct (assoc k (oprops o)) as [v|] eqn:Hv.
  - exists k, v. split; [by apply assoc_Some_elem|done].
  - exfalso. apply assoc_None_keys in Hv. apply Hv.
    apply list_elem_of_fmap. by exists (k, v0).
Qed.

(** ** The root of the result *)

Lemma forEach_fields_root m properties fields : ∀ h h',
  forEach_fields h properties fields = Ok h' →
  properties ≠ m → (m < length h)%nat → unreferenced m h →
  Forall (λ f, ∀ k, (k, VRef m) ∉ f) fields →
  h' !! m = h !! m.
Proof.
  induction fields as [|f fs IH]; intros h h' Hrun Hp Hm Hun Hfs; simpl in Hrun.
  - by injection Hrun as <-.
  - apply Forall_cons in Hfs as [Hf Hfs].
    destruct (place_field h properties f) as [h1|] eqn:Hplace; [|done].
    unfold place_field in Hplace. simpl in Hplace.
    destruct (mapping_path f) as [path|]; [|done].
    unfold set in Hplace.
    destruct ((h ++ [mkObj KObject (rest_props f)]) !! properties) as [o|]; [|done].
    apply (baseSet_loop_root m) in Hplace as (H1 & H2 & H3); [|done|..].
    + rewrite length_app in H2. simpl in H2.
      rewrite (IH h1 h' Hrun), H1; [by apply lookup_app_l|done|lia| |done].
      apply H3. lia.
    + rewrite length_app. lia.
    + apply unreferenced_alloc; [|done]. simpl. intros k Hin.
      apply elem_of_rest_props in Hin. by apply (Hf k).
Qed.

Lemma heap_closedb_spec h : heap_closedb h = true → heap_closed h.
Proof.
  unfold heap_closedb. rewrite forallb_forall. intros Hall l o k l' Hl Hin.
  apply list_elem_of_lookup_2, list_elem_of_In in Hl.
  specialize (Hall o Hl). rewrite forallb_forall in Hall.
  apply list_elem_of_In in Hin. specialize (Hall _ Hin). simpl in Hall.
  by apply bool_decide_eq_true in Hall.
Qed.

(** ** Enumeration is a permutation *)

Lemma insert_sorted_perm i p l : insert_sorted i p l ≡ₚ (i, p) :: l.
Proof.
  induction l as [|[j q] l IH]; simpl; [done|].
  destruct (i <? j); [done|]. rewrite IH. apply perm_swap.
Qed.

Lemma ordered_props_perm ps : ordered_props ps ≡ₚ ps.
Proof.
  unfold ordered_props, named_props.
  induction ps as [|[k v] ps IH]; simpl; [done|].
  destruct (array_index k) as [i|] eqn:Hk.
  - rewrite insert_sorted_perm. simpl.
    rewrite filter_cons_False by (simpl; congruence).
    by rewrite IH.
  - rewrite filter_cons_True by done.
    rewrite <- Permutation_middle. by rewrite IH.
Qed.

Lemma assoc_perm k l1 l2 : NoDup l1.*1 → l1 ≡ₚ l2 → assoc k l1 = assoc k l2.
Proof.
  intros Hnd Hperm.
  assert (NoDup l2.*1) as Hnd2 by (by rewrite <- Hperm).
  destruct (assoc k l1) as [v|] eqn:H1.
  - symmetry. apply assoc_NoDup; [done|].
    rewrite <- Hperm. by apply assoc_Some_elem.
  - symmetry. apply assoc_None_keys. rewrite <- Hperm. by apply assoc_None_keys.
Qed.

Lemma assoc_foldl_put k (l : list (string * value)) : ∀ init,
  NoDup l.*1 →
  assoc k (foldl (λ ps q, put q.1 q.2 ps) init l) =
  match assoc k l with
  | Some v => Some v
  | None => assoc k init
  end.
Proof.
  induction l as [|[k1 v1] l IH]; intros init Hnd; simpl; [done|].
  apply NoDup_cons in Hnd as [Hnot Hnd]. simpl in Hnot. rewrite IH by done.
  destruct (decide (k1 = k)) as [->|Hne].
  - apply assoc_None_keys in Hnot. rewrite Hnot. apply assoc_put_eq.
  - by rewrite assoc_put_ne.
Qed.

Lemma assoc_rest_props_stripped field k :
  stripped k = true → assoc k (rest_props field) = None.
Proof.
  intros Hk. apply assoc_None_keys.
  intros ([k' v] & -> & Hin)%list_elem_of_fmap.
  apply rest_props_not_stripped in Hin. simpl in *. congruence.
Qed.

(** The name of a field object is the declaration's [name] attribute when
    there is one, and the key of the table otherwise. *)
Lemma field_object_name h key d decl :
  h !! d = Some decl → wf_object decl →
  assoc "name" (field_object h key (VRef d)) =
  Some (default (VStr key) (assoc "name" (oprops decl))).
Proof.
  intros Hd Hwf. unfold field_object. simpl. rewrite Hd.
  rewrite assoc_foldl_put by (by rewrite ordered_props_perm).
  rewrite (assoc_perm _ _ (oprops decl)).
  - by destruct (assoc "name" (oprops decl)).
  - by rewrite ordered_props_perm.
  - apply ordered_props_perm.
Qed.

(** ** C9: a table of flat declarations is left alone *)

Section region.
Variable base : loc.

Lemma region_closed_alloc h o :
  (∀ k l, (k, VRef l) ∈ oprops o → (base ≤ l ≤ length h)%nat) →
  region_closed base h → region_closed base (h ++ [o]).
Proof.
  intros Ho Hreg l o' k l' Hl Hlook Hin. rewrite length_app. simpl.
  destruct (decide (l < length h)%nat) as [Hlt|Hge].
  - rewrite lookup_app_l in Hlook by done.
    specialize (Hreg _ _ _ _ Hl Hlook Hin). lia.
  - rewrite lookup_app_r in Hlook by lia.
    destruct (l - length h)%nat; [|done]. injection Hlook as <-.
    specialize (Ho _ _ Hin). lia.
Qed.

Lemma assignValue_region h nested key v b h' :
  assignValue h nested key v b = Ok h' → (base ≤ v < length h)%nat →
  region_closed base h → region_closed base h'.
Proof.
  intros [->|(o & o' & Ho & Ha & ->)]%assignValue_inv Hv Hreg; [done|].
  intros l o1 k l' Hl Hlook Hin. rewrite length_insert.
  destruct (decide (l = nested)) as [->|Hne].
  - rewrite list_lookup_insert_eq in Hlook by (by eapply lookup_lt_Some).
    injection Hlook as <-.
    apply (assign_own_elem _ _ _ _ _ _ Ha) in Hin as [[= _ ->]|Hin]; [done|].
    by eapply Hreg.
  - rewrite list_lookup_insert_ne in Hlook by done. by eapply Hreg.
Qed.

Lemma number_round_region h path :
  region_closed base h → region_closed base (number_round h path).
Proof.
  intros Hreg. destruct (number_round_cases h path) as [->|(o & Ho & ->)]; [done|].
  apply region_closed_alloc; [|done]. intros k l. rewrite Ho.
  intros Hin. by apply elem_of_nil in Hin.
Qed.

Lemma baseSet_loop_region path : ∀ h nested v h',
  baseSet_loop h nested path v = Ok h' →
  (base ≤ nested)%nat → (base ≤ v < length h)%nat →
  region_closed base h →
  (∀ l, (l < base)%nat → h' !! l = h !! l) ∧ region_closed base h' ∧
  (length h ≤ length h')%nat.
Proof.
  induction path as [|key rest IH]; intros h nested v h' Hrun Hn Hv Hreg.
  - injection Hrun as <-. auto.
  - simpl in Hrun. destruct rest as [|next rest].
    + split; [intros l Hl; eapply assignValue_other; [done|lia]|].
      split; [by eapply assignValue_region|].
      by rewrite (assignValue_length _ _ _ _ _ _ Hrun).
    + destruct (h !! nested) as [o|] eqn:Ho; [|done].
      destruct (object_at o key) as [l|] eqn:Hobj.
      * apply object_at_Some, get_own_ref_elem in Hobj.
        apply (IH h l v h' Hrun); [|done..].
        by destruct (Hreg nested o key l Hn Ho Hobj).
      * set (new := if isIndex next then empty_array else empty_object) in Hrun.
        destruct (assignValue (h ++ [new]) nested key (length h) (isIndex next))
          as [h2|] eqn:Ha; [|done].
        assert (region_closed base (h ++ [new])) as Hreg1.
        { apply region_closed_alloc; [|done]. intros k l Hin.
          unfold new in Hin. destruct (isIndex next); by apply elem_of_nil in Hin. }
        pose proof (assignValue_length _ _ _ _ _ _ Ha) as Hlen2.
        rewrite length_app in Hlen2. simpl in Hlen2.
        assert (region_closed base h2) as Hreg2.
        { eapply assignValue_region; [done| |done]. rewrite length_app. simpl. lia. }
        assert (∀ l, (l < base)%nat → h2 !! l = h !! l) as Hold2.
        { intros l Hl. rewrite (assignValue_other _ _ _ _ _ _ _ Ha) by lia.
          apply lookup_app_l. lia. }
        destruct (object_under h2 nested key) as [l'|] eqn:Hunder.
        -- apply (object_under_assigned _ _ _ _ _ _ _ Ha) in Hunder as ->.
           destruct (IH h2 (length h) v h' Hrun) as (H1 & H2 & H3);
             [lia|lia|done|].
           split; [|split; [done|lia]].
           intros l Hl. rewrite H1 by done. by apply Hold2.
        -- assert (h' = number_round h2 (next :: rest)) as ->
             by (by injection Hrun as <-).
           pose proof (number_round_length h2 (next :: rest)).
           split; [|split; [by apply number_round_region|lia]].
           intros l Hl. rewrite number_round_old by lia. by apply Hold2.
Qed.

Lemma forEach_fields_region properties fields : ∀ h h',
  forEach_fields h properties fields = Ok h' →
  (base ≤ properties)%nat → (base ≤ length h)%nat → region_closed base h →
  Forall (λ f, ∀ k v, (k, v) ∈ f → is_ref v = false) fields →
  (∀ l, (l < base)%nat → h' !! l = h !! l) ∧ region_closed base h' ∧
  (length h ≤ length h')%nat.
Proof.
  induction fields as [|f fs IH]; intros h h' Hrun Hp Hlen Hreg Hfs; simpl in Hrun.
  - injection Hrun as <-. auto.
  - apply Forall_cons in Hfs as [Hf Hfs].
    destruct (place_field h properties f) as [h1|] eqn:Hplace; [|done].
    unfold place_field in Hplace. simpl in Hplace.
    destruct (mapping_path f) as [path|]; [|done].
    unfold set in Hplace.
    destruct ((h ++ [mkObj KObject (rest_props f)]) !! properties) as [o|]; [|done].
    apply baseSet_loop_region in Hplace as (H1 & H2 & H3); [|done|..].
    + rewrite length_app in H3. simpl in H3.
      destruct (IH h1 h' Hrun) as (H4 & H5 & H6); [done|lia|done|done|].
      split; [|split; [done|lia]].
      intros l Hl. rewrite H4, H1 by done. apply lookup_app_l. lia.
    + rewrite length_app. simpl. lia.
    + apply region_closed_alloc; [|done]. simpl. intros k l Hin.
      apply elem_of_rest_props in Hin. by apply Hf in Hin.
Qed.
End region.

Lemma fields_of_flat h table :
  flat_declarations h table →
  Forall (λ f, ∀ k v, (k, v) ∈ f → is_ref v = false) (fields_of h table).
Proof.
  intros Hflat. apply Forall_forall. intros f Hf k v Hin.
  apply elem_of_fields_of in Hf as (key & d & Hkey & ->).
  destruct v as [| | | | |l]; try done.
  apply field_object_ref in Hin as (d' & o & -> & Hd & Hin).
  by apply (Hflat _ _ _ _ _ Hkey Hd Hin).
Qed.

(** C9, amended: when no attribute of a declaration of the table is an
    object, a call that returns leaves every object that existed before the
    call as it was: the table still holds the same declarations, with the
    same attributes. *)
Theorem flat_table_unchanged h fieldMap table dynamic h' m :
  h !! fieldMap = Some table → flat_declarations h table →
  mappingFromFieldMap h fieldMap dynamic = Ok (h', m) →
  (∀ l, (l < length h)%nat → h' !! l = h !! l) ∧
  h' !! fieldMap = Some table ∧
  (∀ key d decl, (key, VRef d) ∈ oprops table → h !! d = Some decl →
     h' !! d = Some decl).
Proof.
  intros Htable Hflat Hrun. unfold mappingFromFieldMap in Hrun.
  rewrite Htable in Hrun.
  set (h1 := start_heap h dynamic) in Hrun.
  destruct (forEach_fields h1 (S (length h)) (fields_of h table)) as [h2|] eqn:Hfor;
    [|done].
  injection Hrun as <- <-.
  apply (forEach_fields_region (S (length h))) in Hfor as (H1 & _ & _).
  - assert (∀ l, (l < length h)%nat → h2 !! l = h !! l) as Hsame.
    { intros l Hl. rewrite H1 by lia. unfold h1, start_heap. by apply lookup_app_l. }
    split; [done|]. split.
    + rewrite Hsame; [done|]. by eapply lookup_lt_Some.
    + intros key d decl _ Hd. rewrite Hsame; [done|]. by eapply lookup_lt_Some.
  - lia.
  - unfold h1, start_heap. rewrite length_app. simpl. lia.
  - intros l o k l' Hl Hlook Hin. unfold h1, start_heap in Hlook.
    rewrite lookup_app_r in Hlook by lia.
    destruct (l - length h)%nat as [|[|n]] eqn:Hd; [lia| |done].
    injection Hlook as <-. by apply elem_of_nil in Hin.
  - by apply fields_of_flat.
Qed.

(** ** The invariant of the loop *)

Lemma prefix_snoc_inv {A} (q p : list A) (k : A) :
  q `prefix_of` p ++ [k] → q = p ++ [k] ∨ q `prefix_of` p.
Proof.
  intros [t Ht]. destruct t as [|x t _] using rev_ind.
  - left. by rewrite app_nil_r in Ht.
  - right. rewrite app_assoc in Ht. apply app_inj_tail in Ht as [-> _].
    by exists t.
Qed.

Lemma get_own_object o k : okind o = KObject → get_own o k = assoc k (oprops o).
Proof. intros Hk. unfold get_own. by rewrite Hk. Qed.

Lemma get_own_assign o key c b o' k :
  assign_own o key c b = Ok o' → key ≠ "length" →
  k ≠ "length" ∨ okind o' = KObject →
  get_own o' k = if decide (k = key) then Some (VRef c) else get_own o k.
Proof.
  intros Ha Hkey Hk.
  assert (get_own o' k = assoc k (oprops o') ∧ get_own o k = assoc k (oprops o))
    as [-> ->].
  { destruct Hk as [Hk|Hk]; [by rewrite !get_own_not_length|].
    rewrite (get_own_object o') by done. split; [done|].
    apply get_own_object. unfold assign_own in Ha. destruct (okind o); [done|].
    rewrite decide_False in Ha by done.
    destruct (array_index key); injection Ha as <-; done. }
  rewrite (assign_own_props _ _ _ _ _ Ha) by (by left).
  destruct (decide (k = key)) as [->|Hne].
  - apply assoc_put_eq.
  - by apply assoc_put_ne.
Qed.

Lemma assign_own_kind_or (arrays : Prop) o key c b o' :
  assign_own o key c b = Ok o' →
  okind o = KObject ∨ arrays → okind o' = KObject ∨ arrays.
Proof.
  intros Ha [Hk|?]; [left|by right]. by eapply assign_own_kind.
Qed.

Lemma layout_update_eq G p l : layout_update G p l p = Some l.
Proof. unfold layout_update. by rewrite decide_True. Qed.

Lemma layout_update_ne G p l q : q ≠ p → layout_update G p l q = G q.
Proof. intros. unfold layout_update. by rewrite decide_False. Qed.

Section tree.
Variable arrays : Prop.
Variable root : loc.

Lemma tree_inv_alloc h G leaves paths o :
  tree_inv arrays root h G leaves paths →
  tree_inv arrays root (h ++ [o]) G leaves paths.
Proof.
  intros [Hroot Hdom Hinj Hbound Hnode]. constructor; try done.
  - intros q l Hq. rewrite length_app. specialize (Hbound q l Hq). lia.
  - intros q l Hq Hleaf. destruct (Hnode q l Hq Hleaf) as (o' & Ho' & Hrest).
    exists o'. split; [|done]. rewrite lookup_app_l; [done|]. by eapply Hbound.
Qed.

Lemma tree_inv_descend h G leaves pos paths key :
  tree_inv arrays root h G leaves (pos :: paths) →
  is_Some (G (pos ++ [key])) →
  tree_inv arrays root h G leaves ((pos ++ [key]) :: paths).
Proof.
  intros [Hroot Hdom Hinj Hbound Hnode] Hsome. constructor; try done.
  intros q. rewrite Hdom. split.
  - intros [->|(p & [->|Hp]%elem_of_cons & Hq)]; [by left|right..].
    + exists (pos ++ [key]). split; [by left|]. by apply prefix_app_r.
    + exists p. split; [by right|done].
  - intros [->|(p & [->|Hp]%elem_of_cons & Hq)]; [by left| |].
    + apply prefix_snoc_inv in Hq as [->|Hq].
      * by apply Hdom.
      * right. exists pos. split; [by left|done].
    + right. exists p. split; [by right|done].
Qed.

Lemma tree_inv_unleaf h G leaves paths p :
  tree_inv arrays root h G (p :: leaves) paths →
  (∀ l, G p = Some l →
     ∃ o, h !! l = Some o ∧ (okind o = KObject ∨ arrays) ∧
          ∀ k, k ≠ "length" ∨ okind o = KObject →
               get_own o k = VRef <$> G (p ++ [k])) →
  tree_inv arrays root h G leaves paths.
Proof.
  intros [Hroot Hdom Hinj Hbound Hnode] Hp. constructor; try done.
  intros q l Hq Hleaf. destruct (decide (q = p)) as [->|Hne]; [by apply Hp|].
  apply Hnode; [done|]. by intros [?|?]%elem_of_cons.
Qed.

(** Storing the new location [c] under [key] in the node at [pos]. *)
Lemma tree_inv_link h G leaves pos paths key nested o o' c b :
  tree_inv arrays root h G leaves (pos :: paths) →
  G pos = Some nested → pos ∉ leaves → G (pos ++ [key]) = None →
  key ≠ "length" → h !! nested = Some o → assign_own o key c b = Ok o' →
  (c < length h)%nat → (∀ q, G q ≠ Some c) →
  tree_inv arrays root (<[nested := o']> h) (layout_update G (pos ++ [key]) c)
    ((pos ++ [key]) :: leaves) ((pos ++ [key]) :: paths).
Proof.
  intros [Hroot Hdom Hinj Hbound Hnode] Hpos Hleaf Hnone Hkey Ho Ha Hc Hfresh.
  assert (∀ q, is_Some (G q) → q ≠ pos ++ [key]) as Hold.
  { intros q [l Hq] ->. congruence. }
  constructor.
  - rewrite layout_update_ne; [done|]. by destruct pos.
  - intros q. split.
    + intros Hq. destruct (decide (q = pos ++ [key])) as [->|Hne].
      * right. exists (pos ++ [key]). split; [by left|done].
      * rewrite layout_update_ne in Hq by done.
        apply Hdom in Hq as [->|(p & [->|Hp]%elem_of_cons & Hq)]; [by left|right..].
        -- exists (pos ++ [key]). split; [by left|]. by apply prefix_app_r.
        -- exists p. split; [by right|done].
    + intros Hq. destruct (decide (q = pos ++ [key])) as [->|Hne].
      * by rewrite layout_update_eq.
      * rewrite layout_update_ne by done. apply Hdom.
        destruct Hq as [->|(p & [->|Hp]%elem_of_cons & Hq)]; [by left|right..].
        -- apply prefix_snoc_inv in Hq as [->|Hq]; [done|].
           exists pos. split; [by left|done].
        -- exists p. split; [by right|done].
  - intros q1 q2 l. unfold layout_update.
    destruct (decide (q1 = pos ++ [key])) as [->|H1],
             (decide (q2 = pos ++ [key])) as [->|H2]; try done.
    + intros [= <-] H. by apply Hfresh in H.
    + intros H [= <-]. by apply Hfresh in H.
    + apply Hinj.
  - intros q l. rewrite length_insert. unfold layout_update.
    destruct (decide (q = pos ++ [key])); [by intros [= <-]|apply Hbound].
  - intros q l Hq Hq_leaf.
    apply not_elem_of_cons in Hq_leaf as [Hne Hq_leaf].
    rewrite layout_update_ne in Hq by done.
    destruct (Hnode q l Hq Hq_leaf) as (o1 & Ho1 & Hkind & Hprops).
    destruct (decide (l = nested)) as [->|Hln].
    + assert (q = pos) as -> by (by eapply Hinj).
      exists o'. rewrite list_lookup_insert_eq by (by eapply lookup_lt_Some).
      split; [done|]. rewrite Ho in Ho1. injection Ho1 as <-.
      split; [by eapply assign_own_kind_or|].
      intros k Hk. rewrite (get_own_assign _ _ _ _ _ _ Ha) by done.
      unfold layout_update. destruct (decide (k = key)) as [->|Hkk].
      * by rewrite decide_True.
      * rewrite decide_False.
        -- apply Hprops. destruct Hk as [Hk|Hk]; [by left|right].
           unfold assign_own in Ha. destruct (okind o); [done|].
           rewrite decide_False in Ha by done.
           destruct (array_index key); injection Ha as <-; done.
        -- intros Heq. by apply app_inj_tail in Heq as [_ ?].
    + exists o1. rewrite list_lookup_insert_ne by done.
      split; [done|]. split; [done|].
      intros k Hk. rewrite layout_update_ne; [by apply Hprops|].
      intros Heq. apply app_inj_tail in Heq as [-> _]. congruence.
Qed.
End tree.

Section walk.
Variable arrays : Prop.
Variable root : loc.
Variable leaves : list (list string).
Variable p : list string.
Variable v : loc.
Hypothesis p_independent : Forall (independent p) leaves.
Hypothesis p_no_length : ∀ k, k ∈ p → k ≠ "length".
Hypothesis p_arrays : ∀ k, k ∈ p → isIndex k = true → arrays.

Lemma prefix_not_leaf pos : pos `prefix_of` p → pos ∉ leaves.
Proof.
  intros Hpre Hin. rewrite Forall_forall in p_independent.
  destruct (p_independent _ Hin) as [_ H]. by apply H.
Qed.

Lemma end_not_in_layout h G pos key :
  tree_inv arrays root h G leaves (pos :: leaves) →
  p = pos ++ [key] → G p = None.
Proof.
  intros Hinv ->. apply eq_None_not_Some. intros Hsome.
  apply (ti_dom _ _ _ _ _ _ Hinv) in Hsome
    as [Hnil|(q & [->|Hq]%elem_of_cons & Hpq)].
  - by destruct pos.
  - by apply prefix_snoc_not in Hpq.
  - rewrite Forall_forall in p_independent.
    destruct (p_independent _ Hq) as [H _]. by apply H.
Qed.

(** The loop of [baseSet] from the node at [pos] along the rest of the path
    [p]: it does not throw, it extends the layout down to [p], where the
    leaf [v] ends up, and it writes to the nodes on the way only. *)
Lemma baseSet_loop_tree suffix : ∀ pos h G nested,
  p = pos ++ suffix → suffix ≠ [] →
  tree_inv arrays root h G leaves (pos :: leaves) →
  G pos = Some nested →
  (v < length h)%nat → (∀ q, G q ≠ Some v) →
  ∃ h' G',
    baseSet_loop h nested suffix v = Ok h' ∧
    tree_inv arrays root h' G' (p :: leaves) (p :: leaves) ∧
    G' p = Some v ∧
    (∀ q l, G q = Some l → G' q = Some l) ∧
    (∀ q l, G' q = Some l → G q = Some l ∨ l = v ∨ (length h ≤ l)%nat) ∧
    (length h ≤ length h')%nat ∧
    (∀ l, (l < length h)%nat →
       (∀ q, q `prefix_of` p → q ≠ p → G' q ≠ Some l) → h' !! l = h !! l).
Proof.
  induction suffix as [|key rest IH]; intros pos h G nested Hp Hne Hinv Hpos Hv Hfresh;
    [done|].
  assert (pos ∉ leaves) as Hpos_leaf.
  { apply prefix_not_leaf. rewrite Hp. by apply prefix_app_r. }
  assert (key ≠ "length") as Hkey.
  { apply p_no_length. rewrite Hp. apply elem_of_app. right. by left. }
  destruct (ti_node _ _ _ _ _ _ Hinv pos nested Hpos Hpos_leaf)
    as (o & Ho & Hkind & Hprops).
  destruct rest as [|next rest].
  - (* the last key: the leaf is stored *)
    pose proof (end_not_in_layout _ _ _ _ Hinv Hp) as Hnone.
    destruct (assign_own_not_length o key v false Hkey) as [o' Ha].
    exists (<[nested := o']> h), (layout_update G p v).
    assert (get_own o key = None) as Hget.
    { rewrite Hprops by (by left). rewrite <- Hp. by rewrite Hnone. }
    split.
    { simpl. unfold assignValue. rewrite Ho, Hget.
      rewrite decide_False by done. by rewrite Ha. }
    split.
    { rewrite Hp. eapply tree_inv_link; eauto. by rewrite <- Hp. }
    split; [apply layout_update_eq|].
    split.
    { intros q l Hq. rewrite layout_update_ne; [done|]. intros ->. congruence. }
    split.
    { intros q l. unfold layout_update. destruct (decide (q = p)).
      - intros [= <-]. right. by left.
      - by left. }
    split; [by rewrite length_insert|].
    intros l Hl Hnot. apply list_lookup_insert_ne. intros <-.
    apply (Hnot pos).
    + rewrite Hp. by apply prefix_app_r.
    + rewrite Hp. intros Heq. apply (f_equal length) in Heq.
      rewrite length_app in Heq. simpl in Heq. lia.
    + rewrite layout_update_ne; [done|]. intros ->. congruence.
  - (* an inner key *)
    assert (p = (pos ++ [key]) ++ next :: rest) as Hp'.
    { by rewrite <- app_assoc. }
    destruct (G (pos ++ [key])) as [l|] eqn:Hchild.
    + (* the node exists and is entered *)
      assert (object_at o key = Some l) as Hobj.
      { apply object_at_Some. rewrite Hprops by (by left). by rewrite Hchild. }
      destruct (IH (pos ++ [key]) h G l Hp') as (h' & G' & Hrun & Hrest);
        [done| |done|done|done|].
      { apply tree_inv_descend; [done|]. by rewrite Hchild. }
      exists h', G'. split; [|done].
      simpl. by rewrite Ho, Hobj.
    + (* a new node is made *)
      assert (object_at o key = None) as Hobj.
      { apply object_at_None. rewrite Hprops by (by left). by rewrite Hchild. }
      set (new := if isIndex next then empty_array else empty_object).
      destruct (assign_own_not_length o key (length h) (isIndex next) Hkey)
        as [o' Ha].
      set (h2 := <[nested := o']> (h ++ [new])).
      set (G2 := layout_update G (pos ++ [key]) (length h)).
      pose proof (ti_bound _ _ _ _ _ _ Hinv) as Hbound.
      assert ((h ++ [new]) !! nested = Some o) as Ho1.
      { rewrite lookup_app_l; [done|]. by eapply Hbound. }
      assert (tree_inv arrays root h2 G2 leaves ((pos ++ [key]) :: leaves)) as Hinv2.
      { apply tree_inv_unleaf with (p := pos ++ [key]).
        - eapply tree_inv_link; eauto.
          + by apply tree_inv_alloc.
          + rewrite length_app. simpl. lia.
          + intros q Hq. apply Hbound in Hq. lia.
        - intros l0. unfold G2. rewrite layout_update_eq. intros [= <-].
          exists new. split.
          { unfold h2. rewrite list_lookup_insert_ne.
            - apply lookup_alloc_new.
            - apply Hbound in Hpos. lia. }
          split.
          { unfold new. destruct (isIndex next) eqn:Hidx; [right|by left].
            apply (p_arrays next); [|done]. rewrite Hp.
            apply elem_of_app. right. apply elem_of_cons. right. by left. }
          intros k Hk.
          assert (get_own new k = None) as ->.
          { unfold new in *. destruct (isIndex next).
            - destruct Hk as [Hk|Hk]; [|done]. by rewrite get_own_not_length.
            - done. }
          rewrite layout_update_ne.
          2:{ intros Heq. apply (f_equal length) in Heq.
              rewrite !length_app in Heq. simpl in Heq. lia. }
          assert (G ((pos ++ [key]) ++ [k]) = None) as ->.
          { apply eq_None_not_Some. intros Hsome.
            apply (ti_dom _ _ _ _ _ _ Hinv) in Hsome
              as [Hnil|(q & [->|Hq]%elem_of_cons & Hpq)].
            - by destruct pos.
            - rewrite <- app_assoc in Hpq. apply prefix_length in Hpq.
              rewrite length_app in Hpq. simpl in Hpq. lia.
            - assert (is_Some (G (pos ++ [key]))) as [? ?]; [|congruence].
              apply (ti_dom _ _ _ _ _ _ Hinv). right. exists q.
              split; [by right|]. by eapply prefix_app_l. }
          done. }
      destruct (IH (pos ++ [key]) h2 G2 (length h) Hp') as
        (h' & G' & Hrun & Hinv' & Hleaf & Hext & Hrange & Hlen & Hframe);
        [done|done|..].
      { unfold G2. apply layout_update_eq. }
      { unfold h2. rewrite length_insert, length_app. simpl. lia. }
      { intros q. unfold G2, layout_update.
        destruct (decide (q = pos ++ [key])); [intros [= ?]; lia|apply Hfresh]. }
      assert (length h2 = S (length h)) as Hlen2.
      { unfold h2. rewrite length_insert, length_app. simpl. lia. }
      exists h', G'. split.
      { assert (assignValue (h ++ [new]) nested key (length h) (isIndex next)
                = Ok h2) as Hassign.
        { unfold assignValue. rewrite Ho1. rewrite decide_False.
          - by rewrite Ha.
          - rewrite Hprops by (by left). by rewrite Hchild. }
        rewrite baseSet_loop_inner, Ho, Hobj. fold new. rewrite Hassign.
        by rewrite (object_under_new _ _ _ _ _ _ _ Hassign Ho1) by (by left). }
      split; [done|]. split; [done|]. split.
      { intros q l Hq. apply Hext. unfold G2. rewrite layout_update_ne; [done|].
        intros ->. congruence. }
      split.
      { intros q l Hq. destruct (Hrange q l Hq) as [H2|[->|Hge]].
        - unfold G2, layout_update in H2.
          destruct (decide (q = pos ++ [key])); [|by left].
          injection H2 as <-. right. by right.
        - right. by left.
        - right. right. lia. }
      split; [lia|].
      intros l Hl Hnot. rewrite Hframe by (done || lia).
      unfold h2. rewrite list_lookup_insert_ne.
      * by apply lookup_app_l.
      * intros <-. apply (Hnot pos).
        -- rewrite Hp. by apply prefix_app_r.
        -- rewrite Hp. intros Heq. apply (f_equal length) in Heq.
           rewrite length_app in Heq. simpl in Heq. lia.
        -- apply Hext. unfold G2. rewrite layout_update_ne; [done|].
           intros Heq. apply (f_equal length) in Heq.
           rewrite length_app in Heq. simpl in Heq. lia.
Qed.
End walk.

(** ** Names and paths *)

Lemma split_dot_dot_free s : Forall (λ x, dot_free x = true) (split_dot s).
Proof.
  induction s as [|c s IH]; simpl; [by constructor|].
  destruct (decide (c = "."%char)) as [->|Hc]; [by constructor|].
  destruct (split_dot s) as [|x xs]; [by constructor; [simpl; rewrite bool_decide_false|]|].
  apply Forall_cons in IH as [Hx Hxs]. constructor; [|done].
  simpl. by rewrite bool_decide_false.
Qed.

Lemma split_dot_not_nil s : split_dot s ≠ [].
Proof.
  destruct s as [|c s]; simpl; [done|].
  destruct (decide (c = "."%char)); [done|]. by destruct (split_dot s).
Qed.

Lemma split_dot_single s : dot_free s = true → split_dot s = [s].
Proof.
  induction s as [|c s IH]; simpl; [done|].
  intros [Hc Hs]%andb_prop. apply negb_true_iff, bool_decide_eq_false in Hc.
  rewrite decide_False by done. by rewrite IH.
Qed.

Lemma split_dot_app a s :
  dot_free a = true → split_dot (a +:+ String "." s) = a :: split_dot s.
Proof.
  induction a as [|c a IH]; simpl; [done|].
  intros [Hc Ha]%andb_prop. apply negb_true_iff, bool_decide_eq_false in Hc.
  rewrite decide_False by done. by rewrite IH.
Qed.

Lemma split_dot_join segs :
  segs ≠ [] → Forall (λ x, dot_free x = true) segs →
  split_dot (join ".properties." segs) = interleave segs.
Proof.
  induction segs as [|x segs IH]; [done|]. intros _ [Hx Hsegs]%Forall_cons.
  destruct segs as [|y segs]; [by apply split_dot_single|].
  change (join ".properties." (x :: y :: segs))
    with (x +:+ String "." ("properties" +:+ String "." (join ".properties." (y :: segs)))).
  rewrite split_dot_app by done.
  rewrite (split_dot_app "properties") by done.
  by rewrite IH.
Qed.

Lemma bracket_free_app a b :
  bracket_free (a +:+ b) = bracket_free a && bracket_free b.
Proof.
  induction a as [|c a IH]; simpl; [done|]. by rewrite IH, andb_assoc.
Qed.

Lemma split_dot_bracket_free s :
  bracket_free s = true → Forall (λ x, bracket_free x = true) (split_dot s).
Proof.
  induction s as [|c s IH]; simpl; [by constructor|].
  intros [Hc Hs]%andb_prop. specialize (IH Hs).
  destruct (decide (c = "."%char)); [by constructor|].
  destruct (split_dot s) as [|x xs]; [constructor; [simpl; by rewrite Hc|done]|].
  apply Forall_cons in IH as [Hx Hxs]. constructor; [|done].
  simpl. by rewrite Hc, Hx.
Qed.

Lemma join_bracket_free segs :
  Forall (λ x, bracket_free x = true) segs →
  bracket_free (join ".properties." segs) = true.
Proof.
  induction segs as [|x segs IH]; [done|]. intros [Hx Hsegs]%Forall_cons.
  destruct segs as [|y segs]; [done|].
  change (join ".properties." (x :: y :: segs))
    with (x +:+ ".properties." +:+ join ".properties." (y :: segs)).
  rewrite !bracket_free_app, Hx, (IH Hsegs). done.
Qed.

(** Without brackets, the matches of [rePropName] are the segments between
    the dots; an empty segment comes from the empty match. *)
Lemma prop_names_split s :
  bracket_free s = true →
  (if separator_follows s then [EmptyString] else []) ++ prop_names 0 s = split_dot s.
Proof.
  induction s as [|c s IH]; [done|].
  intros [Hc Hs]%andb_prop. specialize (IH Hs).
  apply negb_true_iff, orb_false_iff in Hc as [Hc1 Hc2].
  apply bool_decide_eq_false in Hc1, Hc2.
  cbn [separator_follows prop_names split_dot].
  destruct (decide (c = "."%char)) as [->|Hdot].
  - rewrite bool_decide_true by done. simpl.
    f_equal. rewrite <- IH. by destruct (separator_follows s).
  - rewrite bool_decide_false by done.
    rewrite (bool_decide_false (c = "["%char)) by done. cbn [orb andb app].
    rewrite !decide_False by done.
    destruct s as [|d s]; [done|].
    destruct (is_special d) eqn:Hd.
    + assert (d = "."%char) as ->.
      { simpl in Hs. apply andb_prop in Hs as [Hd' _].
        apply negb_true_iff, orb_false_iff in Hd' as [Hd1 Hd2].
        unfold is_special in Hd. rewrite Hd1, Hd2 in Hd.
        rewrite !orb_false_r in Hd. by apply bool_decide_eq_true in Hd. }
      rewrite <- IH.
      cbn [separator_follows]. rewrite bool_decide_true by done. done.
    + assert (separator_follows (String d s) = false) as Hsep.
      { unfold is_special in Hd. apply orb_false_iff in Hd as [Hd _].
        apply orb_false_iff in Hd as [Hd1 Hd2].
        cbn [separator_follows]. by rewrite Hd1, Hd2. }
      rewrite Hsep in IH. cbn [app] in IH. rewrite IH.
      by destruct (split_dot (String d s)).
Qed.

Lemma stringToPath_split s :
  bracket_free s = true → s ≠ EmptyString → stringToPath s = split_dot s.
Proof.
  intros Hs Hne. rewrite <- prop_names_split by done. unfold stringToPath.
  destruct s as [|c s]; [done|]. f_equal.
  simpl in Hs. apply andb_prop in Hs as [Hc _].
  apply negb_true_iff, orb_false_iff in Hc as [Hc1 Hc2].
  cbn [starts_with separator_follows]. rewrite Hc1. by rewrite orb_false_r.
Qed.

Lemma is_plain_dot_free s : is_plain s = true → dot_free s = true.
Proof.
  induction s as [|c s IH]; simpl; [done|]. intros [Hc Hs]%andb_prop.
  rewrite (IH Hs), andb_true_r. apply negb_true_iff, bool_decide_eq_false.
  intros ->. done.
Qed.

Lemma not_deep_dot_free s : is_deep s = false → dot_free s = true.
Proof.
  induction s as [|c s IH]; simpl; [done|]. intros [Hc Hs]%orb_false_iff.
  apply orb_false_iff in Hc as [Hc _]. by rewrite Hc, (IH Hs).
Qed.

(** The path of [set] for a name without brackets, in an object whose keys
    have no dot: the segments of the name with [properties] in between. *)
Lemma castPath_field_path o name :
  bracket_free name = true →
  (∀ s, is_Some (get_own o s) → dot_free s = true) →
  castPath (join ".properties." (split_dot name)) o = field_path name.
Proof.
  intros Hname Hkeys. unfold field_path, castPath.
  rewrite <- (split_dot_join (split_dot name))
    by (apply split_dot_not_nil || apply split_dot_dot_free).
  set (t := join ".properties." (split_dot name)).
  assert (bracket_free t = true) as Ht.
  { by apply join_bracket_free, split_dot_bracket_free. }
  destruct (isKey t o) eqn:Hkey.
  - symmetry. apply split_dot_single. unfold isKey in Hkey.
    apply orb_prop in Hkey as [Hkey|Hkey]; [apply orb_prop in Hkey as [Hkey|Hkey]|].
    + by apply is_plain_dot_free.
    + apply not_deep_dot_free. by apply negb_true_iff.
    + apply Hkeys. by apply bool_decide_eq_true in Hkey.
  - apply stringToPath_split; [done|]. intros Heq. by rewrite Heq in Hkey.
Qed.

(** ** Paths of names *)

Lemma elem_of_interleave segs k : k ∈ interleave segs → k ∈ segs ∨ k = "properties".
Proof.
  induction segs as [|s segs IH]; simpl; [by left|].
  destruct segs as [|s' segs].
  - by left.
  - intros [->|[->|H]%elem_of_cons]%elem_of_cons.
    + left. by left.
    + by right.
    + destruct (IH H) as [?|?]; [left; by right|by right].
Qed.

Lemma interleave_not_nil segs : segs ≠ [] → interleave segs ≠ [].
Proof. destruct segs as [|s [|s' segs]]; done. Qed.

Lemma field_path_not_nil name : field_path name ≠ [].
Proof. apply interleave_not_nil, split_dot_not_nil. Qed.

Lemma field_path_dot_free name k : k ∈ field_path name → dot_free k = true.
Proof.
  intros [Hk| ->]%elem_of_interleave; [|done].
  pose proof (split_dot_dot_free name) as Hall.
  rewrite Forall_forall in Hall. by apply Hall.
Qed.

Lemma interleave_prefix x : ∀ y,
  interleave x `prefix_of` interleave y → x `prefix_of` y.
Proof.
  induction x as [|s x IH]; intros y Hpre; [apply prefix_nil|].
  destruct y as [|t y].
  { simpl in Hpre. destruct x; by apply prefix_nil_not in Hpre. }
  assert (s = t) as ->.
  { simpl in Hpre. destruct x, y; by apply prefix_cons_inv_1 in Hpre. }
  apply prefix_cons. destruct x as [|s' x]; [apply prefix_nil|].
  apply IH. destruct y as [|t' y].
  - simpl in Hpre. apply prefix_cons_inv_2 in Hpre. by apply prefix_nil_not in Hpre.
  - change (interleave (t :: s' :: x)) with (t :: "properties" :: interleave (s' :: x))
      in Hpre.
    change (interleave (t :: t' :: y)) with (t :: "properties" :: interleave (t' :: y))
      in Hpre.
    by do 2 apply prefix_cons_inv_2 in Hpre.
Qed.

Lemma independent_field_path a b :
  independent (split_dot a) (split_dot b) → independent (field_path a) (field_path b).
Proof.
  intros [H1 H2]. split; intros H; [apply H1|apply H2]; by apply interleave_prefix.
Qed.

Lemma independent_sym p q : independent p q → independent q p.
Proof. intros [? ?]. by split. Qed.

Lemma pairwise_independent_fmap names :
  pairwise_independent (split_dot <$> names) →
  pairwise_independent (field_path <$> names).
Proof.
  induction names as [|n names IH]; simpl; [done|]. intros [Hall Hrest].
  split; [|by apply IH].
  rewrite Forall_fmap in Hall. rewrite Forall_fmap.
  eapply Forall_impl; [exact Hall|]. intros b Hb. by apply independent_field_path.
Qed.

Lemma pairwise_independent_perm L1 L2 :
  L1 ≡ₚ L2 → pairwise_independent L1 → pairwise_independent L2.
Proof.
  induction 1 as [|x l1 l2 Hperm IH|x y l|l1 l2 l3 H12 IH12 H23 IH23]; simpl.
  - done.
  - intros [Hall Hrest]. split; [by rewrite <- Hperm|by apply IH].
  - intros [[Hyx Hy]%Forall_cons [Hx Hrest]]. split; [|by split].
    constructor; [by apply independent_sym|done].
  - intros. by apply IH23, IH12.
Qed.

(** ** The loop builds the tree *)

Section build.
Variable arrays : Prop.
Variable root : loc.

Lemma tree_inv_start h G leaves :
  tree_inv arrays root h G leaves leaves →
  tree_inv arrays root h G leaves ([] :: leaves).
Proof.
  intros [Hroot Hdom Hinj Hbound Hnode]. constructor; try done.
  intros q. rewrite Hdom. split.
  - intros [->|(p & Hp & Hq)]; [by left|right]. exists p. split; [by right|done].
  - intros [->|(p & [->|Hp]%elem_of_cons & Hq)]; [by left| |].
    + left. by apply prefix_nil_inv.
    + right. by exists p.
Qed.

Lemma root_keys_dot_free h G leaves o :
  tree_inv arrays root h G leaves leaves → [] ∉ leaves →
  (∀ q k, q ∈ leaves → k ∈ q → dot_free k = true) →
  h !! root = Some o →
  ∀ s, is_Some (get_own o s) → dot_free s = true.
Proof.
  intros Hinv Hnil Hkeys Ho s Hs.
  destruct (ti_node _ _ _ _ _ _ Hinv [] root (ti_root _ _ _ _ _ _ Hinv) Hnil)
    as (o' & Ho' & _ & Hprops).
  rewrite Ho in Ho'. injection Ho' as <-.
  destruct (decide (s = "length")) as [->|Hne]; [done|].
  rewrite Hprops in Hs by (by left). apply fmap_is_Some in Hs. simpl in Hs.
  apply (ti_dom _ _ _ _ _ _ Hinv) in Hs as [Hs|(q & Hq & Hpre)]; [done|].
  apply (Hkeys q s Hq). destruct Hpre as [t ->]. by left.
Qed.

(** One round of the loop, for a field whose name has no brackets and no
    segment called [length], and whose path is independent of the paths
    placed so far. *)
Lemma place_field_tree h G done field name :
  tree_inv arrays root h G (leaf_paths done) (leaf_paths done) →
  Forall (placed h G) done →
  (∀ q l, G q = Some l → (root ≤ l)%nat) →
  field_name field = Some name →
  bracket_free name = true → "length" ∉ split_dot name →
  (∀ s, s ∈ split_dot name → isIndex s = true → arrays) →
  Forall (independent (field_path name)) (leaf_paths done) →
  ∃ h' G',
    place_field h root field = Ok h' ∧
    tree_inv arrays root h' G' (leaf_paths ((field, name) :: done))
      (leaf_paths ((field, name) :: done)) ∧
    Forall (placed h' G') ((field, name) :: done) ∧
    (∀ q l, G q = Some l → G' q = Some l) ∧
    (∀ q l, G' q = Some l → (root ≤ l)%nat) ∧
    (length h ≤ length h')%nat ∧
    (∀ l, (l < length h)%nat → (∀ q, G' q ≠ Some l) → h' !! l = h !! l).
Proof.
  intros Hinv Hplaced Hrange Hname Hbr Hlen Harr Hind.
  set (L := leaf_paths done) in *.
  set (p := field_path name) in *.
  assert ([] ∉ L) as Hnil.
  { intros Hin. rewrite Forall_forall in Hind.
    destruct (Hind _ Hin) as [_ H]. apply H, prefix_nil. }
  assert (mapping_path field = Ok (join ".properties." (split_dot name))) as Hpath.
  { unfold mapping_path. unfold field_name in Hname.
    destruct (assoc "name" field) as [[]|]; try done. by injection Hname as ->. }
  pose proof (ti_root _ _ _ _ _ _ Hinv) as Hroot.
  pose proof (ti_bound _ _ _ _ _ _ Hinv [] root Hroot) as Hroot_lt.
  destruct (ti_node _ _ _ _ _ _ Hinv [] root Hroot Hnil) as (o & Ho & _ & _).
  set (rest := mkObj KObject (rest_props field)).
  assert (castPath (join ".properties." (split_dot name)) o = p) as Hcast.
  { apply castPath_field_path; [done|].
    eapply root_keys_dot_free; [exact Hinv|done| |done].
    intros q k Hq Hk. unfold L, leaf_paths in Hq.
    apply list_elem_of_fmap in Hq as (n & -> & _). by eapply field_path_dot_free. }
  destruct (baseSet_loop_tree arrays root L p (length h)) with
    (suffix := p) (pos := @nil string) (h := h ++ [rest]) (G := G) (nested := root)
    as (h' & G' & Hrun & Hinv' & Hleaf & Hext & Hrange' & Hlen' & Hframe).
  - done.
  - intros k [Hk| ->]%elem_of_interleave; [|done]. intros ->. done.
  - intros k [Hk| ->]%elem_of_interleave; [by apply Harr|done].
  - done.
  - apply field_path_not_nil.
  - by apply tree_inv_start, tree_inv_alloc.
  - done.
  - rewrite length_app. simpl. lia.
  - intros q Hq. apply (ti_bound _ _ _ _ _ _ Hinv) in Hq. lia.
  - rewrite length_app in Hlen', Hframe. simpl in Hlen', Hframe.
    pose proof (ti_inj _ _ _ _ _ _ Hinv') as Hinj'.
    exists h', G'. split.
    { unfold place_field. simpl. rewrite Hpath. unfold set. fold rest.
      rewrite lookup_app_l by done. rewrite Ho, Hcast. exact Hrun. }
    split; [done|]. split.
    { constructor.
      - exists (length h). split; [done|]. simpl.
        rewrite Hframe.
        + apply lookup_alloc_new.
        + lia.
        + intros q _ Hne Hq. apply Hne. by eapply Hinj'.
      - rewrite Forall_forall in Hplaced |- *. intros [f n] Hfn.
        destruct (Hplaced _ Hfn) as (r & Hr & Hobj). simpl in *.
        exists r. split; [by apply Hext|].
        pose proof (ti_bound _ _ _ _ _ _ Hinv _ _ Hr) as Hr_lt.
        rewrite Hframe.
        + by rewrite lookup_app_l.
        + lia.
        + intros q Hpre _ Hq.
          assert (q = field_path n) as -> by (eapply Hinj'; [done|by apply Hext]).
          rewrite Forall_forall in Hind.
          destruct (Hind (field_path n)) as [_ H]; [|by apply H].
          unfold L, leaf_paths. apply list_elem_of_fmap. exists n. split; [done|].
          apply list_elem_of_fmap. by exists (f, n). }
    split; [done|]. split.
    { intros q l Hq. destruct (Hrange' q l Hq) as [H|[->|H]]; [by eapply Hrange|lia|].
      rewrite length_app in H. simpl in H. lia. }
    split; [lia|].
    intros l Hl Hnot. rewrite Hframe.
    + by apply lookup_app_l.
    + lia.
    + intros q _ _. apply Hnot.
Qed.

Lemma forEach_fields_tree fields : ∀ names h G done,
  tree_inv arrays root h G (leaf_paths done) (leaf_paths done) →
  Forall (placed h G) done →
  (∀ q l, G q = Some l → (root ≤ l)%nat) →
  fields_named fields names →
  Forall (λ n, bracket_free n = true ∧ ("length" ∉ split_dot n) ∧
               (∀ s, s ∈ split_dot n → isIndex s = true → arrays)) names →
  pairwise_independent ((field_path <$> names) ++ leaf_paths done) →
  ∃ h' G',
    forEach_fields h root fields = Ok h' ∧
    tree_inv arrays root h' G' (leaf_paths (rev (zip fields names) ++ done))
      (leaf_paths (rev (zip fields names) ++ done)) ∧
    Forall (placed h' G') (rev (zip fields names) ++ done) ∧
    (∀ q l, G q = Some l → G' q = Some l) ∧
    (∀ q l, G' q = Some l → (root ≤ l)%nat) ∧
    (length h ≤ length h')%nat ∧
    (∀ l, (l < length h)%nat → (∀ q, G' q ≠ Some l) → h' !! l = h !! l).
Proof.
  induction fields as [|f fs IH]; intros names h G done Hinv Hplaced Hrange Hnamed Hok Hind.
  - apply Forall2_nil_inv_l in Hnamed as ->. exists h, G. simpl. auto 10.
  - apply Forall2_cons_inv_l in Hnamed as (n & names' & Hn & Hnamed & ->).
    apply Forall_cons in Hok as [(Hbr & Hlen & Harr) Hok].
    rewrite fmap_cons in Hind. simpl in Hind. destruct Hind as [Hind1 Hind].
    destruct (place_field_tree h G done f n) as
      (h1 & G1 & Hrun1 & Hinv1 & Hplaced1 & Hext1 & Hrange1 & Hlen1 & Hframe1);
      [done..| |].
    { rewrite Forall_app in Hind1. by destruct Hind1. }
    destruct (IH names' h1 G1 ((f, n) :: done)) as
      (h' & G' & Hrun & Hinv' & Hplaced' & Hext' & Hrange' & Hlen' & Hframe');
      [done..| |].
    { apply (pairwise_independent_perm
               (field_path n :: (field_path <$> names') ++ leaf_paths done));
        [|by split].
      unfold leaf_paths. simpl. apply Permutation_middle. }
    exists h', G'. split; [simpl; by rewrite Hrun1|].
    assert (rev (zip (f :: fs) (n :: names')) ++ done
            = rev (zip fs names') ++ (f, n) :: done) as ->.
    { simpl. by rewrite <- app_assoc. }
    split; [done|]. split; [done|]. split; [auto|]. split; [done|]. split; [lia|].
    intros l Hl Hnot. rewrite Hframe' by (done || lia).
    apply Hframe1; [done|]. intros q Hq. by apply (Hnot q), Hext'.
Qed.
End build.

(** ** The tree the builder returns *)

Lemma tree_inv_equiv arrays root h G L1 L2 :
  (∀ x, x ∈ L1 ↔ x ∈ L2) →
  tree_inv arrays root h G L1 L1 → tree_inv arrays root h G L2 L2.
Proof.
  intros Heq [Hroot Hdom Hinj Hbound Hnode]. constructor; try done.
  - intros q. rewrite Hdom. split.
    + intros [->|(p & Hp & Hq)]; [by left|right]. exists p. by rewrite <- Heq.
    + intros [->|(p & Hp & Hq)]; [by left|right]. exists p. by rewrite Heq.
  - intros q l Hq Hleaf. apply Hnode; [done|]. by rewrite Heq.
Qed.

Lemma tree_inv_init arrays h dynamic :
  tree_inv arrays (S (length h)) (start_heap h dynamic)
    (layout_update (λ _, None) [] (S (length h))) [] [].
Proof.
  constructor.
  - apply layout_update_eq.
  - intros q. unfold layout_update. destruct (decide (q = [])) as [->|Hne].
    + split; [by left|eauto].
    + split; [by intros [? ?]|]. intros [?|(p & Hp & _)]; [done|].
      by apply elem_of_nil in Hp.
  - intros q1 q2 l. unfold layout_update.
    destruct (decide (q1 = [])), (decide (q2 = [])); congruence.
  - intros q l. unfold layout_update, start_heap. rewrite length_app. simpl.
    destruct (decide (q = [])); [|done]. intros [= <-]. lia.
  - intros q l. unfold layout_update.
    destruct (decide (q = [])) as [->|Hne]; [|done]. intros [= <-] _.
    exists empty_object. split.
    + unfold start_heap. rewrite lookup_app_r by lia.
      by replace (S (length h) - length h)%nat with 1%nat by lia.
    + split; [by left|]. intros k _. unfold layout_update.
      by rewrite decide_False.
Qed.

Section builder.
Variable arrays : Prop.

(** The builder on a table with plain, pairwise independent names: it
    returns, the result is laid out as a tree with one leaf for each field,
    and nothing outside of that tree has changed. *)
Lemma builder_tree h fieldMap table dynamic names :
  h !! fieldMap = Some table →
  table_names h table = Some names →
  Forall (name_ok arrays) names →
  pairwise_independent (split_dot <$> names) →
  ∃ h' G,
    mappingFromFieldMap h fieldMap dynamic = Ok (h', length h) ∧
    tree_inv arrays (S (length h)) h' G
      (leaf_paths (zip (fields_of h table) names))
      (leaf_paths (zip (fields_of h table) names)) ∧
    Forall (placed h' G) (zip (fields_of h table) names) ∧
    (∀ q l, G q = Some l → (S (length h) ≤ l)%nat) ∧
    (length h + 2 ≤ length h')%nat ∧
    (∀ l, (l ≤ length h)%nat → h' !! l = start_heap h dynamic !! l).
Proof.
  intros Htable Hnames Hok Hind.
  apply mapM_Some in Hnames.
  destruct (forEach_fields_tree arrays (S (length h)) (fields_of h table) names
              (start_heap h dynamic) (layout_update (λ _, None) [] (S (length h))) [])
    as (h' & G & Hrun & Hinv & Hplaced & _ & Hrange & Hlen & Hframe).
  - apply tree_inv_init.
  - constructor.
  - intros q l. unfold layout_update. destruct (decide (q = [])); [|done].
    by intros [= <-].
  - exact Hnames.
  - exact Hok.
  - unfold leaf_paths. simpl. rewrite app_nil_r. by apply pairwise_independent_fmap.
  - rewrite app_nil_r in Hinv, Hplaced.
    exists h', G. split.
    { unfold mappingFromFieldMap. by rewrite Htable, Hrun. }
    split.
    { eapply tree_inv_equiv; [|exact Hinv]. intros x. unfold leaf_paths.
      rewrite !list_elem_of_fmap. split; intros (n & -> & Hn); exists n; split;
        try done; rewrite !list_elem_of_fmap in *;
        destruct Hn as (fn & -> & Hfn); exists fn; split; try done;
        rewrite !list_elem_of_In in *; by apply in_rev in Hfn. }
    split.
    { rewrite Forall_forall in Hplaced |- *. intros fn Hfn. apply Hplaced.
      rewrite list_elem_of_In in *. by apply in_rev in Hfn. }
    split; [done|].
    split.
    { unfold start_heap in Hlen. rewrite length_app in Hlen. simpl in Hlen. lia. }
    intros l Hl. apply Hframe.
    + unfold start_heap. rewrite length_app. simpl. lia.
    + intros q Hq. apply Hrange in Hq. lia.
Qed.
End builder.

(** ** Reading the tree *)

Lemma lookup_path_app h q1 : ∀ v q2,
  lookup_path h v (q1 ++ q2) = lookup_path h v q1 ≫= λ v', lookup_path h v' q2.
Proof.
  induction q1 as [|k q1 IH]; intros v q2; simpl; [done|].
  destruct v as [| | | | |l]; try done.
  destruct (h !! l) as [o|]; [|done].
  destruct (get_own o k) as [v'|]; [|done]. apply IH.
Qed.

Lemma pairwise_independent_elem L p q :
  pairwise_independent L → p ∈ L → q ∈ L → p ≠ q → independent p q.
Proof.
  induction L as [|x L IH]; simpl; [by intros _ ?%elem_of_nil|].
  intros [Hall Hrest] Hp Hq Hne. rewrite Forall_forall in Hall.
  apply elem_of_cons in Hp as [->|Hp]; apply elem_of_cons in Hq as [->|Hq].
  - done.
  - by apply Hall.
  - by apply independent_sym, Hall.
  - by apply IH.
Qed.

Lemma tree_lookup arrays root h G leaves q : ∀ l,
  tree_inv arrays root h G leaves leaves →
  G q = Some l →
  (∀ q', q' `prefix_of` q → q' ≠ q → q' ∉ leaves) →
  (∀ k, k ∈ q → k ≠ "length") →
  lookup_path h (VRef root) q = Some (VRef l).
Proof.
  induction q as [|k q IH] using rev_ind; intros l Hinv Hq Hpre Hkeys.
  - rewrite (ti_root _ _ _ _ _ _ Hinv) in Hq. by injection Hq as <-.
  - assert (is_Some (G q)) as [l' Hl'].
    { apply (ti_dom _ _ _ _ _ _ Hinv).
      assert (is_Some (G (q ++ [k]))) as Hsome by eauto.
      apply (ti_dom _ _ _ _ _ _ Hinv) in Hsome as [Hnil|(p & Hp & Hqp)].
      - by destruct q.
      - right. exists p. split; [done|]. by eapply prefix_app_l. }
    assert (q ∉ leaves) as Hleaf.
    { apply Hpre; [by apply prefix_app_r|].
      intros Heq. apply (f_equal length) in Heq. rewrite length_app in Heq.
      simpl in Heq. lia. }
    rewrite lookup_path_app, (IH l'); [|done|done|..].
    + destruct (ti_node _ _ _ _ _ _ Hinv q l' Hl' Hleaf) as (o & Ho & _ & Hprops).
      simpl. rewrite Ho, Hprops, Hq; [done|]. left. apply Hkeys.
      apply elem_of_app. right. by left.
    + intros q' Hq' Hne. apply Hpre; [by apply prefix_app_r|].
      intros ->. by apply prefix_snoc_not in Hq'.
    + intros k' Hk'. apply Hkeys. apply elem_of_app. by left.
Qed.

Lemma Forall2_elem_zip {A B} (P : A → B → Prop) l k x :
  Forall2 P l k → x ∈ l → ∃ y, (x, y) ∈ zip l k ∧ P x y.
Proof.
  induction 1 as [|a b l k Hab Hlk IH]; [by intros ?%elem_of_nil|].
  intros [->|Hx]%elem_of_cons.
  - exists b. split; [by left|done].
  - destruct (IH Hx) as (y & Hy & HP). exists y. split; [by right|done].
Qed.

Lemma simple_names_ok names : simple_names names → Forall (name_ok True) names.
Proof.
  intros [Hplain _]. eapply Forall_impl; [exact Hplain|].
  intros n [Hbr Hlen]. by split.
Qed.

Lemma field_path_no_length name k :
  "length" ∉ split_dot name → k ∈ field_path name → k ≠ "length".
Proof. intros Hlen [Hk| ->]%elem_of_interleave; [|done]. by intros ->. Qed.

(** The leaves of the tree of [builder_tree], read from [mappings]. *)
Lemma builder_leaves arrays h fieldMap table dynamic names :
  h !! fieldMap = Some table →
  table_names h table = Some names →
  Forall (name_ok arrays) names →
  pairwise_independent (split_dot <$> names) →
  ∃ h',
    mappingFromFieldMap h fieldMap dynamic = Ok (h', length h) ∧
    ∀ field name, (field, name) ∈ zip (fields_of h table) names →
      ∃ r, lookup_path h' (VRef (length h)) ("properties" :: field_path name)
             = Some (VRef r) ∧
           h' !! r = Some (mkObj KObject (rest_props field)).
Proof.
  intros Htable Hnames Hok Hind.
  destruct (builder_tree arrays h fieldMap table dynamic names)
    as (h' & G & Hrun & Hinv & Hplaced & Hrange & _ & Hframe); [done..|].
  exists h'. split; [done|]. intros field name Hin.
  rewrite Forall_forall in Hplaced.
  destruct (Hplaced _ Hin) as (r & Hr & Hobj). simpl in Hr, Hobj.
  exists r. split; [|done].
  assert (lookup_path h' (VRef (S (length h))) (field_path name) = Some (VRef r))
    as Hlook.
  { assert (name ∈ names) as Hname.
    { apply elem_of_zip_r in Hin. done. }
    assert (field_path name ∈ leaf_paths (zip (fields_of h table) names)) as Hleaf.
    { unfold leaf_paths. apply list_elem_of_fmap. exists name. split; [done|].
      apply list_elem_of_fmap. by exists (field, name). }
    assert (pairwise_independent (leaf_paths (zip (fields_of h table) names)))
      as Hind'.
    { unfold leaf_paths. rewrite snd_zip.
      - by apply pairwise_independent_fmap.
      - apply mapM_Some, Forall2_length in Hnames. lia. }
    eapply tree_lookup; [exact Hinv|done| |].
    - intros q' Hq' Hne Hq'leaf.
      destruct (pairwise_independent_elem _ _ _ Hind' Hq'leaf Hleaf Hne) as [H _].
      by apply H.
    - rewrite Forall_forall in Hok. destruct (Hok _ Hname) as (_ & Hlen & _).
      intros k. by apply field_path_no_length. }
  simpl. rewrite Hframe by lia. unfold start_heap.
  rewrite lookup_app_r by lia. rewrite Nat.sub_diag. simpl. exact Hlook.
Qed.

(** ** C1, C2, C6 for tables with plain, independent names *)

(** The paths of a name with one segment and of a name with three. *)
Example field_path_examples :
  field_path "name" = ["name"] ∧
  field_path "a.b.c" = ["a"; "properties"; "b"; "properties"; "c"].
Proof. split; reflexivity. Qed.

(** C1, amended: when the names of the fields have no brackets and no
    segment called [length], and no name continues another one (the segments
    of one are not the first segments of another), the builder returns and
    every field's leaf, the attributes left after stripping, is found at
    [properties.s1.properties.s2. ... .properties.sn], for the segments
    [s1], ..., [sn] of the field's name. *)
Theorem fields_at_their_paths h fieldMap table dynamic names :
  h !! fieldMap = Some table →
  table_names h table = Some names →
  simple_names names →
  ∃ h' m,
    mappingFromFieldMap h fieldMap dynamic = Ok (h', m) ∧
    ∀ field name, (field, name) ∈ zip (fields_of h table) names →
      ∃ r, lookup_path h' (VRef m) ("properties" :: field_path name) = Some (VRef r) ∧
           h' !! r = Some (mkObj KObject (rest_props field)).
Proof.
  intros Htable Hnames Hsimple.
  destruct (builder_leaves True h fieldMap table dynamic names) as (h' & Hrun & Hleaves);
    [done|done|by apply simple_names_ok|by destruct Hsimple|].
  by exists h', (length h).
Qed.

Lemma fields_at_their_paths_witness :
  ∃ h' m,
    mappingFromFieldMap heap_shared_segment 2%nat (VStr "strict") = Ok (h', m) ∧
    ∀ field name,
      (field, name) ∈ zip (fields_of heap_shared_segment
                             (obj [("a.b", VRef 0%nat); ("a.c", VRef 1%nat)]))
                          ["a.b"; "a.c"] →
      ∃ r, lookup_path h' (VRef m) ("properties" :: field_path name) = Some (VRef r) ∧
           h' !! r = Some (mkObj KObject (rest_props field)).
Proof.
  apply (fields_at_their_paths heap_shared_segment 2%nat
           (obj [("a.b", VRef 0%nat); ("a.c", VRef 1%nat)]) (VStr "strict")
           ["a.b"; "a.c"]).
  - reflexivity.
  - vm_compute. reflexivity.
  - apply (bool_decide_unpack _). vm_compute. exact I.
Defined.

(** ** C2: what the leaf holds *)

Lemma put_NoDup k v ps : NoDup ps.*1 → NoDup (put k v ps).*1.
Proof.
  induction ps as [|[k1 v1] ps IH]; simpl.
  - intros _. apply NoDup_singleton.
  - intros [Hnot Hnd]%NoDup_cons. destruct (decide (k1 = k)) as [->|Hne]; simpl.
    + by apply NoDup_cons.
    + apply NoDup_cons. split; [|by apply IH].
      intros ([k2 v2] & Heq & [[= -> ->]|Hin]%elem_of_put)%list_elem_of_fmap;
        simpl in Heq; subst; [done|].
      apply Hnot. apply list_elem_of_fmap. by exists (k2, v2).
Qed.

Lemma foldl_put_NoDup (l init : list (string * value)) :
  NoDup init.*1 → NoDup (foldl (λ ps q, put q.1 q.2 ps) init l).*1.
Proof.
  revert init. induction l as [|[k v] l IH]; simpl; intros init Hnd; [done|].
  by apply IH, put_NoDup.
Qed.

Lemma assoc_filter_stripped k (l : list (string * value)) :
  assoc k (filter (λ p, stripped p.1 = false) l) =
  if stripped k then None else assoc k l.
Proof.
  induction l as [|[k1 v1] l IH]; simpl; [by destruct (stripped k)|].
  destruct (decide (stripped k1 = false)) as [Hk1|Hk1].
  - rewrite filter_cons_True by done. simpl.
    destruct (decide (k1 = k)) as [->|Hne]; [by rewrite Hk1|done].
  - rewrite filter_cons_False by done. rewrite IH.
    destruct (decide (k1 = k)) as [->|Hne]; [|done].
    by destruct (stripped k).
Qed.

(** The attributes left after stripping are those of the declaration
    without [name], [required] and [array]. *)
Lemma rest_props_declaration h key d decl k :
  h !! d = Some decl → wf_object decl →
  assoc k (rest_props (field_object h key (VRef d))) =
  if stripped k then None else assoc k (oprops decl).
Proof.
  intros Hd Hwf. unfold rest_props. rewrite assoc_filter_stripped.
  destruct (stripped k) eqn:Hk; [done|].
  assert (NoDup (field_object h key (VRef d)).*1) as Hnd.
  { unfold field_object. apply foldl_put_NoDup. apply NoDup_singleton. }
  rewrite (assoc_perm _ _ (field_object h key (VRef d)));
    [|by rewrite ordered_props_perm|apply ordered_props_perm].
  unfold field_object. simpl. rewrite Hd.
  rewrite assoc_foldl_put by (by rewrite ordered_props_perm).
  rewrite (assoc_perm _ _ (oprops decl));
    [|by rewrite ordered_props_perm|apply ordered_props_perm].
  destruct (assoc k (oprops decl)); [done|]. simpl.
  destruct (decide ("name" = k)) as [<-|Hne]; [done|done].
Qed.

Lemma elem_of_fields_of_2 h table key v :
  wf_object table → (key, v) ∈ oprops table →
  field_object h key v ∈ fields_of h table.
Proof.
  intros Hwf Hin. unfold fields_of. apply list_elem_of_fmap.
  exists (key, v). simpl. split.
  - by rewrite (assoc_NoDup key v).
  - by apply elem_of_ordered_props.
Qed.

(** C2, amended: when the names of the fields have no brackets and no
    segment called [length], and no name continues another one, the leaf at
    the path of each field holds exactly the attributes of the field's
    declaration other than [name], [required] and [array], each with the
    value it has in the declaration. *)
Theorem leaves_are_stripped_declarations h fieldMap table dynamic names :
  h !! fieldMap = Some table → wf_object table →
  table_names h table = Some names →
  simple_names names →
  ∃ h' m,
    mappingFromFieldMap h fieldMap dynamic = Ok (h', m) ∧
    ∀ key d decl, (key, VRef d) ∈ oprops table → h !! d = Some decl →
      wf_object decl →
      ∃ name r leaf,
        field_name (field_object h key (VRef d)) = Some name ∧
        lookup_path h' (VRef m) ("properties" :: field_path name) = Some (VRef r) ∧
        h' !! r = Some leaf ∧ okind leaf = KObject ∧
        ∀ k, assoc k (oprops leaf) =
             if stripped k then None else assoc k (oprops decl).
Proof.
  intros Htable Hwf Hnames Hsimple.
  destruct (builder_leaves True h fieldMap table dynamic names) as (h' & Hrun & Hleaves);
    [done|done|by apply simple_names_ok|by destruct Hsimple|].
  exists h', (length h). split; [done|].
  intros key d decl Hkey Hd Hdecl.
  pose proof (elem_of_fields_of_2 h table key (VRef d) Hwf Hkey) as Hfield.
  apply mapM_Some in Hnames.
  destruct (Forall2_elem_zip _ _ _ _ Hnames Hfield) as (name & Hzip & Hname).
  destruct (Hleaves _ _ Hzip) as (r & Hlook & Hobj).
  exists name, r, (mkObj KObject (rest_props (field_object h key (VRef d)))).
  split; [done|]. split; [done|]. split; [done|]. split; [done|].
  intros k. simpl. by apply rest_props_declaration.
Qed.

Lemma leaves_are_stripped_declarations_witness :
  ∃ h' m,
    mappingFromFieldMap heap_shared_segment 2%nat (VBool true) = Ok (h', m) ∧
    ∀ key d decl,
      (key, VRef d) ∈ [("a.b", VRef 0%nat); ("a.c", VRef 1%nat)] →
      heap_shared_segment !! d = Some decl → wf_object decl →
      ∃ name r leaf,
        field_name (field_object heap_shared_segment key (VRef d)) = Some name ∧
        lookup_path h' (VRef m) ("properties" :: field_path name) = Some (VRef r) ∧
        h' !! r = Some leaf ∧ okind leaf = KObject ∧
        ∀ k, assoc k (oprops leaf) =
             if stripped k then None else assoc k (oprops decl).
Proof.
  apply (leaves_are_stripped_declarations heap_shared_segment 2%nat
           (obj [("a.b", VRef 0%nat); ("a.c", VRef 1%nat)]) (VBool true)
           ["a.b"; "a.c"]).
  - reflexivity.
  - apply (bool_decide_unpack _). vm_compute. exact I.
  - vm_compute. reflexivity.
  - apply (bool_decide_unpack _). vm_compute. exact I.
Defined.

(** ** C10: the leaves of the result have no [name] *)

(** C10, amended: when the names of the fields have no brackets and no
    segment called [length], and no name continues another one, the name of
    a field is the declaration's own [name] attribute when it has one and
    the key of the table otherwise, and the leaf that the result holds at
    the path of that name has none of the keys [name], [required] and
    [array]. *)
Theorem leaf_never_has_name h fieldMap table dynamic names :
  h !! fieldMap = Some table → wf_object table →
  table_names h table = Some names →
  simple_names names →
  ∃ h' m,
    mappingFromFieldMap h fieldMap dynamic = Ok (h', m) ∧
    ∀ key d decl, (key, VRef d) ∈ oprops table → h !! d = Some decl →
      wf_object decl →
      ∃ name r leaf,
        assoc "name" (field_object h key (VRef d)) =
          Some (default (VStr key) (assoc "name" (oprops decl))) ∧
        field_name (field_object h key (VRef d)) = Some name ∧
        lookup_path h' (VRef m) ("properties" :: field_path name) = Some (VRef r) ∧
        h' !! r = Some leaf ∧
        get_own leaf "name" = None ∧
        get_own leaf "required" = None ∧
        get_own leaf "array" = None.
Proof.
  intros Htable Hwf Hnames Hsimple.
  destruct (builder_leaves True h fieldMap table dynamic names) as (h' & Hrun & Hleaves);
    [done|done|by apply simple_names_ok|by destruct Hsimple|].
  exists h', (length h). split; [done|].
  intros key d decl Hkey Hd Hdecl.
  pose proof (elem_of_fields_of_2 h table key (VRef d) Hwf Hkey) as Hfield.
  apply mapM_Some in Hnames.
  destruct (Forall2_elem_zip _ _ _ _ Hnames Hfield) as (name & Hzip & Hname).
  destruct (Hleaves _ _ Hzip) as (r & Hlook & Hobj).
  exists name, r, (mkObj KObject (rest_props (field_object h key (VRef d)))).
  split; [by apply field_object_name|].
  split; [done|]. split; [done|]. split; [done|].
  unfold get_own. simpl. by rewrite !assoc_rest_props_stripped.
Qed.

Lemma leaf_never_has_name_witness :
  ∃ h' m,
    mappingFromFieldMap heap_named_declaration 1%nat (VBool true) = Ok (h', m) ∧
    ∀ key d decl,
      (key, VRef d) ∈ [("a", VRef 0%nat)] →
      heap_named_declaration !! d = Some decl → wf_object decl →
      ∃ name r leaf,
        assoc "name" (field_object heap_named_declaration key (VRef d)) =
          Some (default (VStr key) (assoc "name" (oprops decl))) ∧
        field_name (field_object heap_named_declaration key (VRef d)) = Some name ∧
        lookup_path h' (VRef m) ("properties" :: field_path name) = Some (VRef r) ∧
        h' !! r = Some leaf ∧
        get_own leaf "name" = None ∧
        get_own leaf "required" = None ∧
        get_own leaf "array" = None.
Proof.
  apply (leaf_never_has_name heap_named_declaration 1%nat
           (obj [("a", VRef 0%nat)]) (VBool true) ["zz.y"]).
  - reflexivity.
  - apply (bool_decide_unpack _). vm_compute. exact I.
  - vm_compute. reflexivity.
  - apply (bool_decide_unpack _). vm_compute. exact I.
Defined.

(** ** C6: names with the same first segment *)

(** C6, amended: when the names of the fields have no brackets and no
    segment called [length], and no name continues another one, two fields
    whose names start with the same segment [s] have their leaves below one
    and the same node [properties.s], each at the rest of its path. *)
Theorem shared_first_segment h fieldMap table dynamic names :
  h !! fieldMap = Some table →
  table_names h table = Some names →
  simple_names names →
  ∃ h' m,
    mappingFromFieldMap h fieldMap dynamic = Ok (h', m) ∧
    ∀ f1 n1 f2 n2 s t1 t2,
      (f1, n1) ∈ zip (fields_of h table) names →
      (f2, n2) ∈ zip (fields_of h table) names →
      split_dot n1 = s :: t1 → split_dot n2 = s :: t2 →
      ∃ node r1 r2,
        lookup_path h' (VRef m) ["properties"; s] = Some node ∧
        lookup_path h' node (tail (field_path n1)) = Some (VRef r1) ∧
        lookup_path h' node (tail (field_path n2)) = Some (VRef r2) ∧
        h' !! r1 = Some (mkObj KObject (rest_props f1)) ∧
        h' !! r2 = Some (mkObj KObject (rest_props f2)).
Proof.
  intros Htable Hnames Hsimple.
  destruct (builder_leaves True h fieldMap table dynamic names) as (h' & Hrun & Hleaves);
    [done|done|by apply simple_names_ok|by destruct Hsimple|].
  exists h', (length h). split; [done|].
  intros f1 n1 f2 n2 s t1 t2 Hin1 Hin2 Hs1 Hs2.
  destruct (Hleaves _ _ Hin1) as (r1 & Hlook1 & Hobj1).
  destruct (Hleaves _ _ Hin2) as (r2 & Hlook2 & Hobj2).
  assert (∀ n t, split_dot n = s :: t → field_path n = s :: tail (field_path n))
    as Hhead.
  { intros n t Hn. unfold field_path. rewrite Hn. by destruct t. }
  rewrite (Hhead _ _ Hs1) in Hlook1. rewrite (Hhead _ _ Hs2) in Hlook2.
  change ("properties" :: s :: tail (field_path n1))
    with (["properties"; s] ++ tail (field_path n1)) in Hlook1.
  change ("properties" :: s :: tail (field_path n2))
    with (["properties"; s] ++ tail (field_path n2)) in Hlook2.
  rewrite lookup_path_app in Hlook1, Hlook2.
  destruct (lookup_path h' (VRef (length h)) ["properties"; s]) as [node|]; [|done].
  by exists node, r1, r2.
Qed.

Lemma shared_first_segment_witness :
  ∃ h' m,
    mappingFromFieldMap heap_shared_segment 2%nat (VStr "strict") = Ok (h', m) ∧
    ∀ f1 n1 f2 n2 s t1 t2,
      (f1, n1) ∈ zip (fields_of heap_shared_segment
                        (obj [("a.b", VRef 0%nat); ("a.c", VRef 1%nat)]))
                     ["a.b"; "a.c"] →
      (f2, n2) ∈ zip (fields_of heap_shared_segment
                        (obj [("a.b", VRef 0%nat); ("a.c", VRef 1%nat)]))
                     ["a.b"; "a.c"] →
      split_dot n1 = s :: t1 → split_dot n2 = s :: t2 →
      ∃ node r1 r2,
        lookup_path h' (VRef m) ["properties"; s] = Some node ∧
        lookup_path h' node (tail (field_path n1)) = Some (VRef r1) ∧
        lookup_path h' node (tail (field_path n2)) = Some (VRef r2) ∧
        h' !! r1 = Some (mkObj KObject (rest_props f1)) ∧
        h' !! r2 = Some (mkObj KObject (rest_props f2)).
Proof.
  apply (shared_first_segment heap_shared_segment 2%nat
           (obj [("a.b", VRef 0%nat); ("a.c", VRef 1%nat)]) (VStr "strict")
           ["a.b"; "a.c"]).
  - reflexivity.
  - vm_compute. reflexivity.
  - apply (bool_decide_unpack _). vm_compute. exact I.
Defined.

Lemma flat_declarationsb_spec h table :
  flat_declarationsb h table = true → flat_declarations h table.
Proof.
  unfold flat_declarationsb. rewrite forallb_forall.
  intros Hall key d o k v Hkey Hd Hin.
  apply list_elem_of_In in Hkey. specialize (Hall _ Hkey). simpl in Hall.
  rewrite Hd in Hall. rewrite forallb_forall in Hall.
  apply list_elem_of_In in Hin. specialize (Hall _ Hin). simpl in Hall.
  by apply negb_true_iff in Hall.
Qed.

Lemma flat_table_unchanged_witness :
  ∃ h' m,
    mappingFromFieldMap heap_length_index 1%nat (VStr "strict") = Ok (h', m) ∧
    ((∀ l, (l < length heap_length_index)%nat → h' !! l = heap_length_index !! l) ∧
     h' !! 1%nat = Some (obj [("a.0", VRef 0%nat); ("a.length[0]", VRef 0%nat)]) ∧
     (∀ key d decl,
        (key, VRef d) ∈ oprops (obj [("a.0", VRef 0%nat); ("a.length[0]", VRef 0%nat)]) →
        heap_length_index !! d = Some decl → h' !! d = Some decl)).
Proof.
  eexists _, _. split; [vm_compute; reflexivity|].
  eapply (flat_table_unchanged heap_length_index 1%nat
            (obj [("a.0", VRef 0%nat); ("a.length[0]", VRef 0%nat)]) (VStr "strict")).
  - reflexivity.
  - apply flat_declarationsb_spec. vm_compute. reflexivity.
  - vm_compute. reflexivity.
Defined.

(** ** Two trees with the same leaves at the same paths *)

Lemma tree_inv_heap_ext arrays root h h' G leaves paths :
  tree_inv arrays root h G leaves paths →
  (∀ l, (l < length h)%nat → h' !! l = h !! l) → (length h ≤ length h')%nat →
  tree_inv arrays root h' G leaves paths.
Proof.
  intros [Hroot Hdom Hinj Hbound Hnode] Hsame Hlen. constructor; try done.
  - intros q l Hq. specialize (Hbound q l Hq). lia.
  - intros q l Hq Hleaf. destruct (Hnode q l Hq Hleaf) as (o & Ho & Hrest).
    exists o. split; [|done]. rewrite Hsame; [done|]. by eapply Hbound.
Qed.

Section compare.
Variable h : heap.
Variable dynamic : value.
Variables ha hb : heap.
Variables Ga Gb : layout.
Variables ma mb pa pb : loc.
Variables done_a done_b : list (list (string * value) * string).
Hypothesis h_closed : heap_closed h.
Hypothesis dynamic_closed : ∀ l, dynamic = VRef l → (l < length h)%nat.
Hypothesis frame_a : ∀ l, (l < length h)%nat → ha !! l = h !! l.
Hypothesis frame_b : ∀ l, (l < length h)%nat → hb !! l = h !! l.
Hypothesis root_a :
  ha !! ma = Some (mkObj KObject [("dynamic", dynamic); ("properties", VRef pa)]).
Hypothesis root_b :
  hb !! mb = Some (mkObj KObject [("dynamic", dynamic); ("properties", VRef pb)]).
Hypothesis tree_a : tree_inv False pa ha Ga (leaf_paths done_a) (leaf_paths done_a).
Hypothesis tree_b : tree_inv False pb hb Gb (leaf_paths done_b) (leaf_paths done_b).
Hypothesis placed_a : Forall (placed ha Ga) done_a.
Hypothesis placed_b : Forall (placed hb Gb) done_b.
Hypothesis same_fields : ∀ fn, fn ∈ done_a ↔ fn ∈ done_b.
Hypothesis fields_closed :
  ∀ f n k l, (f, n) ∈ done_a → (k, VRef l) ∈ f → (l < length h)%nat.

Lemma same_leaf_paths q : q ∈ leaf_paths done_a ↔ q ∈ leaf_paths done_b.
Proof.
  unfold leaf_paths. rewrite !list_elem_of_fmap.
  split; intros (n & -> & Hn); exists n; split; try done;
    rewrite list_elem_of_fmap in *; destruct Hn as (fn & -> & Hfn);
    exists fn; split; try done; by apply same_fields.
Qed.

Lemma same_place_old x :
  (∀ l, x = VRef l → (l < length h)%nat) → same_place h Ga Gb ma mb x x.
Proof. intros Hx. left. by split. Qed.

Lemma same_place_step a b :
  same_place h Ga Gb ma mb a b →
  struct_step ha hb (same_place h Ga Gb ma mb) a b.
Proof.
  intros [[<- Ha]|[(q & la & lb & -> & -> & Hqa & Hqb)|[-> ->]]].
  - destruct a as [| | | | |l]; try done. simpl.
    specialize (Ha l eq_refl).
    destruct (lookup_lt_is_Some_2 h l Ha) as [o Ho].
    exists o, o. rewrite frame_a, frame_b by done.
    split; [done|]. split; [done|]. split; [done|].
    intros k. destruct (assoc k (oprops o)) as [x|] eqn:Hx; [|done].
    apply same_place_old. intros l' ->. apply assoc_Some_elem in Hx.
    by eapply h_closed.
  - simpl. destruct (decide (q ∈ leaf_paths done_a)) as [Hleaf|Hleaf].
    + unfold leaf_paths in Hleaf.
      apply list_elem_of_fmap in Hleaf as (n & -> & Hn).
      apply list_elem_of_fmap in Hn as ([f n'] & -> & Hfn). simpl in *.
      pose proof Hfn as Hfn_b. apply same_fields in Hfn_b.
      rewrite Forall_forall in placed_a, placed_b.
      destruct (placed_a _ Hfn) as (ra & Hra & Hoa).
      destruct (placed_b _ Hfn_b) as (rb & Hrb & Hob). simpl in *.
      rewrite Hqa in Hra. injection Hra as <-.
      rewrite Hqb in Hrb. injection Hrb as <-.
      eexists _, _. split; [exact Hoa|]. split; [exact Hob|]. split; [done|].
      intros k. simpl. destruct (assoc k (rest_props f)) as [x|] eqn:Hx; [|done].
      apply same_place_old. intros l' ->.
      apply assoc_Some_elem, elem_of_rest_props in Hx. by eapply fields_closed.
    + assert (q ∉ leaf_paths done_b) as Hleaf_b by (by rewrite <- same_leaf_paths).
      destruct (ti_node _ _ _ _ _ _ tree_a q la Hqa Hleaf)
        as (oa & Hoa & [Hka|[]] & Hpa).
      destruct (ti_node _ _ _ _ _ _ tree_b q lb Hqb Hleaf_b)
        as (ob & Hob & [Hkb|[]] & Hpb).
      exists oa, ob. split; [done|]. split; [done|]. split; [congruence|].
      intros k. rewrite <- (get_own_object oa), <- (get_own_object ob) by done.
      rewrite Hpa, Hpb by (by right).
      assert (is_Some (Ga (q ++ [k])) ↔ is_Some (Gb (q ++ [k]))) as Hdom.
      { rewrite (ti_dom _ _ _ _ _ _ tree_a), (ti_dom _ _ _ _ _ _ tree_b).
        split; (intros [?|(p & Hp & Hqp)]; [by left|right]; exists p;
                split; [by apply same_leaf_paths|done]). }
      destruct (Ga (q ++ [k])) as [la'|] eqn:Hla, (Gb (q ++ [k])) as [lb'|] eqn:Hlb;
        simpl.
      * right. left. by exists (q ++ [k]), la', lb'.
      * assert (is_Some (@None loc)) as [? ?] by (apply Hdom; eauto). done.
      * assert (is_Some (@None loc)) as [? ?] by (apply Hdom; eauto). done.
      * done.
  - simpl. eexists _, _. split; [exact root_a|]. split; [exact root_b|].
    split; [done|]. intros k. simpl.
    destruct (decide ("dynamic" = k)); [by apply same_place_old|].
    destruct (decide ("properties" = k)); [|done].
    right. left. exists [], pa, pb.
    by rewrite (ti_root _ _ _ _ _ _ tree_a), (ti_root _ _ _ _ _ _ tree_b).
Qed.

Lemma trees_struct_equal : struct_equal ha (VRef ma) hb (VRef mb).
Proof.
  exists (same_place h Ga Gb ma mb). split; [right; by right|].
  apply same_place_step.
Qed.
End compare.

(** ** Tables with the same entries *)






Lemma fields_of_ext h h' table :
  (∀ key d, (key, VRef d) ∈ oprops table → h' !! d = h !! d) →
  fields_of h' table = fields_of h table.
Proof.
  intros Hsame. unfold fields_of. apply Forall_fmap_ext, Forall_forall.
  intros [k v0] Hin. simpl.
  destruct (assoc k (oprops table)) as [v|] eqn:Hv; [|done]. simpl.
  destruct v as [| | | | |d]; try done.
  unfold field_object, spread_props.
  by rewrite (Hsame k d) by (by apply assoc_Some_elem).
Qed.

Lemma fields_of_closed h table f k l :
  heap_closed h → f ∈ fields_of h table → (k, VRef l) ∈ f → (l < length h)%nat.
Proof.
  intros Hclosed Hf Hin.
  apply elem_of_fields_of in Hf as (key & v & _ & ->).
  apply field_object_ref in Hin as (d & o & _ & Hd & Hin).
  by eapply Hclosed.
Qed.

Lemma names_ok_no_arrays names :
  Forall plain_name names → Forall no_index names → Forall (name_ok False) names.
Proof.
  intros Hplain Hidx. apply Forall_forall. intros n Hn.
  rewrite Forall_forall in Hplain, Hidx.
  destruct (Hplain n Hn) as [Hbr Hlen]. split; [done|]. split; [done|].
  intros s Hs Hi. pose proof (Hidx n Hn) as Hall. unfold no_index in Hall.
  rewrite Forall_forall in Hall. specialize (Hall s Hs). congruence.
Qed.

Lemma start_heap_root h dynamic :
  start_heap h dynamic !! length h =
  Some (mkObj KObject [("dynamic", dynamic); ("properties", VRef (S (length h)))]).
Proof. unfold start_heap. rewrite lookup_app_r by lia. by rewrite Nat.sub_diag. Qed.

Lemma start_heap_old h dynamic l :
  (l < length h)%nat → start_heap h dynamic !! l = h !! l.
Proof. intros. unfold start_heap. by apply lookup_app_l. Qed.

(** ** C3: the root of the result and its [properties] *)

Lemma keeps_keys_refl h l : keeps_keys h h l.
Proof. intros o Ho Hk. by exists o. Qed.

Lemma keeps_keys_trans h1 h2 h3 l :
  keeps_keys h1 h2 l → keeps_keys h2 h3 l → keeps_keys h1 h3 l.
Proof.
  intros H12 H23 o Ho Hk. destruct (H12 o Ho Hk) as (o2 & Ho2 & Hk2 & Hkeys2).
  destruct (H23 o2 Ho2 Hk2) as (o3 & Ho3 & Hk3 & Hkeys3).
  exists o3. split; [done|]. split; [done|]. intros k Hsome. by apply Hkeys3, Hkeys2.
Qed.

Lemma keeps_keys_alloc h o l : keeps_keys h (h ++ [o]) l.
Proof.
  intros o1 Ho1 Hk. exists o1. split; [|done].
  rewrite lookup_app_l; [done|]. by eapply lookup_lt_Some.
Qed.

Lemma get_own_put_object o key v k :
  okind o = KObject →
  is_Some (get_own o k) → is_Some (get_own (mkObj KObject (put key v (oprops o))) k).
Proof.
  intros Hk. rewrite (get_own_object o) by done. unfold get_own. simpl.
  destruct (decide (key = k)) as [->|Hne].
  - rewrite assoc_put_eq. eauto.
  - by rewrite assoc_put_ne.
Qed.

Lemma assignValue_keeps h nested key v b h' l :
  assignValue h nested key v b = Ok h' → keeps_keys h h' l.
Proof.
  intros [->|(o & o' & Ho & Ha & ->)]%assignValue_inv; [apply keeps_keys_refl|].
  intros o1 Ho1 Hk. destruct (decide (l = nested)) as [->|Hne].
  - rewrite Ho in Ho1. injection Ho1 as ->.
    rewrite assign_own_object in Ha by done. injection Ha as <-.
    eexists. rewrite list_lookup_insert_eq by (by eapply lookup_lt_Some).
    split; [done|]. split; [done|]. intros k. by apply get_own_put_object.
  - exists o1. by rewrite list_lookup_insert_ne.
Qed.

Lemma number_round_keeps h path l : keeps_keys h (number_round h path) l.
Proof.
  destruct (number_round_cases h path) as [->|(o & _ & ->)];
    [apply keeps_keys_refl|apply keeps_keys_alloc].
Qed.

Lemma baseSet_loop_keeps path l : ∀ h nested v h',
  baseSet_loop h nested path v = Ok h' → keeps_keys h h' l.
Proof.
  induction path as [|key rest IH]; intros h nested v h' Hrun.
  - injection Hrun as <-. apply keeps_keys_refl.
  - destruct rest as [|next rest]; [by eapply assignValue_keeps|].
    rewrite baseSet_loop_inner in Hrun.
    destruct (h !! nested) as [o|]; [|done].
    destruct (object_at o key) as [l1|]; [by eapply IH|].
    set (new := if isIndex next then empty_array else empty_object) in Hrun.
    destruct (assignValue (h ++ [new]) nested key (length h) (isIndex next))
      as [h2|] eqn:Ha; [|done].
    assert (keeps_keys h h2 l) as H2.
    { eapply keeps_keys_trans; [apply keeps_keys_alloc|by eapply assignValue_keeps]. }
    destruct (object_under h2 nested key) as [l'|].
    + eapply keeps_keys_trans; [exact H2|by eapply IH].
    + assert (h' = number_round h2 (next :: rest)) as ->
        by (by injection Hrun as <-).
      eapply keeps_keys_trans; [exact H2|apply number_round_keeps].
Qed.

(** After the loop of [baseSet], a plain object from which it started has
    the first key of the path. *)
Lemma baseSet_loop_first key rest h nested v h' o :
  baseSet_loop h nested (key :: rest) v = Ok h' →
  h !! nested = Some o → okind o = KObject →
  ∃ o', h' !! nested = Some o' ∧ is_Some (get_own o' key).
Proof.
  intros Hrun Ho Hk. destruct rest as [|next rest].
  - simpl in Hrun. unfold assignValue in Hrun. rewrite Ho in Hrun.
    destruct (decide _) as [Hget|_].
    + injection Hrun as <-. exists o. rewrite Hget. eauto.
    + rewrite assign_own_object in Hrun by done. injection Hrun as <-.
      eexists. rewrite list_lookup_insert_eq by (by eapply lookup_lt_Some).
      split; [done|]. unfold get_own. simpl. rewrite assoc_put_eq. eauto.
  - rewrite baseSet_loop_inner, Ho in Hrun.
    destruct (object_at o key) as [l1|] eqn:Hobj.
    + apply object_at_Some in Hobj.
      destruct (baseSet_loop_keeps _ nested _ _ _ _ Hrun o Ho Hk)
        as (o' & Ho' & _ & Hkeys).
      exists o'. split; [done|]. apply Hkeys. rewrite Hobj. eauto.
    + set (new := if isIndex next then empty_array else empty_object) in Hrun.
      destruct (assignValue (h ++ [new]) nested key (length h) (isIndex next))
        as [h2|] eqn:Ha; [|done].
      assert (∃ o2, h2 !! nested = Some o2 ∧ okind o2 = KObject ∧
                    is_Some (get_own o2 key)) as (o2 & Ho2 & Hk2 & Hget2).
      { unfold assignValue in Ha.
        rewrite lookup_app_l in Ha by (by eapply lookup_lt_Some).
        rewrite Ho in Ha. destruct (decide _) as [Hget|_].
        - apply object_at_Some in Hget. congruence.
        - rewrite assign_own_object in Ha by done. injection Ha as <-.
          eexists. rewrite list_lookup_insert_eq.
          + split; [done|]. split; [done|].
            unfold get_own. simpl. rewrite assoc_put_eq. eauto.
          + rewrite length_app. apply lookup_lt_Some in Ho. lia. }
      assert (keeps_keys h2 h' nested) as Hkeep.
      { destruct (object_under h2 nested key) as [l'|].
        - by eapply baseSet_loop_keeps.
        - assert (h' = number_round h2 (next :: rest)) as ->
            by (by injection Hrun as <-).
          apply number_round_keeps. }
      destruct (Hkeep o2 Ho2 Hk2) as (o' & Ho' & _ & Hkeys).
      exists o'. split; [done|]. by apply Hkeys.
Qed.

Lemma place_field_keeps h properties field h' l :
  place_field h properties field = Ok h' → keeps_keys h h' l.
Proof.
  unfold place_field. cbn [alloc]. destruct (mapping_path field) as [path|]; [|done].
  unfold set. destruct (_ !! properties) as [o|]; [|done]. intros Hrun.
  eapply keeps_keys_trans; [apply keeps_keys_alloc|by eapply baseSet_loop_keeps].
Qed.

Lemma forEach_fields_keeps properties fields l : ∀ h h',
  forEach_fields h properties fields = Ok h' → keeps_keys h h' l.
Proof.
  induction fields as [|f fs IH]; intros h h' Hrun; simpl in Hrun.
  - injection Hrun as <-. apply keeps_keys_refl.
  - destruct (place_field h properties f) as [h1|] eqn:Hplace; [|done].
    eapply keeps_keys_trans; [by eapply place_field_keeps|by eapply IH].
Qed.

(** When [tree] has the keys of [o] and the first key of the path as it is
    read in [o], it has the first key of the path as it is read in [tree]
    itself. *)
Lemma first_key_owned o tree name :
  (∀ k, is_Some (get_own o k) → is_Some (get_own tree k)) →
  (∀ key, first_key o name = Some key → is_Some (get_own tree key)) →
  ∀ k, first_key tree name = Some k → is_Some (get_own tree k).
Proof.
  intros Hkeys Hround k. unfold first_key, castPath, isKey in *.
  set (s := join ".properties." (split_dot name)) in *.
  destruct (is_plain s || negb (is_deep s)) eqn:Hs; simpl in *.
  - apply Hround.
  - destruct (bool_decide (is_Some (get_own tree s))) eqn:Ht.
    + apply bool_decide_eq_true in Ht. by intros [= <-].
    + destruct (bool_decide (is_Some (get_own o s))) eqn:Ho.
      * apply bool_decide_eq_true, Hkeys in Ho.
        apply bool_decide_eq_false in Ht. done.
      * apply Hround.
Qed.

(** Every field has left the first key of its path in [properties]. *)
Lemma forEach_fields_first properties fields : ∀ h h' o,
  forEach_fields h properties fields = Ok h' →
  h !! properties = Some o → okind o = KObject →
  ∃ tree, h' !! properties = Some tree ∧ okind tree = KObject ∧
    ∀ field name k, field ∈ fields → field_name field = Some name →
      first_key tree name = Some k → is_Some (get_own tree k).
Proof.
  induction fields as [|f fs IH]; intros h h' o Hrun Ho Hk; simpl in Hrun.
  - injection Hrun as <-. exists o. split; [done|]. split; [done|].
    intros field name k Hin. by apply elem_of_nil in Hin.
  - destruct (place_field h properties f) as [h1|] eqn:Hplace; [|done].
    destruct (place_field_keeps _ _ _ _ properties Hplace o Ho Hk)
      as (o1 & Ho1 & Hk1 & Hkeys1).
    destruct (IH h1 h' o1 Hrun Ho1 Hk1) as (tree & Htree & Hkt & Hrest).
    exists tree. split; [done|]. split; [done|].
    intros field name k [->|Hin]%elem_of_cons Hname; [|by eapply Hrest].
    destruct (forEach_fields_keeps _ _ properties _ _ Hrun o1 Ho1 Hk1)
      as (tree' & Htree' & _ & Hkeys).
    rewrite Htree in Htree'. injection Htree' as <-.
    apply (first_key_owned o); [intros k0 Hk0; by apply Hkeys, Hkeys1|].
    intros key Hfirst. apply Hkeys.
    unfold place_field in Hplace. cbn [alloc] in Hplace.
    unfold mapping_path in Hplace. unfold field_name in Hname.
    destruct (assoc "name" f) as [[| | | |s|]|]; try done.
    injection Hname as ->. unfold set in Hplace.
    set (rest := mkObj KObject (rest_props f)) in Hplace.
    assert ((h ++ [rest]) !! properties = Some o) as Ho'.
    { rewrite lookup_app_l; [done|]. by eapply lookup_lt_Some. }
    rewrite Ho' in Hplace. unfold first_key in Hfirst.
    destruct (castPath (join ".properties." (split_dot name)) o)
      as [|key' path]; [done|].
    injection Hfirst as ->.
    destruct (baseSet_loop_first _ _ _ _ _ _ o Hplace Ho' Hk)
      as (o1' & Ho1' & Hown).
    rewrite Ho1 in Ho1'. by injection Ho1' as <-.
Qed.

(** C3: when the builder returns, the root of the result has exactly two
    fields: [dynamic], equal to the mode that was passed, and [properties].
    The latter is a plain object [tree] that the call has made, different
    from the root, and it holds what the loop has assembled: for every
    field, the first key of the field's path is a key of [tree]; and when
    the names have no brackets and no segment called [length], and no name
    continues another one, the leaf of every field is found in [tree] at
    the path of the field's name. *)
Theorem root_has_dynamic_and_properties h fieldMap table dynamic h' m :
  heap_closed h → h !! fieldMap = Some table →
  mappingFromFieldMap h fieldMap dynamic = Ok (h', m) →
  ∃ p tree,
    h' !! m = Some (mkObj KObject [("dynamic", dynamic); ("properties", VRef p)]) ∧
    (length h ≤ m)%nat ∧ (length h ≤ p)%nat ∧ p ≠ m ∧
    h' !! p = Some tree ∧ okind tree = KObject ∧
    (∀ field name k, field ∈ fields_of h table → field_name field = Some name →
       first_key tree name = Some k → is_Some (get_own tree k)) ∧
    (∀ names, table_names h table = Some names → simple_names names →
       ∀ field name, (field, name) ∈ zip (fields_of h table) names →
         ∃ r, lookup_path h' (VRef p) (field_path name) = Some (VRef r) ∧
              h' !! r = Some (mkObj KObject (rest_props field))).
Proof.
  intros Hclosed Htable Hrun. pose proof Hrun as Hrun0.
  unfold mappingFromFieldMap in Hrun. rewrite Htable in Hrun.
  set (h1 := start_heap h dynamic) in Hrun.
  destruct (forEach_fields h1 (S (length h)) (fields_of h table)) as [h2|] eqn:Hfor;
    [|done].
  injection Hrun as <- <-.
  assert (h2 !! length h = Some (mkObj KObject [("dynamic", dynamic);
            ("properties", VRef (S (length h)))])) as Hroot.
  { rewrite (forEach_fields_root (length h) _ _ _ _ Hfor).
    - apply start_heap_root.
    - lia.
    - unfold h1, start_heap. rewrite length_app. simpl. lia.
    - intros l o k Hl Hlook Hin. unfold h1, start_heap in Hlook.
      destruct (decide (l < length h)%nat) as [Hlt|Hge].
      + rewrite lookup_app_l in Hlook by done.
        specialize (Hclosed _ _ _ _ Hlook Hin). lia.
      + rewrite lookup_app_r in Hlook by lia.
        destruct (l - length h)%nat as [|[|n]] eqn:Hd; [lia| |done].
        injection Hlook as <-. by apply elem_of_nil in Hin.
    - apply Forall_forall. intros f Hf k Hin.
      pose proof (fields_of_closed _ _ _ _ _ Hclosed Hf Hin). lia. }
  destruct (forEach_fields_first _ _ _ _ empty_object Hfor)
    as (tree & Htree & Hkind & Hfirst); [|done|].
  { unfold h1, start_heap. rewrite lookup_app_r by lia.
    by replace (S (length h) - length h)%nat with 1%nat by lia. }
  exists (S (length h)), tree.
  split; [done|]. split; [done|]. split; [lia|]. split; [lia|].
  split; [done|]. split; [done|]. split; [done|].
  intros names Hnames [Hplain Hind] field name Hin.
  destruct (builder_leaves True h fieldMap table dynamic names)
    as (h' & Hrun' & Hleaves); [done|done|by apply simple_names_ok|done|].
  rewrite Hrun0 in Hrun'. injection Hrun' as <-.
  destruct (Hleaves _ _ Hin) as (r & Hlook & Hobj).
  exists r. split; [|done].
  simpl in Hlook. by rewrite Hroot in Hlook.
Qed.

Lemma root_has_dynamic_and_properties_witness :
  ∃ h' m,
    mappingFromFieldMap heap_shared_segment 2%nat (VStr "strict") = Ok (h', m) ∧
    ∃ p tree,
      h' !! m = Some (mkObj KObject [("dynamic", VStr "strict");
                                      ("properties", VRef p)]) ∧
      (length heap_shared_segment ≤ m)%nat ∧
      (length heap_shared_segment ≤ p)%nat ∧ p ≠ m ∧
      h' !! p = Some tree ∧ okind tree = KObject ∧
      (∀ field name k,
         field ∈ fields_of heap_shared_segment
                   (obj [("a.b", VRef 0%nat); ("a.c", VRef 1%nat)]) →
         field_name field = Some name →
         first_key tree name = Some k → is_Some (get_own tree k)) ∧
      (∀ names,
         table_names heap_shared_segment
           (obj [("a.b", VRef 0%nat); ("a.c", VRef 1%nat)]) = Some names →
         simple_names names →
         ∀ field name,
           (field, name) ∈ zip (fields_of heap_shared_segment
                                  (obj [("a.b", VRef 0%nat); ("a.c", VRef 1%nat)]))
                               names →
           ∃ r, lookup_path h' (VRef p) (field_path name) = Some (VRef r) ∧
                h' !! r = Some (mkObj KObject (rest_props field))).
Proof.
  eexists _, _. split; [vm_compute; reflexivity|].
  apply (root_has_dynamic_and_properties heap_shared_segment 2%nat
           (obj [("a.b", VRef 0%nat); ("a.c", VRef 1%nat)]) (VStr "strict")).
  - apply heap_closedb_spec. vm_compute. reflexivity.
  - reflexivity.
  - vm_compute. reflexivity.
Defined.

(** ** C8: the tables the builder accepts *)

(** Without brackets, no key of the path that [set] walks is [length]
    unless a segment of the name is. *)
Lemma castPath_no_length o name :
  plain_name name → "length" ∉ castPath (join ".properties." (split_dot name)) o.
Proof.
  intros [Hbr Hlen]. unfold castPath.
  set (t := join ".properties." (split_dot name)).
  assert (split_dot t = interleave (split_dot name)) as Hsplit.
  { apply split_dot_join; [apply split_dot_not_nil|apply split_dot_dot_free]. }
  destruct (isKey t o) eqn:Hkey.
  - intros Heq%list_elem_of_singleton. apply Hlen. rewrite <- Heq in Hsplit.
    change (split_dot "length") with ["length"] in Hsplit.
    destruct (split_dot name) as [|x [|y segs]]; [done| |done].
    injection Hsplit as <-. by left.
  - rewrite stringToPath_split.
    + rewrite Hsplit. intros [Hin|?]%elem_of_interleave; done.
    + by apply join_bracket_free, split_dot_bracket_free.
    + intros Heq. by rewrite Heq in Hkey.
Qed.

Section returns.
Variable m : loc.

Lemma closed_around_alloc h o :
  (∀ k l, (k, VRef l) ∈ oprops o → (l < length h)%nat ∧ l ≠ m) →
  closed_around m h → closed_around m (h ++ [o]).
Proof.
  intros Ho Hcl l o' k l' Hl Hlook Hin. rewrite length_app. simpl.
  destruct (decide (l < length h)%nat) as [Hlt|Hge].
  - rewrite lookup_app_l in Hlook by done.
    destruct (Hcl _ _ _ _ Hl Hlook Hin). split; [lia|done].
  - rewrite lookup_app_r in Hlook by lia.
    destruct (l - length h)%nat; [|done]. injection Hlook as <-.
    destruct (Ho _ _ Hin). split; [lia|done].
Qed.

Lemma assignValue_closed_around h nested key v b h' :
  assignValue h nested key v b = Ok h' → (v < length h)%nat → v ≠ m →
  closed_around m h → closed_around m h'.
Proof.
  intros [->|(o & o' & Ho & Ha & ->)]%assignValue_inv Hv Hvm Hcl; [done|].
  intros l o1 k l' Hl Hlook Hin. rewrite length_insert.
  destruct (decide (l = nested)) as [->|Hne].
  - rewrite list_lookup_insert_eq in Hlook by (by eapply lookup_lt_Some).
    injection Hlook as <-.
    apply (assign_own_elem _ _ _ _ _ _ Ha) in Hin as [[= _ ->]|Hin]; [done|].
    by eapply Hcl.
  - rewrite list_lookup_insert_ne in Hlook by done. by eapply Hcl.
Qed.

(** The assignment goes through when the key is not [length]. *)
Lemma assignValue_returns h nested key v b :
  (nested < length h)%nat → key ≠ "length" →
  ∃ h', assignValue h nested key v b = Ok h'.
Proof.
  intros Hn Hkey. unfold assignValue.
  destruct (lookup_lt_is_Some_2 h nested Hn) as [o ->].
  destruct (decide _); [eauto|].
  destruct (assign_own_not_length o key v b Hkey) as [o' ->]. eauto.
Qed.

(** The loop of [baseSet] returns when no key of the path is [length]. *)
Lemma baseSet_loop_returns path : ∀ h nested v,
  closed_around m h → (m < length h)%nat →
  (nested < length h)%nat → nested ≠ m → (v < length h)%nat → v ≠ m →
  "length" ∉ path →
  ∃ h', baseSet_loop h nested path v = Ok h' ∧ closed_around m h' ∧
        (length h ≤ length h')%nat.
Proof.
  induction path as [|key rest IH]; intros h nested v Hcl Hm Hn Hnm Hv Hvm Hpath.
  - exists h. auto.
  - apply not_elem_of_cons in Hpath as [Hkey Hrest].
    destruct rest as [|next rest].
    + destruct (assignValue_returns h nested key v false) as [h' Ha]; [done..|].
      exists h'. split; [done|]. split; [by eapply assignValue_closed_around|].
      by rewrite (assignValue_length _ _ _ _ _ _ Ha).
    + rewrite baseSet_loop_inner.
      destruct (lookup_lt_is_Some_2 h nested Hn) as [o Ho]. rewrite Ho.
      destruct (object_at o key) as [l|] eqn:Hobj.
      * apply object_at_Some, get_own_ref_elem in Hobj.
        destruct (Hcl _ _ _ _ Hnm Ho Hobj). by apply IH.
      * set (new := if isIndex next then empty_array else empty_object).
        assert (closed_around m (h ++ [new])) as Hcl1.
        { apply closed_around_alloc; [|done]. intros k l Hin.
          unfold new in Hin. destruct (isIndex next); by apply elem_of_nil in Hin. }
        assert (length (h ++ [new]) = S (length h)) as Hlen1.
        { rewrite length_app. simpl. lia. }
        destruct (assignValue_returns (h ++ [new]) nested key (length h)
                    (isIndex next)) as [h2 Ha]; [lia|done|].
        rewrite Ha.
        rewrite (object_under_new _ _ _ _ _ _ o Ha);
          [|by rewrite lookup_app_l|by left].
        pose proof (assignValue_length _ _ _ _ _ _ Ha) as Hlen2.
        destruct (IH h2 (length h) v) as (h' & Hrun & Hcl' & Hlen');
          [|lia|lia|lia|lia|done|done|].
        { eapply assignValue_closed_around; [exact Ha|lia|lia|done]. }
        exists h'. split; [done|]. split; [done|lia].
Qed.

Lemma forEach_fields_returns properties fields : ∀ names h,
  fields_named fields names → Forall plain_name names →
  Forall (λ f, ∀ k l, (k, VRef l) ∈ f → (l < m)%nat) fields →
  closed_around m h → (m < length h)%nat →
  (properties < length h)%nat → properties ≠ m →
  ∃ h', forEach_fields h properties fields = Ok h'.
Proof.
  induction fields as [|f fs IH]; intros names h Hnamed Hplain Hrefs Hcl Hm Hp Hpm.
  - by exists h.
  - apply Forall2_cons_inv_l in Hnamed as (n & ns & Hn & Hnamed & ->).
    apply Forall_cons in Hplain as [Hplain_n Hplain].
    apply Forall_cons in Hrefs as [Hf Hrefs].
    set (rest := mkObj KObject (rest_props f)).
    assert (closed_around m (h ++ [rest])) as Hcl1.
    { apply closed_around_alloc; [|done]. simpl. intros k l Hin.
      apply elem_of_rest_props, Hf in Hin. lia. }
    assert (length (h ++ [rest]) = S (length h)) as Hlen1.
    { rewrite length_app. simpl. lia. }
    assert (∃ h1, place_field h properties f = Ok h1 ∧ closed_around m h1 ∧
                  (length h ≤ length h1)%nat) as (h1 & Hplace & Hcl2 & Hlen2).
    { unfold place_field. cbn [alloc]. unfold mapping_path.
      unfold field_name in Hn. destruct (assoc "name" f) as [[| | | |s|]|]; try done.
      injection Hn as ->. unfold set. fold rest.
      destruct (lookup_lt_is_Some_2 (h ++ [rest]) properties) as [o ->]; [lia|].
      destruct (baseSet_loop_returns
                  (castPath (join ".properties." (split_dot n)) o)
                  (h ++ [rest]) properties (length h))
        as (h1 & Hrun & Hcl2 & Hlen2); [done|lia|lia|done|lia|lia| |].
      { by apply castPath_no_length. }
      exists h1. split; [done|]. split; [done|lia]. }
    simpl. rewrite Hplace. eapply IH; eauto; lia.
Qed.
End returns.

(** Two names with brackets and without a segment called [length] that make
    the builder throw: [a[0]] makes an array under [a], and [a[length]]
    assigns its leaf to the [length] of that array. *)
Lemma bracket_names_throw :
  ("length" ∉ split_dot "a[0]") ∧ ("length" ∉ split_dot "a[length]") ∧
  mappingFromFieldMap heap_bracket_length 1%nat (VBool true) = Throw.
Proof.
  split; [by apply (bool_decide_unpack _)|].
  split; [by apply (bool_decide_unpack _)|].
  vm_compute. reflexivity.
Qed.

(** C8, amended: when the names of the fields have no brackets and no
    segment called [length], the builder returns and does not throw,
    whatever the declarations hold and whether or not one name continues
    another. *)
Theorem simple_table_returns h fieldMap table dynamic names :
  heap_closed h →
  h !! fieldMap = Some table →
  table_names h table = Some names →
  Forall plain_name names →
  ∃ h' m, mappingFromFieldMap h fieldMap dynamic = Ok (h', m).
Proof.
  intros Hclosed Htable Hnames Hplain.
  unfold mappingFromFieldMap. rewrite Htable.
  destruct (forEach_fields_returns (length h) (S (length h)) (fields_of h table)
              names (start_heap h dynamic)) as [h' Hrun].
  - by apply mapM_Some.
  - done.
  - apply Forall_forall. intros f Hf k l Hin. by eapply fields_of_closed.
  - intros l o k l' Hl Hlook Hin. unfold start_heap in *.
    rewrite length_app. simpl.
    destruct (decide (l < length h)%nat) as [Hlt|Hge].
    + rewrite lookup_app_l in Hlook by done.
      specialize (Hclosed _ _ _ _ Hlook Hin). lia.
    + rewrite lookup_app_r in Hlook by lia.
      destruct (l - length h)%nat as [|[|n]] eqn:Hd; [lia| |done].
      injection Hlook as <-. by apply elem_of_nil in Hin.
  - unfold start_heap. rewrite length_app. simpl. lia.
  - unfold start_heap. rewrite length_app. simpl. lia.
  - lia.
  - rewrite Hrun. by exists h', (length h).
Qed.

Lemma simple_table_returns_witness :
  ∃ h' m, mappingFromFieldMap heap_nested_names 2%nat (VBool false) = Ok (h', m).
Proof.
  apply (simple_table_returns heap_nested_names 2%nat
           (obj [("a.b", VRef 0%nat); ("a", VRef 1%nat)]) (VBool false)
           ["a.b"; "a"]).
  - apply heap_closedb_spec. vm_compute. reflexivity.
  - reflexivity.
  - vm_compute. reflexivity.
  - apply (bool_decide_unpack _). vm_compute. exact I.
Defined.

(** ** C4: the order of the entries *)



(** ** The builder called twice *)

(** X9: declarations may hold objects here: for a table whose names have
    no brackets, no segment called [length] and no index segment, and of
    which none continues another one, the builder called twice in a row with
    the same arguments returns both times, and the two trees are
    structurally equal. *)
Theorem second_call_same_tree h dynamic fieldMap table names :
  heap_closed h → (∀ l, dynamic = VRef l → (l < length h)%nat) →
  h !! fieldMap = Some table →
  table_names h table = Some names →
  simple_names names → Forall no_index names →
  ∃ h2 m1 m2,
    twice h fieldMap dynamic = Ok (h2, m1, m2) ∧
    struct_equal h2 (VRef m1) h2 (VRef m2).
Proof.
  intros Hclosed Hdyn Htable Hnames [Hplain Hind] Hidx.
  pose proof (names_ok_no_arrays _ Hplain Hidx) as Hok.
  destruct (builder_tree False h fieldMap table dynamic names)
    as (h1 & G1 & Hrun1 & Hinv1 & Hplaced1 & _ & Hlen1 & Hframe1); [done..|].
  assert (∀ l, (l < length h)%nat → h1 !! l = h !! l) as Hold1.
  { intros l Hl. rewrite Hframe1 by lia. by apply start_heap_old. }
  assert (fields_of h1 table = fields_of h table) as Hfields.
  { apply fields_of_ext. intros key d Hin. apply Hold1. by eapply Hclosed. }
  assert (h1 !! fieldMap = Some table) as Htable1.
  { rewrite Hold1; [done|]. by eapply lookup_lt_Some. }
  destruct (builder_tree False h1 fieldMap table dynamic names)
    as (h2 & G2 & Hrun2 & Hinv2 & Hplaced2 & _ & Hlen2 & Hframe2); [done| |done..|].
  { unfold table_names. by rewrite Hfields. }
  assert (∀ l, (l < length h1)%nat → h2 !! l = h1 !! l) as Hold2.
  { intros l Hl. rewrite Hframe2 by lia. by apply start_heap_old. }
  exists h2, (length h), (length h1). split.
  { unfold twice. by rewrite Hrun1, Hrun2. }
  eapply (trees_struct_equal h dynamic h2 h2 G1 G2).
  - done.
  - done.
  - intros l Hl. rewrite Hold2 by lia. by apply Hold1.
  - intros l Hl. rewrite Hold2 by lia. by apply Hold1.
  - rewrite Hold2 by lia. rewrite Hframe1 by lia. apply start_heap_root.
  - rewrite Hframe2 by lia. apply start_heap_root.
  - eapply tree_inv_heap_ext; [exact Hinv1|done|lia].
  - exact Hinv2.
  - eapply Forall_impl; [exact Hplaced1|]. intros fn (r & Hr & Hobj).
    exists r. split; [done|]. rewrite Hold2; [done|].
    by eapply (ti_bound _ _ _ _ _ _ Hinv1).
  - done.
  - intros fn. by rewrite Hfields.
  - intros f n k l Hin Hk. apply elem_of_zip_l in Hin.
    by eapply fields_of_closed.
Qed.

Lemma second_call_same_tree_witness :
  ∃ h2 m1 m2,
    twice heap_shared_segment 2%nat (VStr "strict") = Ok (h2, m1, m2) ∧
    struct_equal h2 (VRef m1) h2 (VRef m2).
Proof.
  apply (second_call_same_tree heap_shared_segment (VStr "strict") 2%nat
           (obj [("a.b", VRef 0%nat); ("a.c", VRef 1%nat)]) ["a.b"; "a.c"]).
  - apply heap_closedb_spec. vm_compute. reflexivity.
  - intros l. discriminate.
  - reflexivity.
  - vm_compute. reflexivity.
  - apply (bool_decide_unpack _). vm_compute. exact I.
  - apply (bool_decide_unpack _). vm_compute. exact I.
Defined.

(** ** C5: a run and its shifted copy *)

Section shift.
Variables base d : nat.

Lemma shift_val_not_ref v : is_ref v = false → shift_val d v = v.
Proof. by destruct v. Qed.

Lemma shift_val_ref_inv v l : shift_val d v = VRef (l + d) → v = VRef l.
Proof. destruct v as [| | | | |l']; try done. intros [= H]. f_equal. lia. Qed.

Lemma assoc_shift k ps :
  assoc k (prod_map id (shift_val d) <$> ps) = shift_val d <$> assoc k ps.
Proof.
  induction ps as [|[k1 v1] ps IH]; [done|]. rewrite fmap_cons. simpl.
  destruct (decide (k1 = k)); [done|]. exact IH.
Qed.

Lemma put_shift k v ps :
  put k (shift_val d v) (prod_map id (shift_val d) <$> ps)
  = prod_map id (shift_val d) <$> put k v ps.
Proof.
  induction ps as [|[k1 v1] ps IH]; [done|]. rewrite fmap_cons. simpl.
  destruct (decide (k1 = k)); [done|]. rewrite fmap_cons. simpl. by rewrite IH.
Qed.

Lemma get_own_shift o k : get_own (shift_obj d o) k = shift_val d <$> get_own o k.
Proof.
  unfold get_own, shift_obj. simpl. destruct (okind o).
  - apply assoc_shift.
  - destruct (decide (k = "length")); [done|]. apply assoc_shift.
Qed.

Lemma object_at_shift o k :
  object_at (shift_obj d o) k = (λ l, (l + d)%nat) <$> object_at o k.
Proof.
  unfold object_at. rewrite get_own_shift. by destruct (get_own o k) as [[]|].
Qed.

Lemma named_props_shift ps :
  named_props (prod_map id (shift_val d) <$> ps)
  = prod_map id (shift_val d) <$> named_props ps.
Proof.
  unfold named_props. induction ps as [|[k1 v1] ps IH]; [done|].
  rewrite fmap_cons. destruct (array_index k1) as [i|] eqn:Hk.
  - rewrite !filter_cons_False by (simpl; congruence). exact IH.
  - rewrite !filter_cons_True by done. rewrite fmap_cons. by rewrite IH.
Qed.

Lemma assign_own_shift o k v b :
  assign_own (shift_obj d o) k (v + d) b =
  match assign_own o k v b with
  | Ok o' => Ok (shift_obj d o')
  | Throw => Throw
  end.
Proof.
  unfold assign_own, shift_obj. simpl.
  pose proof (put_shift k (VRef v) (oprops o)) as Hput. simpl in Hput.
  destruct (okind o).
  - by rewrite Hput.
  - destruct (decide (k = "length")).
    + destruct b; [|done]. simpl. by rewrite named_props_shift.
    + destruct (array_index k); simpl; by rewrite Hput.
Qed.

Lemma castPath_shift s o : castPath s (shift_obj d o) = castPath s o.
Proof.
  unfold castPath, isKey. rewrite get_own_shift.
  assert (bool_decide (is_Some (shift_val d <$> get_own o s))
          = bool_decide (is_Some (get_own o s))) as ->; [|done].
  apply bool_decide_ext. by rewrite fmap_is_Some.
Qed.

Lemma shift_obj_flat ps :
  (∀ k v, (k, v) ∈ ps → is_ref v = false) →
  shift_obj d (mkObj KObject ps) = mkObj KObject ps.
Proof.
  intros Hps. unfold shift_obj. simpl. f_equal.
  induction ps as [|[k v] ps IH]; [done|]. rewrite fmap_cons. f_equal.
  - unfold prod_map. simpl. f_equal. apply shift_val_not_ref. apply (Hps k).
    by left.
  - apply IH. intros k' v' Hin. apply (Hps k'). by right.
Qed.

Lemma shifted_alloc A B o :
  shifted base d A B → shifted base d (A ++ [o]) (B ++ [shift_obj d o]).
Proof.
  intros [Hlen Hsim]. split.
  - rewrite !length_app, Hlen. simpl. lia.
  - intros l Hl. destruct (decide (l < length A)%nat) as [Hlt|Hge].
    + rewrite !lookup_app_l by lia. by apply Hsim.
    + rewrite !lookup_app_r by lia. rewrite Hlen.
      replace (l + d - (length A + d))%nat with (l - length A)%nat by lia.
      by destruct (l - length A)%nat.
Qed.

Lemma shifted_insert A B n o :
  shifted base d A B →
  shifted base d (<[n := o]> A) (<[(n + d)%nat := shift_obj d o]> B).
Proof.
  intros [Hlen Hsim]. split; [by rewrite !length_insert|].
  intros l Hl. destruct (decide (l = n)) as [->|Hne].
  - destruct (decide (n < length A)%nat) as [Hlt|Hge].
    + rewrite !list_lookup_insert_eq by lia. done.
    + rewrite !list_insert_ge by lia. by apply Hsim.
  - rewrite !list_lookup_insert_ne by lia. by apply Hsim.
Qed.

Lemma assignValue_shift A B nested key v b :
  shifted base d A B → (base ≤ nested)%nat →
  same_outcome base d (assignValue A nested key v b)
    (assignValue B (nested + d) key (v + d) b).
Proof.
  intros Hsim Hn. pose proof Hsim as [Hlen Hlook].
  unfold assignValue. rewrite Hlook by done.
  destruct (A !! nested) as [o|]; simpl; [|done].
  rewrite get_own_shift.
  destruct (decide (get_own o key = Some (VRef v))) as [He|Hne].
  - rewrite He. simpl. by rewrite decide_True.
  - rewrite decide_False.
    + rewrite assign_own_shift. destruct (assign_own o key v b); simpl; [|done].
      by apply shifted_insert.
    + intros Heq. apply Hne. destruct (get_own o key) as [x|]; [|done].
      simpl in Heq. injection Heq as Heq. f_equal. by apply shift_val_ref_inv.
Qed.

Lemma object_under_shift A B nested key :
  shifted base d A B → (base ≤ nested)%nat →
  object_under B (nested + d) key = (λ l, (l + d)%nat) <$> object_under A nested key.
Proof.
  intros [_ Hlook] Hn. unfold object_under. rewrite Hlook by done.
  destruct (A !! nested) as [o|]; [|done]. simpl. apply object_at_shift.
Qed.

Lemma number_round_shift A B path :
  shifted base d A B → shifted base d (number_round A path) (number_round B path).
Proof.
  intros Hsim. destruct path as [|k [|next rest]]; [done..|].
  unfold number_round, alloc. simpl.
  set (new := if isIndex next then empty_array else empty_object).
  assert (shift_obj d new = new) as Hnew by (unfold new; by destruct (isIndex next)).
  rewrite <- Hnew at 2. by apply shifted_alloc.
Qed.

Lemma baseSet_loop_shift path : ∀ A B nested v,
  shifted base d A B → region_closed base A →
  (base ≤ nested)%nat → (base ≤ v < length A)%nat →
  same_outcome base d (baseSet_loop A nested path v)
    (baseSet_loop B (nested + d) path (v + d)).
Proof.
  induction path as [|key rest IH]; intros A B nested v Hsim Hreg Hn Hv; [done|].
  destruct rest as [|next rest]; [by apply assignValue_shift|].
  rewrite !baseSet_loop_inner.
  pose proof Hsim as [Hlen Hlook]. rewrite Hlook by done.
  destruct (A !! nested) as [o|] eqn:Ho; simpl; [|done].
  rewrite object_at_shift. destruct (object_at o key) as [l|] eqn:Hobj; simpl.
  - apply IH; [done..| |done].
    apply object_at_Some, get_own_ref_elem in Hobj.
    by destruct (Hreg nested o key l Hn Ho Hobj).
  - set (new := if isIndex next then empty_array else empty_object).
    assert (shift_obj d new = new) as Hnew by (unfold new; by destruct (isIndex next)).
    pose proof (shifted_alloc A B new Hsim) as Hsim1. rewrite Hnew in Hsim1.
    pose proof (assignValue_shift (A ++ [new]) (B ++ [new]) nested key (length A)
                  (isIndex next) Hsim1 Hn) as Hstep.
    rewrite Hlen.
    destruct (assignValue (A ++ [new]) nested key (length A) (isIndex next))
      as [A2|] eqn:HA;
      destruct (assignValue (B ++ [new]) (nested + d) key (length A + d)
                  (isIndex next)) as [B2|] eqn:HB;
      try done.
    pose proof (assignValue_length _ _ _ _ _ _ HA) as Hlen2.
    rewrite length_app in Hlen2. simpl in Hlen2.
    simpl in Hstep. rewrite (object_under_shift A2 B2) by done.
    destruct (object_under A2 nested key) as [l'|] eqn:Hunder; simpl.
    + apply (object_under_assigned _ _ _ _ _ _ _ HA) in Hunder as ->.
      apply IH; [done| |lia|lia].
      eapply (assignValue_region base); [exact HA| |].
      * rewrite length_app. simpl. lia.
      * apply region_closed_alloc; [|done]. intros k l Hin.
        unfold new in Hin. destruct (isIndex next); by apply elem_of_nil in Hin.
    + by apply (number_round_shift A2 B2 (next :: rest)).
Qed.

Lemma place_field_shift A B properties field :
  shifted base d A B → region_closed base A →
  (base ≤ properties)%nat → (base ≤ length A)%nat →
  (∀ k v, (k, v) ∈ field → is_ref v = false) →
  same_outcome base d (place_field A properties field)
    (place_field B (properties + d) field).
Proof.
  intros Hsim Hreg Hp Hbase Hflat. unfold place_field. simpl.
  destruct (mapping_path field) as [path|]; [|done].
  set (rest := mkObj KObject (rest_props field)).
  assert (shift_obj d rest = rest) as Hrest.
  { apply shift_obj_flat. intros k v Hin. apply (Hflat k).
    by apply elem_of_rest_props. }
  pose proof (shifted_alloc A B rest Hsim) as Hsim1. rewrite Hrest in Hsim1.
  pose proof Hsim as [Hlen _]. pose proof Hsim1 as [_ Hlook1].
  unfold set. rewrite Hlook1 by done.
  destruct ((A ++ [rest]) !! properties) as [o|]; simpl; [|done].
  rewrite castPath_shift, Hlen. apply baseSet_loop_shift; [done| |done|].
  - apply region_closed_alloc; [|done]. intros k l Hin. simpl in Hin.
    apply elem_of_rest_props, Hflat in Hin. done.
  - rewrite length_app. simpl. lia.
Qed.

Lemma forEach_fields_shift fields : ∀ A B properties,
  shifted base d A B → region_closed base A →
  (base ≤ properties)%nat → (base ≤ length A)%nat →
  Forall (λ f, ∀ k v, (k, v) ∈ f → is_ref v = false) fields →
  same_outcome base d (forEach_fields A properties fields)
    (forEach_fields B (properties + d) fields).
Proof.
  induction fields as [|f fs IH]; intros A B properties Hsim Hreg Hp Hbase Hflat;
    [done|].
  apply Forall_cons in Hflat as [Hf Hfs]. simpl.
  pose proof (place_field_shift A B properties f Hsim Hreg Hp Hbase Hf) as Hstep.
  destruct (place_field A properties f) as [A1|] eqn:HA;
    destruct (place_field B (properties + d) f) as [B1|] eqn:HB; try done.
  assert (forEach_fields A properties [f] = Ok A1) as Hone.
  { simpl. by rewrite HA. }
  apply (forEach_fields_region base) in Hone as (_ & Hreg1 & Hlen1);
    [|done|done|done|by constructor].
  apply IH; [done|done|done|lia|done].
Qed.
End shift.

Lemma region_closed_start h dynamic :
  is_ref dynamic = false → region_closed (length h) (start_heap h dynamic).
Proof.
  intros Hdyn l o k l' Hl Hlook Hin. unfold start_heap in *.
  rewrite length_app. simpl. rewrite lookup_app_r in Hlook by lia.
  destruct (l - length h)%nat as [|[|n]]; [| |done]; injection Hlook as <-.
  - simpl in Hin. apply elem_of_cons in Hin as [[= _ <-]|Hin]; [done|].
    apply list_elem_of_singleton in Hin as [= _ ->]. lia.
  - by apply elem_of_nil in Hin.
Qed.

Lemma shifted_start h h1 dynamic :
  is_ref dynamic = false → (length h ≤ length h1)%nat →
  shifted (length h) (length h1 - length h) (start_heap h dynamic)
    (start_heap h1 dynamic).
Proof.
  intros Hdyn Hlen. unfold start_heap. split.
  - rewrite !length_app. simpl. lia.
  - intros l Hl. rewrite !lookup_app_r by lia.
    replace (l + (length h1 - length h) - length h1)%nat with (l - length h)%nat
      by lia.
    destruct (l - length h)%nat as [|[|n]]; [|done..].
    simpl. unfold shift_obj. simpl. rewrite (shift_val_not_ref _ _ Hdyn).
    repeat f_equal. lia.
Qed.

(** Structural equality of a tree and its shifted copy, both in the heap of
    the copy. *)
Lemma shifted_struct_equal base d h1 h2 m :
  shifted base d h1 h2 → region_closed base h1 →
  (∀ l, (l < length h1)%nat → h2 !! l = h1 !! l) →
  (base ≤ m < length h1)%nat →
  struct_equal h2 (VRef m) h2 (VRef (m + d)).
Proof.
  intros [Hlen Hlook] Hreg Hold Hm.
  exists (λ a b, match a with
                 | VRef l => (base ≤ l < length h1)%nat ∧ b = VRef (l + d)
                 | _ => b = a
                 end).
  split; [done|]. intros a b Hab.
  destruct a as [| | | | |l]; try (subst b; done).
  destruct Hab as [Hl ->]. simpl.
  destruct (lookup_lt_is_Some_2 h1 l) as [o Ho]; [lia|].
  exists o, (shift_obj d o). split; [by rewrite Hold by lia|].
  split; [by rewrite Hlook, Ho by lia|]. split; [done|].
  intros k. simpl. rewrite assoc_shift.
  destruct (assoc k (oprops o)) as [x|] eqn:Hx; [|done]. simpl.
  destruct x as [| | | | |l']; try done. split; [|done].
  apply assoc_Some_elem in Hx. by eapply (Hreg l o k l'); [lia|..].
Qed.

(** C5, amended: when no attribute of a declaration of the table is an
    object and the mode is not an object, a call of the builder that returns
    is followed by a second call, with the same arguments, that returns as
    well, and the two trees are structurally equal. *)
Theorem second_call_equal_tree h fieldMap table dynamic h1 m1 :
  heap_closed h → is_ref dynamic = false →
  h !! fieldMap = Some table → flat_declarations h table →
  mappingFromFieldMap h fieldMap dynamic = Ok (h1, m1) →
  ∃ h2 m2,
    twice h fieldMap dynamic = Ok (h2, m1, m2) ∧
    struct_equal h2 (VRef m1) h2 (VRef m2).
Proof.
  intros Hclosed Hdyn Htable Hflat Hrun1.
  pose proof (fields_of_flat h table Hflat) as Hfields_flat.
  pose proof Hrun1 as Hrun. unfold mappingFromFieldMap in Hrun.
  rewrite Htable in Hrun.
  destruct (forEach_fields (start_heap h dynamic) (S (length h)) (fields_of h table))
    as [h1'|] eqn:Hfor1; [|done].
  injection Hrun as -> <-.
  assert (length (start_heap h dynamic) = length h + 2)%nat as Hlen0.
  { unfold start_heap. rewrite length_app. simpl. lia. }
  destruct (forEach_fields_region (length h) _ _ _ _ Hfor1)
    as (Hold1 & Hreg1 & Hlen1); [lia|lia|by apply region_closed_start|done|].
  assert (∀ l, (l < length h)%nat → h1 !! l = h !! l) as Hsame1.
  { intros l Hl. rewrite Hold1 by done. by apply start_heap_old. }
  assert (fields_of h1 table = fields_of h table) as Hfields.
  { apply fields_of_ext. intros key d' Hin. apply Hsame1. by eapply Hclosed. }
  assert (h1 !! fieldMap = Some table) as Htable1.
  { rewrite Hsame1; [done|]. by eapply lookup_lt_Some. }
  set (d := (length h1 - length h)%nat).
  assert (same_outcome (length h) d (Ok h1)
            (forEach_fields (start_heap h1 dynamic) (S (length h1))
               (fields_of h table))) as Hsim.
  { rewrite <- Hfor1.
    replace (S (length h1)) with (S (length h) + d)%nat by (unfold d; lia).
    apply forEach_fields_shift; [|by apply region_closed_start|lia|lia|done].
    apply shifted_start; [done|lia]. }
  destruct (forEach_fields (start_heap h1 dynamic) (S (length h1))
              (fields_of h table)) as [h2|] eqn:Hfor2; [|done].
  simpl in Hsim. rename Hsim into Hshift.
  assert (length (start_heap h1 dynamic) = length h1 + 2)%nat as Hlen0'.
  { unfold start_heap. rewrite length_app. simpl. lia. }
  destruct (forEach_fields_region (length h1) _ _ _ _ Hfor2)
    as (Hold2 & _ & _); [lia|lia|by apply region_closed_start|done|].
  exists h2, (length h1). split.
  { unfold twice. rewrite Hrun1. unfold mappingFromFieldMap.
    by rewrite Htable1, Hfields, Hfor2. }
  assert (length h1 = length h + d)%nat as Hm2 by (unfold d; lia).
  pose proof (shifted_struct_equal (length h) d h1 h2 (length h) Hshift Hreg1)
    as Heq.
  rewrite <- Hm2 in Heq. apply Heq; [|lia].
  intros l Hl. rewrite Hold2 by done. by apply start_heap_old.
Qed.

Lemma second_call_equal_tree_witness :
  ∃ h1 m1,
    mappingFromFieldMap heap_length_index 1%nat (VStr "strict") = Ok (h1, m1) ∧
    ∃ h2 m2,
      twice heap_length_index 1%nat (VStr "strict") = Ok (h2, m1, m2) ∧
      struct_equal h2 (VRef m1) h2 (VRef m2).
Proof.
  eexists _, _. split; [vm_compute; reflexivity|].
  eapply (second_call_equal_tree heap_length_index 1%nat
            (obj [("a.0", VRef 0%nat); ("a.length[0]", VRef 0%nat)]) (VStr "strict")).
  - apply heap_closedb_spec. vm_compute. reflexivity.
  - reflexivity.
  - reflexivity.
  - apply flat_declarationsb_spec. vm_compute. reflexivity.
  - vm_compute. reflexivity.
Defined.

(** * Further properties of the builder *)

(** ** The empty table and names that are not strings *)

(** X1: for a table without entries the loop does nothing: the builder
    returns the root [{ dynamic, properties: {} }] with an empty
    [properties] object, and every object that existed before is as it
    was. *)
Theorem empty_table_mapping h fieldMap table dynamic :
  h !! fieldMap = Some table → oprops table = [] →
  ∃ h',
    mappingFromFieldMap h fieldMap dynamic = Ok (h', length h) ∧
    lookup_path h' (VRef (length h)) ["dynamic"] = Some dynamic ∧
    lookup_path h' (VRef (length h)) ["properties"] = Some (VRef (S (length h))) ∧
    h' !! S (length h) = Some empty_object ∧
    (∀ l, (l < length h)%nat → h' !! l = h !! l).
Proof.
  intros Htable Hempty. exists (start_heap h dynamic).
  assert (start_heap h dynamic !! S (length h) = Some empty_object) as Hprops.
  { unfold start_heap. rewrite lookup_app_r by lia.
    by replace (S (length h) - length h)%nat with 1%nat by lia. }
  split.
  { unfold mappingFromFieldMap, fields_of. by rewrite Htable, Hempty. }
  split; [simpl; by rewrite start_heap_root|].
  split; [simpl; by rewrite start_heap_root|].
  split; [done|]. intros l Hl. by apply start_heap_old.
Qed.

Lemma empty_table_mapping_witness :
  ∃ h',
    mappingFromFieldMap heap_empty_table 0%nat (VBool false)
      = Ok (h', length heap_empty_table) ∧
    lookup_path h' (VRef (length heap_empty_table)) ["dynamic"]
      = Some (VBool false) ∧
    lookup_path h' (VRef (length heap_empty_table)) ["properties"]
      = Some (VRef (S (length heap_empty_table))) ∧
    h' !! S (length heap_empty_table) = Some empty_object ∧
    (∀ l, (l < length heap_empty_table)%nat → h' !! l = heap_empty_table !! l).
Proof.
  apply (empty_table_mapping heap_empty_table 0%nat (obj []) (VBool false));
    reflexivity.
Defined.

Lemma forEach_fields_not_named fields : ∀ h properties,
  mapM field_name fields = None → forEach_fields h properties fields = Throw.
Proof.
  induction fields as [|f fs IH]; intros h properties Hnone; [done|].
  simpl. destruct (place_field h properties f) as [h1|] eqn:Hplace; [|done].
  destruct (field_name f) as [n|] eqn:Hn.
  - apply IH. destruct (mapM field_name fs) as [ns|] eqn:Hns; [|done].
    exfalso. assert (mapM field_name (f :: fs) = Some (n :: ns)) as Hsome.
    { apply mapM_Some. constructor; [done|]. by apply mapM_Some. }
    congruence.
  - exfalso. unfold place_field in Hplace. simpl in Hplace.
    unfold mapping_path in Hplace. unfold field_name in Hn.
    destruct (assoc "name" f) as [[]|]; done.
Qed.

(** X2: when the name of some field is not a string, which happens when a
    declaration carries a [name] attribute of its own that is not a string,
    the builder throws and returns no tree, wherever that field stands in
    the table. *)
Theorem name_not_a_string_throws h fieldMap table dynamic :
  h !! fieldMap = Some table → table_names h table = None →
  mappingFromFieldMap h fieldMap dynamic = Throw.
Proof.
  intros Htable Hnames. unfold mappingFromFieldMap. rewrite Htable.
  by rewrite forEach_fields_not_named.
Qed.

Lemma name_not_a_string_throws_witness :
  mappingFromFieldMap heap_number_name 1%nat (VStr "strict") = Throw.
Proof.
  apply (name_not_a_string_throws heap_number_name 1%nat (obj [("x", VRef 0%nat)])).
  - reflexivity.
  - vm_compute. reflexivity.
Defined.

(** ** The path string of a name *)

Lemma join_split_dot s : join "." (split_dot s) = s.
Proof.
  induction s as [|c s IH]; [done|]. simpl.
  destruct (decide (c = "."%char)) as [->|Hc].
  - pose proof (split_dot_not_nil s) as Hne.
    destruct (split_dot s) as [|y l] eqn:Hs; [done|].
    change (join "." (EmptyString :: y :: l)) with (String "." (join "." (y :: l))).
    by rewrite IH.
  - pose proof (split_dot_not_nil s) as Hne.
    destruct (split_dot s) as [|x xs] eqn:Hs; [done|].
    destruct xs as [|y xs]; simpl in *; by rewrite <- IH.
Qed.

Lemma interleave_inj x y : interleave x = interleave y → x = y.
Proof.
  intros Heq.
  assert (x `prefix_of` y) as Hxy by (apply interleave_prefix; by rewrite Heq).
  assert (y `prefix_of` x) as Hyx by (apply interleave_prefix; by rewrite Heq).
  apply prefix_length_eq; [done|]. by apply prefix_length.
Qed.

Lemma field_path_inj a b : field_path a = field_path b → a = b.
Proof.
  intros Heq%interleave_inj.
  by rewrite <- (join_split_dot a), <- (join_split_dot b), Heq.
Qed.

(** X7: the path string [name.split('.').join('.properties.')] determines
    the name: two field objects are given the same path string only when
    they have the same name. *)
Theorem mapping_path_determines_name f1 f2 path :
  mapping_path f1 = Ok path → mapping_path f2 = Ok path →
  ∃ name, field_name f1 = Some name ∧ field_name f2 = Some name.
Proof.
  unfold mapping_path, field_name.
  destruct (assoc "name" f1) as [[| | | |n1|]|]; try done.
  destruct (assoc "name" f2) as [[| | | |n2|]|]; try done.
  intros [= H1] [= H2]. exists n1. split; [done|]. f_equal.
  apply field_path_inj. unfold field_path.
  rewrite <- !split_dot_join
    by (apply split_dot_not_nil || apply split_dot_dot_free).
  by rewrite H1, H2.
Qed.

Lemma mapping_path_determines_name_witness :
  ∃ name,
    field_name [("name", VStr "a.b"); ("type", VStr "text")] = Some name ∧
    field_name [("name", VStr "a.b"); ("type", VStr "long")] = Some name.
Proof.
  apply (mapping_path_determines_name
           [("name", VStr "a.b"); ("type", VStr "text")]
           [("name", VStr "a.b"); ("type", VStr "long")] "a.properties.b");
    reflexivity.
Defined.

(** X8: for a name without brackets, [set] is given the segments of the
    name with [properties] in between, whatever the segments are: an empty
    segment (two dots in a row, a dot at either end) is a key like any
    other.  The object must not own a key with a dot in it. *)
Theorem set_walks_the_segments h object o name v :
  h !! object = Some o →
  bracket_free name = true →
  (∀ s, is_Some (get_own o s) → dot_free s = true) →
  set h object (join ".properties." (split_dot name)) v
  = baseSet_loop h object (interleave (split_dot name)) v.
Proof.
  intros Ho Hname Hkeys. unfold set. rewrite Ho.
  by rewrite castPath_field_path.
Qed.

Lemma set_walks_the_segments_witness :
  set [empty_object; obj [("type", VStr "text")]] 0%nat
    (join ".properties." (split_dot "a..b")) 1%nat
  = baseSet_loop [empty_object; obj [("type", VStr "text")]] 0%nat
      (interleave (split_dot "a..b")) 1%nat.
Proof.
  apply (set_walks_the_segments [empty_object; obj [("type", VStr "text")]]
           0%nat empty_object "a..b" 1%nat).
  - reflexivity.
  - reflexivity.
  - intros s [x Hx]. done.
Defined.

(** ** More on the tree of a table with plain, independent names *)

Lemma interleave_app pre rest :
  pre ≠ [] → rest ≠ [] →
  interleave (pre ++ rest) = interleave pre ++ "properties" :: interleave rest.
Proof.
  induction pre as [|s pre IH]; [done|]. intros _ Hrest.
  destruct pre as [|s' pre].
  - simpl. by destruct rest.
  - change (interleave ((s :: s' :: pre) ++ rest))
      with (s :: "properties" :: interleave ((s' :: pre) ++ rest)).
    rewrite IH by done. done.
Qed.

Lemma interleave_prefix_mono pre segs :
  pre `prefix_of` segs → interleave pre `prefix_of` interleave segs.
Proof.
  intros [rest ->]. destruct pre as [|s pre]; [apply prefix_nil|].
  destruct rest as [|t rest]; [by rewrite app_nil_r|].
  rewrite interleave_app by done. by apply prefix_app_r.
Qed.

(** After a segment of a path comes [properties]. *)
Lemma interleave_next_key pre : ∀ segs k,
  pre ≠ [] → interleave pre ++ [k] `prefix_of` interleave segs → k = "properties".
Proof.
  induction pre as [|s pre IH]; [done|]. intros segs k _ Hpre.
  destruct segs as [|t segs].
  { simpl in Hpre. destruct pre; by apply prefix_nil_not in Hpre. }
  destruct pre as [|s' pre].
  - simpl in Hpre. destruct segs as [|t' segs].
    + apply prefix_cons_inv_2 in Hpre. by apply prefix_nil_not in Hpre.
    + apply prefix_cons_inv_2 in Hpre. by apply prefix_cons_inv_1 in Hpre.
  - change (interleave (s :: s' :: pre) ++ [k])
      with (s :: "properties" :: (interleave (s' :: pre) ++ [k])) in Hpre.
    destruct segs as [|t' segs].
    + simpl in Hpre. apply prefix_cons_inv_2 in Hpre. by apply prefix_nil_not in Hpre.
    + change (interleave (t :: t' :: segs))
        with (t :: "properties" :: interleave (t' :: segs)) in Hpre.
      do 2 apply prefix_cons_inv_2 in Hpre. by apply (IH (t' :: segs)).
Qed.

(** The tree of [builder_tree] with the layout and the lookups of the
    leaves side by side. *)
Lemma builder_layout arrays h fieldMap table dynamic names :
  h !! fieldMap = Some table →
  table_names h table = Some names →
  Forall (name_ok arrays) names →
  pairwise_independent (split_dot <$> names) →
  ∃ h' G,
    mappingFromFieldMap h fieldMap dynamic = Ok (h', length h) ∧
    tree_inv arrays (S (length h)) h' G
      (leaf_paths (zip (fields_of h table) names))
      (leaf_paths (zip (fields_of h table) names)) ∧
    (∀ q l, G q = Some l → (S (length h) ≤ l)%nat) ∧
    (∀ l, (l ≤ length h)%nat → h' !! l = start_heap h dynamic !! l) ∧
    (∀ q, q ∈ leaf_paths (zip (fields_of h table) names) ↔
          ∃ n, n ∈ names ∧ q = field_path n) ∧
    (∀ q l, G q = Some l →
       (∀ q', q' `prefix_of` q → q' ≠ q →
              q' ∉ leaf_paths (zip (fields_of h table) names)) →
       (∀ k, k ∈ q → k ≠ "length") →
       lookup_path h' (VRef (length h)) ("properties" :: q) = Some (VRef l)).
Proof.
  intros Htable Hnames Hok Hind.
  destruct (builder_tree arrays h fieldMap table dynamic names)
    as (h' & G & Hrun & Hinv & Hplaced & Hrange & _ & Hframe); [done..|].
  exists h', G. split; [done|]. split; [done|]. split; [done|]. split; [done|].
  split.
  { intros q. unfold leaf_paths. rewrite snd_zip.
    - rewrite list_elem_of_fmap. split; intros (n & ? & ?); by exists n.
    - apply mapM_Some, Forall2_length in Hnames. lia. }
  intros q l Hq Hpre Hkeys. simpl. rewrite Hframe by lia.
  rewrite start_heap_root. simpl. by eapply tree_lookup.
Qed.

(** X3: for a table with plain, independent names the builder writes to
    the objects it has made itself only: every object that existed before
    the call is as it was, also when attributes of the declarations are
    objects. *)
Theorem simple_table_unchanged h fieldMap table dynamic names :
  h !! fieldMap = Some table →
  table_names h table = Some names →
  simple_names names →
  ∃ h' m,
    mappingFromFieldMap h fieldMap dynamic = Ok (h', m) ∧
    (length h ≤ length h')%nat ∧
    ∀ l, (l < length h)%nat → h' !! l = h !! l.
Proof.
  intros Htable Hnames Hsimple.
  destruct (builder_tree True h fieldMap table dynamic names)
    as (h' & G & Hrun & _ & _ & _ & Hlen & Hframe);
    [done|done|by apply simple_names_ok|by destruct Hsimple|].
  exists h', (length h). split; [done|]. split; [lia|].
  intros l Hl. rewrite Hframe by lia. by apply start_heap_old.
Qed.

Lemma simple_table_unchanged_witness :
  ∃ h' m,
    mappingFromFieldMap heap_nested_attribute 3%nat (VStr "strict") = Ok (h', m) ∧
    (length heap_nested_attribute ≤ length h')%nat ∧
    ∀ l, (l < length heap_nested_attribute)%nat →
         h' !! l = heap_nested_attribute !! l.
Proof.
  apply (simple_table_unchanged heap_nested_attribute 3%nat
           (obj [("a.b", VRef 2%nat); ("a.c", VRef 0%nat)]) (VStr "strict")
           ["a.b"; "a.c"]).
  - reflexivity.
  - vm_compute. reflexivity.
  - apply (bool_decide_unpack _). vm_compute. exact I.
Defined.

Lemma leaf_path_lookup arrays h table names h' G n :
  tree_inv arrays (S (length h)) h' G
    (leaf_paths (zip (fields_of h table) names))
    (leaf_paths (zip (fields_of h table) names)) →
  (∀ q, q ∈ leaf_paths (zip (fields_of h table) names) ↔
        ∃ n, n ∈ names ∧ q = field_path n) →
  pairwise_independent (split_dot <$> names) →
  n ∈ names →
  ∀ q', q' `prefix_of` field_path n → q' ≠ field_path n →
        q' ∉ leaf_paths (zip (fields_of h table) names).
Proof.
  intros Hinv Hleaves Hind Hn q' Hq' Hne Hleaf.
  apply Hleaves in Hleaf as (n' & Hn' & ->).
  assert (pairwise_independent (field_path <$> names)) as Hind'
    by (by apply pairwise_independent_fmap).
  destruct (pairwise_independent_elem (field_path <$> names)
              (field_path n') (field_path n) Hind') as [H _]; [..|by apply H].
  - apply list_elem_of_fmap. by exists n'.
  - apply list_elem_of_fmap. by exists n.
  - done.
Qed.

(** X4: for a table with plain, independent names every leaf is an object
    that the call has made: it is none of the objects that existed before,
    in particular not the declaration, and the leaves of two fields with
    different names are different objects, also when the two fields share
    one declaration. *)
Theorem leaves_are_new_objects h fieldMap table dynamic names :
  h !! fieldMap = Some table →
  table_names h table = Some names →
  simple_names names →
  ∃ h' m,
    mappingFromFieldMap h fieldMap dynamic = Ok (h', m) ∧
    ∀ n1 n2 r1 r2, n1 ∈ names → n2 ∈ names →
      lookup_path h' (VRef m) ("properties" :: field_path n1) = Some (VRef r1) →
      lookup_path h' (VRef m) ("properties" :: field_path n2) = Some (VRef r2) →
      (length h < r1)%nat ∧ (n1 ≠ n2 → r1 ≠ r2).
Proof.
  intros Htable Hnames [Hplain Hind].
  destruct (builder_layout True h fieldMap table dynamic names)
    as (h' & G & Hrun & Hinv & Hrange & _ & Hleaves & Hlook);
    [done|done|by apply simple_names_ok|done|].
  exists h', (length h). split; [done|].
  assert (∀ n, n ∈ names →
            ∃ r, G (field_path n) = Some r ∧
                 lookup_path h' (VRef (length h)) ("properties" :: field_path n)
                 = Some (VRef r)) as Hleaf.
  { intros n Hn.
    assert (is_Some (G (field_path n))) as [r Hr].
    { apply (ti_dom _ _ _ _ _ _ Hinv). right. exists (field_path n).
      split; [|done]. apply Hleaves. by exists n. }
    exists r. split; [done|]. apply Hlook; [done| |].
    - by eapply leaf_path_lookup.
    - rewrite Forall_forall in Hplain. destruct (Hplain n Hn) as [_ Hlen].
      intros k. by apply field_path_no_length. }
  intros n1 n2 r1 r2 Hn1 Hn2 H1 H2.
  destruct (Hleaf n1 Hn1) as (r1' & Hg1 & Hl1).
  destruct (Hleaf n2 Hn2) as (r2' & Hg2 & Hl2).
  rewrite Hl1 in H1. injection H1 as <-. rewrite Hl2 in H2. injection H2 as <-.
  split.
  - apply Hrange in Hg1. lia.
  - intros Hne Heq. subst r2'. apply Hne, field_path_inj.
    by eapply (ti_inj _ _ _ _ _ _ Hinv).
Qed.

Lemma leaves_are_new_objects_witness :
  ∃ h' m,
    mappingFromFieldMap heap_one_declaration 1%nat (VBool true) = Ok (h', m) ∧
    ∀ n1 n2 r1 r2, n1 ∈ ["a"; "b"] → n2 ∈ ["a"; "b"] →
      lookup_path h' (VRef m) ("properties" :: field_path n1) = Some (VRef r1) →
      lookup_path h' (VRef m) ("properties" :: field_path n2) = Some (VRef r2) →
      (length heap_one_declaration < r1)%nat ∧ (n1 ≠ n2 → r1 ≠ r2).
Proof.
  apply (leaves_are_new_objects heap_one_declaration 1%nat
           (obj [("a", VRef 0%nat); ("b", VRef 0%nat)]) (VBool true) ["a"; "b"]).
  - reflexivity.
  - vm_compute. reflexivity.
  - apply (bool_decide_unpack _). vm_compute. exact I.
Defined.

Lemma head_interleave segs : head (interleave segs) = head segs.
Proof. by destruct segs as [|s [|s' segs]]. Qed.

Lemma prefix_singleton_head {A} (k : A) p : [k] `prefix_of` p ↔ head p = Some k.
Proof.
  split.
  - by intros [t ->].
  - destruct p as [|x p]; [done|]. intros [= ->]. by exists p.
Qed.

(** X6: for a table with plain, independent names without index segments,
    the keys of [properties] are exactly the first segments of the names:
    the tree holds nothing that no field has asked for. *)
Theorem top_level_keys h fieldMap table dynamic names :
  h !! fieldMap = Some table →
  table_names h table = Some names →
  simple_names names → Forall no_index names →
  ∃ h' m,
    mappingFromFieldMap h fieldMap dynamic = Ok (h', m) ∧
    ∀ k, is_Some (lookup_path h' (VRef m) ["properties"; k]) ↔
         ∃ n, n ∈ names ∧ head (split_dot n) = Some k.
Proof.
  intros Htable Hnames [Hplain Hind] Hidx.
  destruct (builder_layout False h fieldMap table dynamic names)
    as (h' & G & Hrun & Hinv & _ & Hframe & Hleaves & _);
    [done|done|by apply names_ok_no_arrays|done|].
  exists h', (length h). split; [done|]. intros k.
  assert ([] ∉ leaf_paths (zip (fields_of h table) names)) as Hnil.
  { intros (n & _ & Hn)%Hleaves. symmetry in Hn. by apply field_path_not_nil in Hn. }
  destruct (ti_node _ _ _ _ _ _ Hinv [] _ (ti_root _ _ _ _ _ _ Hinv) Hnil)
    as (o & Ho & [Hkind|[]] & Hprops).
  assert (lookup_path h' (VRef (length h)) ["properties"; k] = VRef <$> G [k])
    as ->.
  { simpl. rewrite Hframe by lia. rewrite start_heap_root. simpl.
    rewrite Ho, Hprops by (by right). simpl. by destruct (G [k]). }
  rewrite fmap_is_Some, (ti_dom _ _ _ _ _ _ Hinv). split.
  - intros [?|(p & (n & Hn & ->)%Hleaves & Hpre)]; [done|].
    exists n. split; [done|]. apply prefix_singleton_head in Hpre.
    unfold field_path in Hpre. by rewrite head_interleave in Hpre.
  - intros (n & Hn & Hhead). right. exists (field_path n). split.
    + apply Hleaves. by exists n.
    + apply prefix_singleton_head. unfold field_path. by rewrite head_interleave.
Qed.

Lemma top_level_keys_witness :
  ∃ h' m,
    mappingFromFieldMap heap_nested_attribute 3%nat (VBool true) = Ok (h', m) ∧
    ∀ k, is_Some (lookup_path h' (VRef m) ["properties"; k]) ↔
         ∃ n, n ∈ ["a.b"; "a.c"] ∧ head (split_dot n) = Some k.
Proof.
  apply (top_level_keys heap_nested_attribute 3%nat
           (obj [("a.b", VRef 2%nat); ("a.c", VRef 0%nat)]) (VBool true)
           ["a.b"; "a.c"]).
  - reflexivity.
  - vm_compute. reflexivity.
  - apply (bool_decide_unpack _). vm_compute. exact I.
  - apply (bool_decide_unpack _). vm_compute. exact I.
Defined.

(** X5: for a table with plain, independent names without index segments,
    the node that stands for the first segments of a name, but not for the
    whole name, is an object with the one key [properties]: it has no
    [type] and no other attribute of any declaration. *)
Theorem inner_nodes_hold_properties_only h fieldMap table dynamic names :
  h !! fieldMap = Some table →
  table_names h table = Some names →
  simple_names names → Forall no_index names →
  ∃ h' m,
    mappingFromFieldMap h fieldMap dynamic = Ok (h', m) ∧
    ∀ n pre, n ∈ names → pre ≠ [] →
      pre `prefix_of` split_dot n → pre ≠ split_dot n →
      ∃ l o,
        lookup_path h' (VRef m) ("properties" :: interleave pre) = Some (VRef l) ∧
        h' !! l = Some o ∧ okind o = KObject ∧
        ∀ k, is_Some (assoc k (oprops o)) ↔ k = "properties".
Proof.
  intros Htable Hnames [Hplain Hind] Hidx.
  destruct (builder_layout False h fieldMap table dynamic names)
    as (h' & G & Hrun & Hinv & _ & _ & Hleaves & Hlook);
    [done|done|by apply names_ok_no_arrays|done|].
  exists h', (length h). split; [done|].
  intros n pre Hn Hpre_ne Hpre Hpre_strict.
  set (q := interleave pre).
  assert (q `prefix_of` field_path n) as Hq by (by apply interleave_prefix_mono).
  assert (q ≠ field_path n) as Hq_ne.
  { intros Heq. by apply interleave_inj in Heq. }
  assert (is_Some (G q)) as [l Hl].
  { apply (ti_dom _ _ _ _ _ _ Hinv). right. exists (field_path n).
    split; [|done]. apply Hleaves. by exists n. }
  assert (q ∉ leaf_paths (zip (fields_of h table) names)) as Hq_leaf.
  { eapply leaf_path_lookup; eauto. }
  destruct (ti_node _ _ _ _ _ _ Hinv q l Hl Hq_leaf)
    as (o & Ho & [Hkind|[]] & Hprops).
  exists l, o. split.
  { apply Hlook; [done| |].
    - intros q' Hq' Hne. eapply leaf_path_lookup; eauto.
      + by etrans.
      + intros ->. apply Hne. apply prefix_length_eq; [done|].
        by apply prefix_length.
    - intros k Hk. rewrite Forall_forall in Hplain.
      destruct (Hplain n Hn) as [_ Hlen].
      apply (field_path_no_length n); [done|].
      destruct Hq as [t ->]. apply elem_of_app. by left. }
  split; [done|]. split; [done|]. intros k.
  rewrite <- (get_own_object o) by done. rewrite Hprops by (by right).
  rewrite fmap_is_Some, (ti_dom _ _ _ _ _ _ Hinv). split.
  - intros [Hnil|(p & (n' & _ & ->)%Hleaves & Hp)]; [by destruct q|].
    by eapply interleave_next_key.
  - intros ->. right. exists (field_path n). split; [apply Hleaves; by exists n|].
    destruct Hpre as [rest Hrest].
    destruct rest as [|t rest]; [by rewrite app_nil_r in Hrest|].
    unfold field_path, q. rewrite Hrest, interleave_app by done.
    apply prefix_app. by apply prefix_cons, prefix_nil.
Qed.

Lemma inner_nodes_hold_properties_only_witness :
  ∃ h' m,
    mappingFromFieldMap heap_nested_attribute 3%nat (VBool true) = Ok (h', m) ∧
    ∀ n pre, n ∈ ["a.b"; "a.c"] → pre ≠ [] →
      pre `prefix_of` split_dot n → pre ≠ split_dot n →
      ∃ l o,
        lookup_path h' (VRef m) ("properties" :: interleave pre) = Some (VRef l) ∧
        h' !! l = Some o ∧ okind o = KObject ∧
        ∀ k, is_Some (assoc k (oprops o)) ↔ k = "properties".
Proof.
  apply (inner_nodes_hold_properties_only heap_nested_attribute 3%nat
           (obj [("a.b", VRef 2%nat); ("a.c", VRef 0%nat)]) (VBool true)
           ["a.b"; "a.c"]).
  - reflexivity.
  - vm_compute. reflexivity.
  - apply (bool_decide_unpack _). vm_compute. exact I.
  - apply (bool_decide_unpack _). vm_compute. exact I.
Defined.

(** ** An index segment makes an array *)

Lemma lookup_tail (h t : heap) k : (h ++ t) !! (length h + k)%nat = t !! k.
Proof. rewrite lookup_app_r by lia. f_equal. lia. Qed.

Lemma insert_tail (h t : heap) k o :
  <[(length h + k)%nat := o]> (h ++ t) = h ++ <[k := o]> t.
Proof. rewrite insert_app_r_alt by lia. do 2 f_equal. lia. Qed.

Lemma digits_val_nonneg s : ∀ acc n, 0 ≤ acc → digits_val acc s = Some n → 0 ≤ n.
Proof.
  induction s as [|c s IH]; simpl; intros acc n Hacc.
  - intros [= <-]. done.
  - unfold digit_val. destruct (_ && _) eqn:Hc; [|done].
    apply andb_prop in Hc as [Hc _]. apply Z.leb_le in Hc.
    apply IH. lia.
Qed.

Lemma array_index_nonneg s n : array_index s = Some n → 0 ≤ n.
Proof.
  unfold array_index, parse_uint. destruct s as [|c s]; [done|].
  destruct (decide (c = "0"%char)).
  - destruct (decide (s = EmptyString)); [|done]. simpl. by intros [= <-].
  - destruct (digits_val 0 (String c s)) as [m|] eqn:Hm; [|done].
    destruct (m <? 4294967295); [|done]. intros [= <-].
    by eapply digits_val_nonneg.
Qed.

Lemma assignValue_tail (h t : heap) k key v b o o' :
  t !! k = Some o → get_own o key = None → assign_own o key v b = Ok o' →
  assignValue (h ++ t) (length h + k) key v b = Ok (h ++ <[k := o']> t).
Proof.
  intros Ho Hget Ha. unfold assignValue. rewrite lookup_tail, Ho, Hget.
  rewrite decide_False by done. by rewrite Ha, insert_tail.
Qed.

(** A round of the loop that makes a new node, in a heap that ends in
    [t]. *)
Lemma baseSet_loop_tail (h t : heap) k key next rest v o o' :
  t !! k = Some o → get_own o key = None →
  key ≠ "length" ∨ okind o = KObject →
  assign_own o key (length h + length t) (isIndex next) = Ok o' →
  baseSet_loop (h ++ t) (length h + k) (key :: next :: rest) v =
  baseSet_loop
    (h ++ <[k := o']> (t ++ [if isIndex next then empty_array else empty_object]))
    (length h + length t) (next :: rest) v.
Proof.
  intros Ho Hget Hk Ha. rewrite baseSet_loop_inner, lookup_tail, Ho.
  rewrite (object_at_None _ _ Hget). rewrite <- app_assoc, length_app.
  set (new := if isIndex next then empty_array else empty_object).
  assert ((t ++ [new]) !! k = Some o) as Ho1 by (by apply lookup_app_l_Some).
  pose proof (assignValue_tail h (t ++ [new]) k key _ _ o o' Ho1 Hget Ha) as Hassign.
  rewrite Hassign.
  rewrite (object_under_new _ _ _ _ _ _ o Hassign); [done| |done].
  by rewrite lookup_tail.
Qed.

(** X10: in the first round of the loop, a field whose name has the two
    segments [s] and [i], where [i] is an array index, does not get an
    object for [properties.s.properties]: [set] makes an array of length
    [i + 1] and stores the leaf at its index [i]. *)
Theorem index_segment_makes_array h dynamic field name s i n :
  field_name field = Some name → bracket_free name = true →
  split_dot name = [s; i] → array_index i = Some n →
  ∃ h' a,
    place_field (start_heap h dynamic) (S (length h)) field = Ok h' ∧
    lookup_path h' (VRef (length h)) ["properties"; s; "properties"]
      = Some (VRef a) ∧
    h' !! a = Some (mkObj (KArray (n + 1)) [(i, VRef (length h + 2)%nat)]) ∧
    h' !! (length h + 2)%nat = Some (mkObj KObject (rest_props field)).
Proof.
  intros Hname Hbr Hsplit Hidx.
  assert (mapping_path field = Ok (join ".properties." (split_dot name))) as Hpath.
  { unfold mapping_path. unfold field_name in Hname.
    destruct (assoc "name" field) as [[]|]; try done. by injection Hname as ->. }
  assert (isIndex i = true) as Hisidx.
  { unfold isIndex. unfold array_index in Hidx.
    destruct (parse_uint i) as [m|]; [|done].
    destruct (m <? 4294967295) eqn:Hm; [|done]. apply Z.ltb_lt in Hm.
    apply Z.ltb_lt. lia. }
  assert (i ≠ "length") as Hlen by (intros ->; done).
  pose proof (array_index_nonneg _ _ Hidx) as Hn.
  set (M := mkObj KObject [("dynamic", dynamic); ("properties", VRef (S (length h)))]).
  set (rest := mkObj KObject (rest_props field)).
  set (node := mkObj KObject [("properties", VRef (length h + 4)%nat)]).
  set (arr := mkObj (KArray (n + 1)) [(i, VRef (length h + 2)%nat)]).
  set (props := mkObj KObject [(s, VRef (length h + 3)%nat)]).
  exists (h ++ [M; props; rest; node; arr]), (length h + 4)%nat.
  split.
  { unfold place_field. cbn [alloc]. rewrite Hpath. unfold set, start_heap.
    fold M rest. rewrite <- !app_assoc. cbn [app].
    assert (S (length h) = (length h + 1)%nat) as E by lia. rewrite !E.
    rewrite lookup_tail. cbn [lookup list_lookup].
    rewrite castPath_field_path; [|done|by intros ? [? ?]].
    unfold field_path. rewrite Hsplit. cbn [interleave].
    rewrite length_app. cbn [length].
    rewrite (baseSet_loop_tail h _ 1 s "properties" [i] _ empty_object props);
      [|done|done|by right|done].
    cbn [app length insert list_insert]. change (isIndex "properties") with false.
    cbv iota.
    rewrite (baseSet_loop_tail h _ 3 "properties" i [] _ empty_object node);
      [|done|done|by right|done].
    cbn [app length insert list_insert]. rewrite Hisidx. cbn [baseSet_loop].
    rewrite (assignValue_tail h _ 4 i (length h + 2) false empty_array arr).
    - done.
    - done.
    - unfold get_own. simpl. by rewrite decide_False.
    - unfold assign_own. simpl. rewrite decide_False by done. rewrite Hidx.
      unfold arr. do 3 f_equal. lia. }
  split.
  { simpl. replace (length h) with (length h + 0)%nat at 1 by lia.
    rewrite lookup_tail. simpl.
    replace (S (length h)) with (length h + 1)%nat by lia.
    rewrite lookup_tail. simpl.
    assert (get_own props s = Some (VRef (length h + 3)%nat)) as ->.
    { unfold get_own, props. simpl. by rewrite decide_True. }
    rewrite lookup_tail. simpl. done. }
  split; [by rewrite lookup_tail|]. by rewrite lookup_tail.
Qed.

Lemma index_segment_makes_array_witness :
  ∃ h' a,
    place_field (start_heap heap_index_length (VBool true))
      (S (length heap_index_length))
      (field_object heap_index_length "a.0" (VRef 0%nat)) = Ok h' ∧
    lookup_path h' (VRef (length heap_index_length)) ["properties"; "a"; "properties"]
      = Some (VRef a) ∧
    h' !! a = Some (mkObj (KArray (0 + 1))
                      [("0", VRef (length heap_index_length + 2)%nat)]) ∧
    h' !! (length heap_index_length + 2)%nat
      = Some (mkObj KObject
                (rest_props (field_object heap_index_length "a.0" (VRef 0%nat)))).
Proof.
  apply (index_segment_makes_array heap_index_length (VBool true)
           (field_object heap_index_length "a.0" (VRef 0%nat)) "a.0" "a" "0" 0);
    reflexivity.
Defined.
